(** * GenFit [MaterialEffects]: energy loss, process noise and step limits

    A shallow embedding of [trackReps/src/MaterialEffects.cc] and the
    properties its specification states about it.

    Modelling conventions.

    - [Scalar] (a C++ [double]) is the field [R] of mathematical reals:
      rounding, infinities and NaN are outside the model.  Wherever a
      statement depends on a quotient, its hypotheses keep the divisor
      away from zero, so the totalised division of [R] is never what
      decides a result.
    - [log], [exp], [sqrt], [atan], [fabs] are [ln], [exp], [sqrt],
      [atan], [Rabs]; [hypot x y] is [sqrt (x*x + y*y)]; [pow] with an
      integral literal exponent is the iterated product, and with any other
      exponent it is [c_pow] below.
    - A C++ [throw] is the outcome [Throw]; the fields written before the
      throw stay written, so every stateful member function is a function
      from the object to an outcome {e and} the object afterwards.
    - [M7x7], [M1x7] and [M1x3] are flat arrays, here lists of reals read
      with [nth] and written with [upd]; the 7x7 matrix is row-major.
    - The debug stream is not modelled; [debugLvl_] is kept as a field.
      Of [drawdEdx] the histogram fills and the object afterwards are
      modelled, the output file is not. *)

From Stdlib Require Import Reals Lra Psatz ZArith List String Ascii Bool Lia.
Import ListNotations.

Local Open Scope R_scope.

(** ** Scalars and flat arrays *)

Definition Scalar : Type := R.

Definition M1x3 : Type := list Scalar.
Definition M1x7 : Type := list Scalar.
Definition M7x7 : Type := list Scalar.

(** [a[i]] *)
Definition at_ (a : list Scalar) (i : nat) : Scalar := nth i a 0.

(** [a[i] = v]; the source only writes inside the array. *)
Fixpoint upd (a : list Scalar) (i : nat) (v : Scalar) : list Scalar :=
  match a, i with
  | [], _ => []
  | _ :: t, O => v :: t
  | h :: t, S j => h :: upd t j v
  end.

(** [std::fill(a.begin(), a.end(), 0)] on an array of [n] cells. *)
Definition zeros (n : nat) : list Scalar := repeat 0 n.

Definition hypot (x y : Scalar) : Scalar := sqrt (x * x + y * y).

(** [pow(x, y)] for a non-literal or fractional exponent: [x^y] for a
    positive base, [0] for base zero with a positive exponent, [1] for
    exponent zero.  A negative base with a fractional exponent is a
    domain error in C and is not reached by the source on admissible
    inputs; the model returns [0] there. *)
Definition c_pow (x y : Scalar) : Scalar :=
  if Rlt_dec 0 x then Rpower x y
  else if Req_dec_T y 0 then 1
  else 0.

(** ** Data model *)

Record MaterialProperties : Type := mkMaterialProperties {
  density_ : Scalar;
  Z_ : Scalar;
  A_ : Scalar;
  radiationLength_mp : Scalar;
  mEE_mp : Scalar
}.

Module MatStep.

Record t : Type := mk {
  materialProperties_ : MaterialProperties;
  stepSize_ : Scalar
}.

End MatStep.

Record RKStep : Type := mkRKStep {
  matStep_ : MatStep.t;
  state7_ : M1x7
}.

(** [genfit::Exception] carries a message and a fatal flag;
    [std::runtime_error] a message; a failed [assert] aborts. *)
Inductive exn : Type :=
| Exception (what : string) (fatal : bool)
| runtime_error (what : string)
| assertion_failure.

Inductive outcome (A : Type) : Type :=
| Ret (a : A)
| Throw (e : exn).
Arguments Ret {A} a.
Arguments Throw {A} e.

Definition is_fatal (e : exn) : bool :=
  match e with
  | Exception _ f => f
  | _ => false
  end.

(** The names of the step limits the step limiter installs
    ([StepLimitType] of [StepLimits.h]). *)
Inductive StepLimitType : Type :=
| stp_noLimit | stp_fieldCurv | stp_momLoss | stp_sMax | stp_sMaxArg
| stp_boundary | stp_plane.

(** The track representation only enters through its geometric
    propagation of a state vector over a signed distance. *)
Record RKTrackRep : Type := mkRKTrackRep {
  RKPropagate : M1x7 -> Scalar -> bool -> M1x7
}.

(** ** The external collaborators, as interfaces *)

(** [AbsMaterialInterface]: the material oracle.  An oracle object has
    a state of its own ([initTrack] moves it to a point and direction). *)
Class AbsMaterialInterface (Oracle : Type) : Type := {
  initTrack : Scalar -> Scalar -> Scalar -> Scalar -> Scalar -> Scalar ->
              Oracle -> Oracle;
  getMaterialParameters : Oracle -> MaterialProperties;
  findNextBoundary : RKTrackRep -> M1x7 -> Scalar -> bool ->
                     Oracle -> Scalar * Oracle;
  setDebugLvl_ifc : nat -> Oracle -> Oracle
}.

(** [StepLimits]: declared in [StepLimits.h], taken as an interface. *)
Class StepLimitsOps (StepLimits : Type) : Type := {
  setLimit : StepLimitType -> Scalar -> StepLimits -> StepLimits;
  getLowestLimitSignedVal : StepLimits -> Scalar;
  getLowestLimitVal : StepLimits -> Scalar;
  getStepSign : StepLimits -> Scalar
}.

(** Particle data ([TDatabasePDG] behind [getParticleMass] and
    [getParticleCharge]) and the electron mass [me_] of the header. *)
Class ParticleData : Type := {
  getParticleMass : Z -> Scalar;
  getParticleCharge : Z -> Z;
  me_ : Scalar
}.

(** ** The [MaterialEffects] object *)

Section Object.

Context {Oracle : Type}.

Record MaterialEffects : Type := mkMaterialEffects {
  noEffects_ : bool;
  energyLossBetheBloch_ : bool;
  noiseBetheBloch_ : bool;
  noiseCoulomb_ : bool;
  energyLossBrems_ : bool;
  noiseBrems_ : bool;
  ignoreBoundariesBetweenEqualMaterials_ : bool;
  stepSize_ : Scalar;
  dEdx_ : Scalar;
  E_ : Scalar;
  matDensity_ : Scalar;
  matZ_ : Scalar;
  matA_ : Scalar;
  radiationLength_ : Scalar;
  mEE_ : Scalar;
  mscModelCode_ : Z;
  materialInterface_ : option Oracle;
  debugLvl_ : nat
}.

(** The constructor's initial values. *)
Definition MaterialEffects_new : MaterialEffects :=
  {| noEffects_ := false;
     energyLossBetheBloch_ := true; noiseBetheBloch_ := true;
     noiseCoulomb_ := true;
     energyLossBrems_ := true; noiseBrems_ := true;
     ignoreBoundariesBetweenEqualMaterials_ := true;
     stepSize_ := 0; dEdx_ := 0; E_ := 0;
     matDensity_ := 0; matZ_ := 0; matA_ := 0;
     radiationLength_ := 0; mEE_ := 0;
     mscModelCode_ := 0%Z;
     materialInterface_ := None;
     debugLvl_ := O |}.

(** Field assignments. *)
Definition set_noEffects_ (v : bool) (s : MaterialEffects) : MaterialEffects :=
  mkMaterialEffects v (energyLossBetheBloch_ s) (noiseBetheBloch_ s)
    (noiseCoulomb_ s) (energyLossBrems_ s) (noiseBrems_ s)
    (ignoreBoundariesBetweenEqualMaterials_ s)
    (stepSize_ s) (dEdx_ s) (E_ s)
    (matDensity_ s) (matZ_ s) (matA_ s) (radiationLength_ s) (mEE_ s)
    (mscModelCode_ s) (materialInterface_ s) (debugLvl_ s).

Definition set_stepSize_ (v : Scalar) (s : MaterialEffects) : MaterialEffects :=
  mkMaterialEffects (noEffects_ s) (energyLossBetheBloch_ s) (noiseBetheBloch_ s)
    (noiseCoulomb_ s) (energyLossBrems_ s) (noiseBrems_ s)
    (ignoreBoundariesBetweenEqualMaterials_ s)
    v (dEdx_ s) (E_ s)
    (matDensity_ s) (matZ_ s) (matA_ s) (radiationLength_ s) (mEE_ s)
    (mscModelCode_ s) (materialInterface_ s) (debugLvl_ s).

Definition set_dEdx_ (v : Scalar) (s : MaterialEffects) : MaterialEffects :=
  mkMaterialEffects (noEffects_ s) (energyLossBetheBloch_ s) (noiseBetheBloch_ s)
    (noiseCoulomb_ s) (energyLossBrems_ s) (noiseBrems_ s)
    (ignoreBoundariesBetweenEqualMaterials_ s)
    (stepSize_ s) v (E_ s)
    (matDensity_ s) (matZ_ s) (matA_ s) (radiationLength_ s) (mEE_ s)
    (mscModelCode_ s) (materialInterface_ s) (debugLvl_ s).

Definition set_E_ (v : Scalar) (s : MaterialEffects) : MaterialEffects :=
  mkMaterialEffects (noEffects_ s) (energyLossBetheBloch_ s) (noiseBetheBloch_ s)
    (noiseCoulomb_ s) (energyLossBrems_ s) (noiseBrems_ s)
    (ignoreBoundariesBetweenEqualMaterials_ s)
    (stepSize_ s) (dEdx_ s) v
    (matDensity_ s) (matZ_ s) (matA_ s) (radiationLength_ s) (mEE_ s)
    (mscModelCode_ s) (materialInterface_ s) (debugLvl_ s).

(** [getMaterialProperties(matDensity_, matZ_, matA_, radiationLength_, mEE_)]:
    the five material fields are overwritten from a snapshot. *)
Definition set_material (m : MaterialProperties) (s : MaterialEffects)
  : MaterialEffects :=
  mkMaterialEffects (noEffects_ s) (energyLossBetheBloch_ s) (noiseBetheBloch_ s)
    (noiseCoulomb_ s) (energyLossBrems_ s) (noiseBrems_ s)
    (ignoreBoundariesBetweenEqualMaterials_ s)
    (stepSize_ s) (dEdx_ s) (E_ s)
    (density_ m) (Z_ m) (A_ m) (radiationLength_mp m) (mEE_mp m)
    (mscModelCode_ s) (materialInterface_ s) (debugLvl_ s).

Definition set_mscModelCode_ (v : Z) (s : MaterialEffects) : MaterialEffects :=
  mkMaterialEffects (noEffects_ s) (energyLossBetheBloch_ s) (noiseBetheBloch_ s)
    (noiseCoulomb_ s) (energyLossBrems_ s) (noiseBrems_ s)
    (ignoreBoundariesBetweenEqualMaterials_ s)
    (stepSize_ s) (dEdx_ s) (E_ s)
    (matDensity_ s) (matZ_ s) (matA_ s) (radiationLength_ s) (mEE_ s)
    v (materialInterface_ s) (debugLvl_ s).

Definition set_materialInterface_ (v : option Oracle) (s : MaterialEffects)
  : MaterialEffects :=
  mkMaterialEffects (noEffects_ s) (energyLossBetheBloch_ s) (noiseBetheBloch_ s)
    (noiseCoulomb_ s) (energyLossBrems_ s) (noiseBrems_ s)
    (ignoreBoundariesBetweenEqualMaterials_ s)
    (stepSize_ s) (dEdx_ s) (E_ s)
    (matDensity_ s) (matZ_ s) (matA_ s) (radiationLength_ s) (mEE_ s)
    (mscModelCode_ s) v (debugLvl_ s).

Definition set_debugLvl_ (v : nat) (s : MaterialEffects) : MaterialEffects :=
  mkMaterialEffects (noEffects_ s) (energyLossBetheBloch_ s) (noiseBetheBloch_ s)
    (noiseCoulomb_ s) (energyLossBrems_ s) (noiseBrems_ s)
    (ignoreBoundariesBetweenEqualMaterials_ s)
    (stepSize_ s) (dEdx_ s) (E_ s)
    (matDensity_ s) (matZ_ s) (matA_ s) (radiationLength_ s) (mEE_ s)
    (mscModelCode_ s) (materialInterface_ s) v.

(** ** Member functions that write the object: state and exceptions *)

Definition M (A : Type) : Type := MaterialEffects -> outcome A * MaterialEffects.

Definition ret {A} (a : A) : M A := fun s => (Ret a, s).
Definition throw {A} (e : exn) : M A := fun s => (Throw e, s).
Definition bind {A B} (m : M A) (k : A -> M B) : M B :=
  fun s => match m s with
           | (Ret a, s') => k a s'
           | (Throw e, s') => (Throw e, s')
           end.
Definition get : M MaterialEffects := fun s => (Ret s, s).
Definition modify (f : MaterialEffects -> MaterialEffects) : M unit :=
  fun s => (Ret tt, f s).
(** A [const] member function: it reads the object and may throw. *)
Definition lift {A} (f : MaterialEffects -> outcome A) : M A :=
  fun s => (f s, s).

End Object.

Arguments MaterialEffects Oracle : clear implicits.
Arguments M Oracle A : clear implicits.

Declare Scope me_scope.
Delimit Scope me_scope with me.
Notation "x <- m ;; k" := (bind m (fun x => k))
  (at level 61, m at next level, right associativity) : me_scope.
Notation "m ;;; k" := (bind m (fun _ => k))
  (at level 61, right associativity) : me_scope.

Local Open Scope me_scope.
Local Open Scope string_scope.

(** ** Configuration surface *)

Section Configuration.

Context {Oracle : Type} `{AbsMaterialInterface Oracle}.

(** [MaterialEffects::init].  When a handle is already installed the
    source builds a [std::runtime_error] object and lets it go out of
    scope; no [throw] statement follows.  Either way the assignment is
    executed.  The argument is a pointer, [None] being [nullptr]. *)
Definition init (matIfc : option Oracle) : M Oracle unit :=
  s <- get ;;
  (match materialInterface_ s with
   | Some _ =>
       let msg := "MaterialEffects::initMaterialInterface(): Already initialized! " in
       let err := runtime_error msg in
       ret tt
   | None => ret tt
   end) ;;;
  modify (set_materialInterface_ matIfc).

Definition dquote : string := String "034"%char EmptyString.

(** [MaterialEffects::setMscModel] *)
Definition setMscModel (modelName : string) : M Oracle unit :=
  if String.eqb modelName "GEANE" then
    modify (set_mscModelCode_ 0%Z)
  else if String.eqb modelName "Highland" then
    modify (set_mscModelCode_ 1%Z)
  else
    let errorMsg :=
      "There is no MSC model called " ++ dquote ++ modelName ++ dquote ++
      ". Maybe it is not implemented or you misspelled the model name" in
    throw (Exception errorMsg true).

(** [MaterialEffects::setDebugLvl] *)
Definition setDebugLvl (lvl : nat) : M Oracle unit :=
  modify (set_debugLvl_ lvl) ;;;
  s <- get ;;
  match materialInterface_ s with
  | Some o =>
      if Nat.ltb 1 (debugLvl_ s)
      then modify (set_materialInterface_
                     (Some (setDebugLvl_ifc (debugLvl_ s - 1) o)))
      else ret tt
  | None => ret tt
  end.

End Configuration.

(** ** Energy loss *)

(** The constants of [dEdxBrems] (the build without [BETHE], which is the
    one with the Migdal correction). *)
Module Brems.

Definition C : list Scalar := [
    0.0; -0.960613e-01; 0.631029e-01; -0.142819e-01; 0.150437e-02;
    -0.733286e-04; 0.131404e-05; 0.859343e-01; -0.529023e-01; 0.131899e-01;
    -0.159201e-02; 0.926958e-04; -0.208439e-05; -0.684096e+01; 0.370364e+01;
    -0.786752e+00; 0.822670e-01; -0.424710e-02; 0.867980e-04; -0.200856e+01;
    0.129573e+01; -0.306533e+00; 0.343682e-01; -0.185931e-02; 0.392432e-04;
    0.127538e+01; -0.515705e+00; 0.820644e-01; -0.641997e-02; 0.245913e-03;
    -0.365789e-05; 0.115792e+00; -0.463143e-01; 0.725442e-02; -0.556266e-03;
    0.208049e-04; -0.300895e-06; -0.271082e-01; 0.173949e-01; -0.452531e-02;
    0.569405e-03; -0.344856e-04; 0.803964e-06; 0.419855e-02; -0.277188e-02;
    0.737658e-03; -0.939463e-04; 0.569748e-05; -0.131737e-06; -0.318752e-03;
    0.215144e-03; -0.579787e-04; 0.737972e-05; -0.441485e-06; 0.994726e-08;
    0.938233e-05; -0.651642e-05; 0.177303e-05; -0.224680e-06; 0.132080e-07;
    -0.288593e-09; -0.245667e-03; 0.833406e-04; -0.129217e-04; 0.915099e-06;
    -0.247179e-07; 0.147696e-03; -0.498793e-04; 0.402375e-05; 0.989281e-07;
    -0.133378e-07; -0.737702e-02; 0.333057e-02; -0.553141e-03; 0.402464e-04;
    -0.107977e-05; -0.641533e-02; 0.290113e-02; -0.477641e-03; 0.342008e-04;
    -0.900582e-06; 0.574303e-05; 0.908521e-04; -0.256900e-04; 0.239921e-05;
    -0.741271e-07; -0.341260e-04; 0.971711e-05; -0.172031e-06; -0.119455e-06;
    0.704166e-08; 0.341740e-05; -0.775867e-06; -0.653231e-07; 0.225605e-07;
    -0.114860e-08; -0.119391e-06; 0.194885e-07; 0.588959e-08; -0.127589e-08;
    0.608247e-10 ].

Definition xi : Scalar := 2.51.
Definition beta : Scalar := 0.99.
Definition vl : Scalar := 0.00004.
Definition THIGH : Scalar := 100.
Definition CHIGH : Scalar := 50.

(** One inner [for J] loop: [XX] restarts at 1 and is multiplied by [X]
    after each term ([S_] is the source's [S]); [K] is computed from the column [J]. *)
Definition row (cols : nat) (K : nat -> nat) (X YY : Scalar) (S_ : Scalar)
  : Scalar :=
  fst (fold_left
         (fun (acc : Scalar * Scalar) (J : nat) =>
            let '(S_, XX) := acc in
            (S_ + at_ C (K J) * XX * YY, XX * X))
         (seq 1 cols) (S_, 1)).

(** One outer [for I] loop over the rows [Is]: [YY] is multiplied by [Y]
    after each row and survives into the next loop. *)
Definition rows (Is : list nat) (cols : nat) (K : nat -> nat -> nat)
  (X Y : Scalar) (acc : Scalar * Scalar) : Scalar * Scalar :=
  fold_left
    (fun (acc : Scalar * Scalar) (I : nat) =>
       let '(S_, YY) := acc in
       (row cols (K I) X YY S_, YY * Y))
    Is acc.

End Brems.

Section EnergyLoss.

Context {Oracle : Type} `{ParticleData}.

(** [MaterialEffects::dEdxBetheBloch] *)
Definition dEdxBetheBloch (s : MaterialEffects Oracle)
  (betaSquare gamma gammaSquare mass : Scalar) (charge : Z) : outcome Scalar :=
  let betaGammaMin := 0.05 in
  if Rlt_dec (betaSquare * gammaSquare) (betaGammaMin * betaGammaMin) then
    Throw (Exception
      "MaterialEffects::dEdxBetheBloch ==> beta*gamma < 0.05, Bethe-Bloch implementation not valid anymore!"
      true)
  else
    let result := 0.307075 * matZ_ s / matA_ s * matDensity_ s / betaSquare
                  * IZR charge * IZR charge in
    let massRatio := me_ / mass in
    let argument := gammaSquare * betaSquare * me_ * 1e3 * 2
                    / ((1e-6 * mEE_ s)
                       * sqrt (1 + 2 * gamma * massRatio + massRatio * massRatio)) in
    let result := result * (ln argument - betaSquare) in
    let result := result * 1e-3 in
    let result := if Rlt_dec result 0 then 0 else result in
    Ret result.

(** [MaterialEffects::dEdxBrems] *)
Definition dEdxBrems (s : MaterialEffects Oracle) (mom : Scalar) (pdg : Z) : Scalar :=
  if negb (Z.eqb (Z.abs pdg) 11) then 0 else
  let BCUT := 10000 in
  let '(dedxBrems, BCUT) :=
    if Rlt_dec 0 BCUT then
      let BCUT := if Rlt_dec mom BCUT then mom else BCUT in
      let '(T, kc) :=
        if Rlt_dec Brems.THIGH mom then
          (Brems.THIGH, if Rle_dec Brems.THIGH BCUT then Brems.CHIGH else BCUT)
        else (mom, BCUT) in
      let E := T + me_ in
      let kc := if Rlt_dec T BCUT then T else kc in
      let X := ln (T / me_) in
      let Y := ln (kc / (E * Brems.vl)) in
      let acc := Brems.rows [1; 2]%nat 6 (fun I J => 6 * I + J - 6)%nat
                   X Y (0, 1) in
      let acc := Brems.rows [3; 4; 5; 6]%nat 6
                   (fun I J => if Rlt_dec 0 Y then 6 * I + J - 6 + 24
                               else 6 * I + J - 6)%nat
                   X Y acc in
      let S_ := fst acc in
      let acc := Brems.rows [1; 2]%nat 5 (fun I J => 5 * I + J + 55)%nat
                   X Y (0, 1) in
      let acc := Brems.rows [3; 4; 5]%nat 5
                   (fun I J => if Rlt_dec 0 Y then 5 * I + J + 55 + 15
                               else 5 * I + J + 55)%nat
                   X Y acc in
      let SS := fst acc in
      let S_ := S_ + matZ_ s * SS in
      if Rlt_dec 0 S_ then
        let CORR := 1 / (1 + 0.805485e-10 * matDensity_ s * matZ_ s * E * E
                             / (matA_ s * kc * kc)) in
        let FAC := matZ_ s * (matZ_ s + Brems.xi) * E * E / (E + me_) in
        let FAC := if Req_dec_T Brems.beta 1
                   then FAC * (kc * CORR / T)
                   else FAC * exp (Brems.beta * ln (kc * CORR / T)) in
        if Rle_dec FAC 0 then (0, BCUT)  (* return 0.: rejoined below *)
        else
          let dedxBrems := FAC * S_ in
          let dedxBrems :=
            if Rle_dec Brems.THIGH mom then
              let S_ :=
                if Rlt_dec BCUT Brems.THIGH then
                  let RAT := BCUT / mom in
                  let S_ := 1 - 0.5 * RAT + 2 * RAT * RAT / 9 in
                  let RAT := BCUT / T in
                  S_ / (1 - 0.5 * RAT + 2 * RAT * RAT / 9)
                else
                  let RAT := BCUT / mom in
                  let S_ := BCUT * (1 - 0.5 * RAT + 2 * RAT * RAT / 9) in
                  let RAT := kc / T in
                  S_ / (kc * (1 - 0.5 * RAT + 2 * RAT * RAT / 9)) in
              dedxBrems * S_
            else dedxBrems in
          (dedxBrems * (0.60221367 * matDensity_ s / matA_ s), BCUT)
      else (0, BCUT)
    else (0, BCUT) in
  let dedxBrems := if Rlt_dec dedxBrems 0 then 0 else dedxBrems in
  let factor :=
    if Z.eqb pdg (-11) then
      let AA := 7522100 in
      let A1 := 0.415 in
      let A3 := 0.0021 in
      let A5 := 0.00054 in
      let ETA :=
        if Rlt_dec 0 (matZ_ s) then
          let X := ln (AA * mom / (matZ_ s * matZ_ s)) in
          if Rlt_dec (-8) X then
            if Rle_dec 9 X then 1
            else
              let W := A1 * X + A3 * X ^ 3 + A5 * X ^ 5 in
              0.5 + atan W / PI
          else 0
        else 0 in
      if Rlt_dec ETA 0.0001 then 1e-10
      else if Rlt_dec 0.9999 ETA then 1
      else
        let E0 := BCUT / mom in
        let E0 := if Rlt_dec 1 E0 then 1 else E0 in
        if Rlt_dec E0 1e-8 then 1
        else ETA * (1 - c_pow (1 - E0) (1 / ETA)) / E0
    else 1 in
  factor * dedxBrems.

(** [MaterialEffects::dEdx] *)
Definition dEdx (s : MaterialEffects Oracle) (energy mass : Scalar) (charge : Z) (pdg : Z)
  : outcome Scalar :=
  if Rle_dec energy mass then
    Throw (Exception "MaterialEffects::dEdx - Energy <= mass" true)
  else
    let gamma := energy / mass in
    let gammaSquare := gamma * gamma in
    let betaSquare := 1 - 1 / gammaSquare in
    let mom := energy * sqrt betaSquare in
    let result := 0 in
    match
      (if energyLossBetheBloch_ s
       then match dEdxBetheBloch s betaSquare gamma gammaSquare mass charge with
            | Ret v => Ret (result + v)
            | Throw e => Throw e
            end
       else Ret result)
    with
    | Throw e => Throw e
    | Ret result =>
        let result := if energyLossBrems_ s
                      then result + dEdxBrems s mom pdg
                      else result in
        Ret result
    end.

(** [MaterialEffects::momentumLoss].  It uses [stepSize_] and leaves the
    mean loss rate in [dEdx_] and the mid-step energy in [E_]. *)
Definition momentumLoss (stepSign mom : Scalar) (linear : bool) (pdg : Z)
  : M Oracle Scalar :=
  let mass := getParticleMass pdg in
  let charge := getParticleCharge pdg in
  let E0 := hypot mom mass in
  s0 <- get ;;
  let step := stepSize_ s0 * stepSign in
  dEdx1 <- lift (fun s => dEdx s E0 mass charge pdg) ;;
  (if linear then
     modify (set_dEdx_ dEdx1)
   else
     let E1 := E0 - dEdx1 * step / 2 in
     dEdx2 <- lift (fun s => dEdx s E1 mass charge pdg) ;;
     let E2 := E0 - dEdx2 * step / 2 in
     dEdx3 <- lift (fun s => dEdx s E2 mass charge pdg) ;;
     let E3 := E0 - dEdx3 * step in
     dEdx4 <- lift (fun s => dEdx s E3 mass charge pdg) ;;
     modify (set_dEdx_ ((dEdx1 + 2 * dEdx2 + 2 * dEdx3 + dEdx4) / 6))) ;;;
  s1 <- get ;;
  modify (set_E_ (E0 - dEdx_ s1 * step * 0.5)) ;;;
  let dE := step * dEdx_ s1 in
  if Rle_dec (E0 - dE) mass then
    ret mom
  else
    ret (mom - sqrt ((E0 - dE) ^ 2 - mass * mass)).

End EnergyLoss.

(** ** Process noise *)

Section Noise.

Context {Oracle : Type} `{ParticleData}.

(** [MaterialEffects::noiseBetheBloch] is given in pieces, in the order
    of the source: the scale [zeta] and the largest single-collision
    transfer [Emax]; the parameters of the Urban model; the width
    [sigmaalpha] of the truncated Landau distribution; and the value added
    to [noise[6 * 7 + 6]]. *)

(** [zeta], in eV. *)
Definition straggling_zeta (s : MaterialEffects Oracle)
  (betaSquare : Scalar) (pdg : Z) : Scalar :=
  let charge := getParticleCharge pdg in
  153.4e3 * IZR charge * IZR charge / betaSquare
  * matZ_ s / matA_ s * matDensity_ s * Rabs (stepSize_ s).

(** [Emax], in eV. *)
Definition straggling_Emax (betaSquare gamma gammaSquare : Scalar) (pdg : Z)
  : Scalar :=
  let mass := getParticleMass pdg in
  2e9 * me_ * betaSquare * gammaSquare
  / (1 + 2 * gamma * me_ / mass + (me_ / mass) * (me_ / mass)).

(** The locals of the Urban/Landau branch that both of its sub-branches
    read. *)
Record UrbanLocals : Type := mkUrbanLocals {
  ul_I : Scalar;
  ul_e1 : Scalar;
  ul_e2 : Scalar;
  ul_Sigma1 : Scalar;
  ul_Sigma2 : Scalar;
  ul_Sigma3 : Scalar
}.

Definition straggling_Urban_locals (s : MaterialEffects Oracle)
  (betaSquare gammaSquare Emax : Scalar) (pdg : Z) : UrbanLocals :=
  let mass := getParticleMass pdg in
  let I := 16 * c_pow (matZ_ s) 0.9 in
  let f2 := 0 in
  let f2 := if Rlt_dec 2 (matZ_ s) then 2 / matZ_ s else f2 in
  let f1 := 1 - f2 in
  let e2 := 10 * matZ_ s * matZ_ s in
  let e1 := c_pow (I / c_pow e2 f2) (1 / f1) in
  let mbbgg2 := 2e9 * mass * betaSquare * gammaSquare in
  let Sigma1 := dEdx_ s * 1.0e9 * f1 / e1 * (ln (mbbgg2 / e1) - betaSquare)
                / (ln (mbbgg2 / I) - betaSquare) * 0.6 in
  let Sigma2 := dEdx_ s * 1.0e9 * f2 / e2 * (ln (mbbgg2 / e2) - betaSquare)
                / (ln (mbbgg2 / I) - betaSquare) * 0.6 in
  let Sigma3 := dEdx_ s * 1.0e9 * Emax
                / (I * (Emax + I) * ln ((Emax + I) / I)) * 0.4 in
  mkUrbanLocals I e1 e2 Sigma1 Sigma2 Sigma3.

(** [Nc], the number of collisions. *)
Definition straggling_Nc (s : MaterialEffects Oracle) (u : UrbanLocals)
  : Scalar :=
  (ul_Sigma1 u + ul_Sigma2 u + ul_Sigma3 u) * Rabs (stepSize_ s).

(** [RLAMAX] as a function of [RLAMED]. *)
Definition Landau_RLAMAX (RLAMED : Scalar) : Scalar :=
  0.60715 + 1.1934 * RLAMED
  + (0.67794 + 0.052382 * RLAMED) * exp (0.94753 + 0.74442 * RLAMED).

(** [sigmaalpha] of the truncated Landau distribution, after its cut. *)
Definition Landau_sigmaalpha (betaSquare zeta Emax : Scalar) : Scalar :=
  let sigmaalpha := 15.76 in
  let RLAMED := - 0.422784 - betaSquare - ln (zeta / Emax) in
  let RLAMAX := Landau_RLAMAX RLAMED in
  let sigmaalpha :=
    if Rle_dec RLAMAX 1010 then
      1.975560
      + 9.898841e-02 * RLAMAX
      - 2.828670e-04 * RLAMAX * RLAMAX
      + 5.345406e-07 * RLAMAX ^ 3
      - 4.942035e-10 * RLAMAX ^ 4
      + 1.729807e-13 * RLAMAX ^ 5
    else 1.871887e+01 + 1.296254e-02 * RLAMAX in
  if Rlt_dec 54.6 sigmaalpha then 54.6 else sigmaalpha.

(** The energy-loss variance [sigma2E], in eV^2. *)
Definition straggling_sigma2E (s : MaterialEffects Oracle)
  (betaSquare gamma gammaSquare : Scalar) (pdg : Z) : Scalar :=
  let sigma2E := 0 in
  let zeta := straggling_zeta s betaSquare pdg in
  let Emax := straggling_Emax betaSquare gamma gammaSquare pdg in
  let kappa := zeta / Emax in
  if Rlt_dec 0.01 kappa then
    sigma2E + zeta * Emax * (1 - betaSquare / 2)
  else
    let u := straggling_Urban_locals s betaSquare gammaSquare Emax pdg in
    let Nc := straggling_Nc s u in
    if Rlt_dec 50 Nc then
      let sigmaalpha := Landau_sigmaalpha betaSquare zeta Emax in
      sigma2E + sigmaalpha * sigmaalpha * zeta * zeta
    else
      let alpha := 0.996 in
      let Ealpha := ul_I u / (1 - (alpha * Emax / (Emax + ul_I u))) in
      let meanE32 := ul_I u * (Emax + ul_I u) / Emax * (Ealpha - ul_I u) in
      sigma2E + Rabs (stepSize_ s)
                * (ul_Sigma1 u * ul_e1 u * ul_e1 u
                   + ul_Sigma2 u * ul_e2 u * ul_e2 u
                   + ul_Sigma3 u * meanE32).

(** The value added to [noise[6 * 7 + 6]]: [sigma2E] in GeV^2, carried
    from the energy to charge over momentum. *)
Definition noiseBetheBloch_increment (s : MaterialEffects Oracle)
  (mom betaSquare gamma gammaSquare : Scalar) (pdg : Z) : Scalar :=
  let charge := getParticleCharge pdg in
  let sigma2E := straggling_sigma2E s betaSquare gamma gammaSquare pdg in
  let sigma2E := sigma2E * 1e-18 in
  IZR (charge * charge) / betaSquare / mom ^ 4 * sigma2E.

(** [MaterialEffects::noiseBetheBloch] *)
Definition noiseBetheBloch (s : MaterialEffects Oracle) (noise : M7x7)
  (mom betaSquare gamma gammaSquare : Scalar) (pdg : Z) : M7x7 :=
  upd noise (6 * 7 + 6)
    (at_ noise (6 * 7 + 6)
     + noiseBetheBloch_increment s mom betaSquare gamma gammaSquare pdg).

(** The multiple-scattering variance [sigma2] of
    [MaterialEffects::noiseCoulomb], after its floor at zero. *)
Definition noiseCoulomb_sigma2 (s : MaterialEffects Oracle)
  (momSquare betaSquare : Scalar) (pdg : Z) : Scalar :=
  let charge := getParticleCharge pdg in
  let sigma2 := 0 in
  let step := Rabs (stepSize_ s) in
  let sigma2 :=
    if Z.eqb (mscModelCode_ s) 0 then
      225e-6 * IZR charge * IZR charge / (betaSquare * momSquare)
      * step / radiationLength_ s * matZ_ s / (matZ_ s + 1)
      * ln (159 * c_pow (matZ_ s) (- 1 / 3))
      / ln (287 * c_pow (matZ_ s) (- 0.5))
    else if Z.eqb (mscModelCode_ s) 1 then
      let stepOverRadLength := step / radiationLength_ s in
      let logCor := 1 + 0.038 * ln stepOverRadLength in
      0.0136 * 0.0136 * IZR charge * IZR charge / (betaSquare * momSquare)
      * stepOverRadLength * logCor * logCor
    else sigma2 in
  if Rlt_dec 0.0 sigma2 then sigma2 else 0.0.

(** The matrix [noiseAfter] of [MaterialEffects::noiseCoulomb]: zero-filled,
    then written cell by cell in the order of the source; a cell that is
    copied reads what was stored before. *)
Definition noiseCoulomb_noiseAfter (sigma2 step : Scalar) (direction : M1x3)
  : M7x7 :=
  let step2 := step * step in
  let noiseAfter := zeros 49 in
  let a := direction in
  let noiseAfter := upd noiseAfter (0 * 7 + 0) (sigma2 * step2 / 3.0 * (1 - at_ a 0 * at_ a 0)) in
  let noiseAfter := upd noiseAfter (1 * 7 + 0) (- sigma2 * step2 / 3.0 * at_ a 0 * at_ a 1) in
  let noiseAfter := upd noiseAfter (2 * 7 + 0) (- sigma2 * step2 / 3.0 * at_ a 0 * at_ a 2) in
  let noiseAfter := upd noiseAfter (3 * 7 + 0) (sigma2 * step * 0.5 * (1 - at_ a 0 * at_ a 0)) in
  let noiseAfter := upd noiseAfter (4 * 7 + 0) (- sigma2 * step * 0.5 * at_ a 0 * at_ a 1) in
  let noiseAfter := upd noiseAfter (5 * 7 + 0) (- sigma2 * step * 0.5 * at_ a 0 * at_ a 1) in
  let noiseAfter := upd noiseAfter (0 * 7 + 1) (at_ noiseAfter (1 * 7 + 0)) in
  let noiseAfter := upd noiseAfter (1 * 7 + 1) (sigma2 * step2 / 3.0 * (1 - at_ a 1 * at_ a 1)) in
  let noiseAfter := upd noiseAfter (2 * 7 + 1) (- sigma2 * step2 / 3.0 * at_ a 1 * at_ a 2) in
  let noiseAfter := upd noiseAfter (3 * 7 + 1) (at_ noiseAfter (4 * 7 + 0)) in (* Cov(x,a_y) = Cov(y,a_x) *)
  let noiseAfter := upd noiseAfter (4 * 7 + 1) (sigma2 * step * 0.5 * (1 - at_ a 1 * at_ a 1)) in
  let noiseAfter := upd noiseAfter (5 * 7 + 1) (- sigma2 * step * 0.5 * at_ a 1 * at_ a 2) in
  let noiseAfter := upd noiseAfter (0 * 7 + 2) (at_ noiseAfter (2 * 7 + 0)) in
  let noiseAfter := upd noiseAfter (1 * 7 + 2) (at_ noiseAfter (2 * 7 + 1)) in
  let noiseAfter := upd noiseAfter (2 * 7 + 2) (sigma2 * step2 / 3.0 * (1 - at_ a 2 * at_ a 2)) in
  let noiseAfter := upd noiseAfter (3 * 7 + 2) (at_ noiseAfter (5 * 7 + 0)) in (* Cov(z,a_x) = Cov(x,a_z) *)
  let noiseAfter := upd noiseAfter (4 * 7 + 2) (at_ noiseAfter (5 * 7 + 1)) in (* Cov(y,a_z) = Cov(z,a_y) *)
  let noiseAfter := upd noiseAfter (5 * 7 + 2) (sigma2 * step * 0.5 * (1 - at_ a 2 * at_ a 2)) in
  let noiseAfter := upd noiseAfter (0 * 7 + 3) (at_ noiseAfter (3 * 7 + 0)) in
  let noiseAfter := upd noiseAfter (1 * 7 + 3) (at_ noiseAfter (3 * 7 + 1)) in
  let noiseAfter := upd noiseAfter (2 * 7 + 3) (at_ noiseAfter (3 * 7 + 2)) in
  let noiseAfter := upd noiseAfter (3 * 7 + 3) (sigma2 * (1 - at_ a 0 * at_ a 0)) in
  let noiseAfter := upd noiseAfter (4 * 7 + 3) (- sigma2 * at_ a 0 * at_ a 1) in
  let noiseAfter := upd noiseAfter (5 * 7 + 3) (- sigma2 * at_ a 0 * at_ a 2) in
  let noiseAfter := upd noiseAfter (0 * 7 + 4) (at_ noiseAfter (4 * 7 + 0)) in
  let noiseAfter := upd noiseAfter (1 * 7 + 4) (at_ noiseAfter (4 * 7 + 1)) in
  let noiseAfter := upd noiseAfter (2 * 7 + 4) (at_ noiseAfter (4 * 7 + 2)) in
  let noiseAfter := upd noiseAfter (3 * 7 + 4) (at_ noiseAfter (4 * 7 + 3)) in
  let noiseAfter := upd noiseAfter (4 * 7 + 4) (sigma2 * (1 - at_ a 1 * at_ a 1)) in
  let noiseAfter := upd noiseAfter (5 * 7 + 4) (- sigma2 * at_ a 1 * at_ a 2) in
  let noiseAfter := upd noiseAfter (0 * 7 + 5) (at_ noiseAfter (5 * 7 + 0)) in
  let noiseAfter := upd noiseAfter (1 * 7 + 5) (at_ noiseAfter (5 * 7 + 1)) in
  let noiseAfter := upd noiseAfter (2 * 7 + 5) (at_ noiseAfter (5 * 7 + 2)) in
  let noiseAfter := upd noiseAfter (3 * 7 + 5) (at_ noiseAfter (5 * 7 + 3)) in
  let noiseAfter := upd noiseAfter (4 * 7 + 5) (at_ noiseAfter (5 * 7 + 4)) in
  let noiseAfter := upd noiseAfter (5 * 7 + 5) (sigma2 * (1 - at_ a 2 * at_ a 2)) in
  noiseAfter.

(** [for (i = 0; i < 7 * 7; ++i) noise[i] += noiseAfter[i];] *)
Definition add_into (noise noiseAfter : M7x7) : M7x7 :=
  fold_left (fun (noise : M7x7) (i : nat) =>
               upd noise i (at_ noise i + at_ noiseAfter i))
            (seq 0 (7 * 7)) noise.

(** [MaterialEffects::noiseCoulomb] *)
Definition noiseCoulomb (s : MaterialEffects Oracle) (noise : M7x7)
  (direction : M1x3) (momSquare betaSquare : Scalar) (pdg : Z)
  : outcome M7x7 :=
  if negb (Z.eqb (mscModelCode_ s) 0 || Z.eqb (mscModelCode_ s) 1) then
    Throw assertion_failure
  else
    let sigma2 := noiseCoulomb_sigma2 s momSquare betaSquare pdg in
    let step := Rabs (stepSize_ s) in
    Ret (add_into noise (noiseCoulomb_noiseAfter sigma2 step direction)).

(** The value [MaterialEffects::noiseBrems] adds to [noise[6 * 7 + 6]]
    for an electron or positron. *)
Definition noiseBrems_increment (s : MaterialEffects Oracle)
  (momSquare betaSquare : Scalar) (pdg : Z) : Scalar :=
  let charge := getParticleCharge pdg in
  let minusXOverLn2 := - 1.442695 * Rabs (stepSize_ s) / radiationLength_ s in
  let sigma2E := 1.44 * (c_pow 3 minusXOverLn2 - c_pow 4 minusXOverLn2)
                 * momSquare in
  let sigma2E := Rmax sigma2E 0.0 in
  IZR (charge * charge) / betaSquare / momSquare ^ 2 * sigma2E.

(** [MaterialEffects::noiseBrems] *)
Definition noiseBrems (s : MaterialEffects Oracle) (noise : M7x7)
  (momSquare betaSquare : Scalar) (pdg : Z) : M7x7 :=
  if negb (Z.eqb (Z.abs pdg) 11) then noise
  else
    upd noise (6 * 7 + 6)
      (at_ noise (6 * 7 + 6) + noiseBrems_increment s momSquare betaSquare pdg).

End Noise.

(** ** The segment-effects entry point *)

Section Effects.

Context {Oracle : Type} `{ParticleData}.

(** The sub-steps [steps.begin() + materialsFXStart] up to, and not
    including, [steps.begin() + materialsFXStop].  The source walks an
    iterator and is only defined for [0 <= start <= stop <= size]. *)
Definition steps_range (steps : list RKStep)
  (materialsFXStart materialsFXStop : Z) : list RKStep :=
  firstn (Z.to_nat (materialsFXStop - materialsFXStart))
         (skipn (Z.to_nat materialsFXStart) steps).

(** One turn of the loop over the sub-steps: [momLoss] and the matrix
    behind [noise] ([None] is [nullptr]) before and after.  When the body
    throws, the caller's matrix keeps what was added so far; the model
    does not report that partial matrix. *)
Definition effects_step (mom : Scalar) (pdg : Z) (mass : Scalar) (it : RKStep)
  (acc : Scalar * option M7x7) : M Oracle (Scalar * option M7x7) :=
  let '(momLoss, noise) := acc in
  let realPath := MatStep.stepSize_ (matStep_ it) in
  if Rlt_dec (Rabs realPath) 1e-8 then
    ret (momLoss, noise)
  else
    let stepSign := 1 in
    let stepSign := if Rlt_dec realPath 0 then - 1 else stepSign in
    let realPath := Rabs realPath in
    modify (set_stepSize_ realPath) ;;;
    modify (set_material (MatStep.materialProperties_ (matStep_ it))) ;;;
    s <- get ;;
    if Rlt_dec 1e-3 (matZ_ s) then
      dp <- momentumLoss stepSign (mom - momLoss) false pdg ;;
      let momLoss := momLoss + dp in
      match noise with
      | None => ret (momLoss, None)
      | Some noise =>
          s <- get ;;
          if Rle_dec (E_ s) mass then
            throw (Exception "MaterialEffects::effects - Energy <= mass" true)
          else
            let gamma := E_ s / mass in
            let gammaSquare := gamma * gamma in
            let betaSquare := 1 - 1 / gammaSquare in
            let p := E_ s * sqrt betaSquare in
            let pSquare := p * p in
            let noise :=
              if energyLossBetheBloch_ s && noiseBetheBloch_ s
              then noiseBetheBloch s noise p betaSquare gamma gammaSquare pdg
              else noise in
            noise <- (if noiseCoulomb_ s
                      then lift (fun s => noiseCoulomb s noise
                                            (skipn 3 (state7_ it))
                                            pSquare betaSquare pdg)
                      else ret noise) ;;
            let noise :=
              if energyLossBrems_ s && noiseBrems_ s
              then noiseBrems s noise pSquare betaSquare pdg
              else noise in
            ret (momLoss, Some noise)
      end
    else
      ret (momLoss, noise).

Fixpoint effects_loop (mom : Scalar) (pdg : Z) (mass : Scalar)
  (its : list RKStep) (acc : Scalar * option M7x7)
  : M Oracle (Scalar * option M7x7) :=
  match its with
  | [] => ret acc
  | it :: rest =>
      acc' <- effects_step mom pdg mass it acc ;;
      effects_loop mom pdg mass rest acc'
  end.

(** [MaterialEffects::effects]: the momentum loss over the sub-steps and
    the matrix behind [noise] afterwards. *)
Definition effects (steps : list RKStep)
  (materialsFXStart materialsFXStop : Z) (mom : Scalar) (pdg : Z)
  (noise : option M7x7) : M Oracle (Scalar * option M7x7) :=
  s <- get ;;
  if noEffects_ s then ret (0, noise)
  else
    match materialInterface_ s with
    | None =>
        throw (runtime_error
          "MaterialEffects hasn't been initialized with a correct AbsMaterialInterface pointer!")
    | Some _ =>
        let momLoss := 0 in
        let mass := getParticleMass pdg in
        r <- effects_loop mom pdg mass
               (steps_range steps materialsFXStart materialsFXStop)
               (momLoss, noise) ;;
        let '(momLoss, noise) := r in
        if Rge_dec momLoss mom then
          throw (Exception
            "MaterialEffects::effects ==> momLoss >= momentum, aborting extrapolation!"
            true)
        else ret (momLoss, noise)
    end.

End Effects.

(** ** The step limiter *)

(** [operator==] on [MaterialProperties]: comparison by value. *)
Definition MaterialProperties_eq_dec (a b : MaterialProperties)
  : {a = b} + {a <> b}.
Proof. decide equality; apply Req_dec_T. Defined.

(** What the step limiter asks of the oracle, in order. *)
Inductive OracleCall : Type :=
| call_initTrack (x y z dx dy dz : Scalar)
| call_getMaterialParameters
| call_findNextBoundary (state7 : M1x7) (sMax : Scalar) (varField : bool).

Section Stepper.

Context {Oracle : Type} `{AbsMaterialInterface Oracle} `{ParticleData}.
Context {StepLimits : Type} `{StepLimitsOps StepLimits}.

(** The arguments [stepper] takes by reference, and the calls made to
    the oracle so far. *)
Record StepperFrame : Type := mkStepperFrame {
  state7 : M1x7;
  relMomLoss : Scalar;
  currentMaterial : MaterialProperties;
  limits : StepLimits;
  oracleCalls : list OracleCall
}.

(** [state7[k] += sign * minStep * state7[k + 3]] for [k = 0, 1, 2]. *)
Definition make_minStep (sign minStep : Scalar) (state7 : M1x7) : M1x7 :=
  let state7 := upd state7 0 (at_ state7 0 + sign * minStep * at_ state7 3) in
  let state7 := upd state7 1 (at_ state7 1 + sign * minStep * at_ state7 4) in
  let state7 := upd state7 2 (at_ state7 2 + sign * minStep * at_ state7 5) in
  state7.

(** [materialInterface_->initTrack(state7[0..2], sign * state7[3..5])]
    followed by [getMaterialParameters]. *)
Definition probe (sign : Scalar) (state7 : M1x7) (o : Oracle)
  (calls : list OracleCall) : MaterialProperties * Oracle * list OracleCall :=
  let x := at_ state7 0 in
  let y := at_ state7 1 in
  let z := at_ state7 2 in
  let dx := sign * at_ state7 3 in
  let dy := sign * at_ state7 4 in
  let dz := sign * at_ state7 5 in
  let o := initTrack x y z dx dy dz o in
  (getMaterialParameters o, o,
   (calls ++ [call_initTrack x y z dx dy dz; call_getMaterialParameters])%list).

(** The local variables of the boundary search that outlive a turn. *)
Record BoundarySearch : Type := mkBoundarySearch {
  bs_state7 : M1x7;
  bs_stepSize_ : Scalar;
  bs_boundaryStep : Scalar;
  bs_oracle : Oracle;
  bs_calls : list OracleCall
}.

(** [for (i = 0; i < 100; ++i)]: the counter is the number of turns left. *)
Fixpoint boundary_search (turns : nat) (rep : RKTrackRep) (varField : bool)
  (ignoreBoundaries : bool) (sign minStep sMax : Scalar)
  (currentMaterial : MaterialProperties) (b : BoundarySearch)
  : BoundarySearch :=
  match turns with
  | O => b
  | S turns =>
      let '(step, o) := findNextBoundary rep (bs_state7 b) (bs_boundaryStep b)
                          varField (bs_oracle b) in
      let calls := (bs_calls b ++
                    [call_findNextBoundary (bs_state7 b) (bs_boundaryStep b)
                       varField])%list in
      let stepSize := bs_stepSize_ b + step in
      let boundaryStep := bs_boundaryStep b - step in
      if negb ignoreBoundaries then
        mkBoundarySearch (bs_state7 b) stepSize boundaryStep o calls
      else if Rge_dec (Rabs stepSize) (Rabs sMax) then
        mkBoundarySearch (bs_state7 b) stepSize boundaryStep o calls
      else
        let state7 := RKPropagate rep (bs_state7 b) step varField in
        let state7 := make_minStep sign minStep state7 in
        let '(materialAfter, o, calls) := probe sign state7 o calls in
        let b := mkBoundarySearch state7 stepSize boundaryStep o calls in
        if MaterialProperties_eq_dec materialAfter currentMaterial then
          boundary_search turns rep varField ignoreBoundaries sign minStep sMax
            currentMaterial b
        else b
  end.

(** [MaterialEffects::stepper].  The result is the outcome, the
    by-reference arguments afterwards and the object afterwards.  In a
    vacuum-like material the momentum-loss limit is a quotient by zero,
    which the source evaluates to an infinite limit; that value is outside
    the real-number model and nothing below depends on it. *)
Definition stepper (rep : RKTrackRep) (mom : Scalar) (pdg : Z)
  (varField : bool) (f : StepperFrame) (s : MaterialEffects Oracle)
  : outcome unit * StepperFrame * MaterialEffects Oracle :=
  let maxRelMomLoss := 0.01 in
  let Pmin := 4e-3 in
  let minStep := 1e-4 in
  if Rlt_dec mom Pmin then
    (Throw (Exception "MaterialEffects::stepper ==> momentum too low: " true),
     f, s)
  else if noEffects_ s then (Ret tt, f, s)
  else
    match materialInterface_ s with
    | None =>
        (Throw (runtime_error
           "MaterialEffects hasn't been initialized with a correct AbsMaterialInterface pointer!"),
         f, s)
    | Some o =>
        if Rlt_dec maxRelMomLoss (relMomLoss f) then
          (Ret tt,
           mkStepperFrame (state7 f) (relMomLoss f) (currentMaterial f)
             (setLimit stp_momLoss 0 (limits f)) (oracleCalls f),
           s)
        else
          let sMax := getLowestLimitSignedVal (limits f) in
          if Rlt_dec (Rabs sMax) minStep then (Ret tt, f, s)
          else
            let sign := getStepSign (limits f) in
            let st7 := make_minStep sign minStep (state7 f) in
            let '(m, o, calls) := probe sign st7 o (oracleCalls f) in
            let s := set_material m (set_materialInterface_ (Some o) s) in
            let cur := mkMaterialProperties (matDensity_ s) (matZ_ s) (matA_ s)
                         (radiationLength_ s) (mEE_ s) in
            let relMomLossPer_cm := 0 in
            let s := set_stepSize_ 1 s in
            match
              (if Rlt_dec 1e-3 (matZ_ s)
               then match momentumLoss sign mom true pdg s with
                    | (Ret dp, s) => (Ret (dp / mom), s)
                    | (Throw e, s) => (Throw e, s)
                    end
               else (Ret relMomLossPer_cm, s))
            with
            | (Throw e, s) =>
                (Throw e,
                 mkStepperFrame st7 (relMomLoss f) cur (limits f) calls, s)
            | (Ret relMomLossPer_cm, s) =>
                let maxStepMomLoss :=
                  Rabs ((maxRelMomLoss - Rabs (relMomLoss f)) / relMomLossPer_cm) in
                let lim := setLimit stp_momLoss maxStepMomLoss (limits f) in
                let sMax := getLowestLimitSignedVal lim in
                let b := boundary_search 100 rep varField
                           (ignoreBoundariesBetweenEqualMaterials_ s)
                           sign minStep sMax cur
                           (mkBoundarySearch st7 (sign * minStep) sMax o calls) in
                let s := set_stepSize_ (bs_stepSize_ b)
                           (set_materialInterface_ (Some (bs_oracle b)) s) in
                let lim := setLimit stp_boundary (stepSize_ s) lim in
                (Ret tt,
                 mkStepperFrame (bs_state7 b)
                   (relMomLoss f + relMomLossPer_cm * getLowestLimitVal lim)
                   cur lim (bs_calls b),
                 s)
            end
    end.

End Stepper.

(** ** The singleton and its destruction *)

Section Singleton.

Context {Oracle : Type}.

(** [MaterialEffects::getInstance], on the static pointer [instance_]
    ([None] is [nullptr]): the pointer afterwards, which is also the one
    returned; the object it points to is created on first use. *)
Definition getInstance (instance_ : option (MaterialEffects Oracle))
  : option (MaterialEffects Oracle) :=
  match instance_ with
  | None => Some MaterialEffects_new
  | Some m => Some m
  end.

(** [MaterialEffects::~MaterialEffects]: the oracle objects deleted. *)
Definition destructor (s : MaterialEffects Oracle) : list Oracle :=
  match materialInterface_ s with
  | Some o => [o]
  | None => []
  end.

(** [MaterialEffects::destruct]: the oracle objects deleted and the
    static pointer afterwards. *)
Definition destruct_ (instance_ : option (MaterialEffects Oracle))
  : list Oracle * option (MaterialEffects Oracle) :=
  match instance_ with
  | Some m => (destructor m, None)
  | None => ([], None)
  end.

End Singleton.

(** ** The diagnostic plot of the loss rate *)

Definition set_energyLossBetheBloch_ {Oracle : Type} (v : bool)
  (s : MaterialEffects Oracle) : MaterialEffects Oracle :=
  mkMaterialEffects (noEffects_ s) v (noiseBetheBloch_ s)
    (noiseCoulomb_ s) (energyLossBrems_ s) (noiseBrems_ s)
    (ignoreBoundariesBetweenEqualMaterials_ s)
    (stepSize_ s) (dEdx_ s) (E_ s)
    (matDensity_ s) (matZ_ s) (matA_ s) (radiationLength_ s) (mEE_ s)
    (mscModelCode_ s) (materialInterface_ s) (debugLvl_ s).




Section Diagnostics.

Context {Oracle : Type} `{AbsMaterialInterface Oracle} `{ParticleData}.




End Diagnostics.

(** ** Counting the questions put to the oracle *)

Definition is_findNextBoundary (c : OracleCall) : bool :=
  match c with
  | call_findNextBoundary _ _ _ => true
  | _ => false
  end.

(** The number of [findNextBoundary] calls in a record of calls. *)
Definition boundary_queries (calls : list OracleCall) : nat :=
  List.length (filter is_findNextBoundary calls).

(** ** Configuration and scratch fields *)

(** The fields the configuration surface sets (switches, scattering
    model, oracle handle, debug level), as opposed to the scratch fields
    the computations overwrite (step length, mean rate, mid-step energy
    and the five material parameters). *)
Definition same_configuration {Oracle : Type}
  (s s' : MaterialEffects Oracle) : Prop :=
  noEffects_ s' = noEffects_ s /\
  energyLossBetheBloch_ s' = energyLossBetheBloch_ s /\
  noiseBetheBloch_ s' = noiseBetheBloch_ s /\
  noiseCoulomb_ s' = noiseCoulomb_ s /\
  energyLossBrems_ s' = energyLossBrems_ s /\
  noiseBrems_ s' = noiseBrems_ s /\
  ignoreBoundariesBetweenEqualMaterials_ s'
  = ignoreBoundariesBetweenEqualMaterials_ s /\
  mscModelCode_ s' = mscModelCode_ s /\
  materialInterface_ s' = materialInterface_ s /\
  debugLvl_ s' = debugLvl_ s.

(** The condition of the [assert] in [noiseCoulomb]. *)
Definition msc_ok {Oracle : Type} (s : MaterialEffects Oracle) : Prop :=
  mscModelCode_ s = 0%Z \/ mscModelCode_ s = 1%Z.

(** The material snapshot held in the five material fields. *)
Definition current_material {Oracle : Type} (s : MaterialEffects Oracle)
  : MaterialProperties :=
  mkMaterialProperties (matDensity_ s) (matZ_ s) (matA_ s)
    (radiationLength_ s) (mEE_ s).

(** The test of [effects] on a sub-step, [fabs(realPath) < 1.E-8]
    negated: the sub-steps that are not skipped. *)
Definition substantial (it : RKStep) : bool :=
  if Rlt_dec (Rabs (MatStep.stepSize_ (matStep_ it))) 1e-8 then false else true.

(** The last sub-step of a range that is not skipped, if any. *)
Definition last_substantial (its : list RKStep) : option RKStep :=
  fold_left (fun (acc : option RKStep) (it : RKStep) =>
               if substantial it then Some it else acc)
            its None.

(** The scratch fields hold the sub-step [it]: its length, unsigned, and
    its material. *)
Definition holds_substep {Oracle : Type} (it : RKStep)
  (s : MaterialEffects Oracle) : Prop :=
  stepSize_ s = Rabs (MatStep.stepSize_ (matStep_ it)) /\
  current_material s = MatStep.materialProperties_ (matStep_ it).

(** The exceptions of this file that stop an extrapolation for good:
    a [genfit::Exception] on which [setFatal] was called. *)
Definition fatal_Exception (e : exn) : Prop :=
  exists msg : string, e = Exception msg true.

(** The outcome of the loop of [effects] with [l0] added to the loss it
    returns. *)
Definition shift_loss {Oracle : Type} (l0 : Scalar)
  (r : outcome (Scalar * option M7x7) * MaterialEffects Oracle)
  : outcome (Scalar * option M7x7) * MaterialEffects Oracle :=
  match r with
  | (Ret (l, n), s) => (Ret (l0 + l, n), s)
  | (Throw e, s) => (Throw e, s)
  end.

(** ** Matrix properties *)

(** The quadratic form of the 6x6 position/direction block of a 7x7
    matrix at the vector [v]. *)
Definition quad_form6 (m : M7x7) (v : list Scalar) : Scalar :=
  fold_left (fun (acc : Scalar) (i : nat) =>
    fold_left (fun (acc : Scalar) (j : nat) =>
                 acc + at_ v i * at_ m (i * 7 + j) * at_ v j)
              (seq 0 6) acc)
    (seq 0 6) 0.

(** The quadratic form of the 3x3 block of a 7x7 matrix whose top left
    cell is [(r0, c0)], at the vector [v]. *)
Definition quad_form3 (m : M7x7) (r0 c0 : nat) (v : list Scalar) : Scalar :=
  fold_left (fun (acc : Scalar) (i : nat) =>
    fold_left (fun (acc : Scalar) (j : nat) =>
                 acc + at_ v i * at_ m ((r0 + i) * 7 + (c0 + j)) * at_ v j)
              (seq 0 3) acc)
    (seq 0 3) 0.

(** The product of row [r0 + i] of that block with the vector [v]. *)
Definition block_row3 (m : M7x7) (r0 c0 i : nat) (v : list Scalar) : Scalar :=
  fold_left (fun (acc : Scalar) (j : nat) =>
               acc + at_ m ((r0 + i) * 7 + (c0 + j)) * at_ v j)
            (seq 0 3) 0.

Definition symmetric6 (m : M7x7) : Prop :=
  forall i j : nat, (i < 6)%nat -> (j < 6)%nat ->
    at_ m (i * 7 + j) = at_ m (j * 7 + i).

Definition positive_semidefinite6 (m : M7x7) : Prop :=
  forall v : list Scalar, 0 <= quad_form6 m v.

(** The cells of row 6 and of column 6 of a 7x7 matrix. *)
Definition in_row_or_column_6 (k : nat) : Prop :=
  exists i : nat, (i < 7)%nat /\ (k = i * 7 + 6 \/ k = 6 * 7 + i)%nat.

(** ** Concrete collaborators for the worked examples *)

(** A particle table: proton, charged pion, electron and positron, with
    masses in GeV, and the electron mass of the header. *)
Definition example_particles : ParticleData :=
  {| getParticleMass := fun pdg =>
       if Z.eqb (Z.abs pdg) 2212 then 0.938272
       else if Z.eqb (Z.abs pdg) 211 then 0.13957
       else if Z.eqb (Z.abs pdg) 11 then 0.510998910e-3
       else 1;
     getParticleCharge := fun pdg =>
       if Z.eqb pdg 2212 then 1%Z
       else if Z.eqb pdg 211 then 1%Z
       else if Z.eqb pdg (-211) then (-1)%Z
       else if Z.eqb pdg 11 then (-1)%Z
       else if Z.eqb pdg (-11) then 1%Z
       else 0%Z;
     me_ := 0.510998910e-3 |}.

(** An oracle for an unbounded uniform medium: the object is the
    material itself, and no boundary is ever closer than asked for. *)
Definition uniform_medium : AbsMaterialInterface MaterialProperties :=
  {| initTrack := fun _ _ _ _ _ _ o => o;
     getMaterialParameters := fun o => o;
     findNextBoundary := fun _ _ sMax _ o => (sMax, o);
     setDebugLvl_ifc := fun _ o => o |}.

Definition silicon : MaterialProperties :=
  mkMaterialProperties 2.33 14 28.0855 9.37 173.

Definition liquid_hydrogen : MaterialProperties :=
  mkMaterialProperties 0.0708 1 1.008 890.4 21.8.

Definition vacuum : MaterialProperties :=
  mkMaterialProperties 0 0 0 0 0.

(** A set of step limits as a list of named magnitudes with a sign:
    [setLimit] records the magnitude under the name. *)
Record example_limits : Type := mk_example_limits {
  el_entries : list (StepLimitType * Scalar);
  el_sign : Scalar
}.

Definition example_lowest (l : example_limits) : Scalar :=
  fold_left (fun (acc : Scalar) (e : StepLimitType * Scalar) =>
               Rmin acc (snd e))
            (el_entries l) 99e99.

Definition example_limits_ops : StepLimitsOps example_limits :=
  {| setLimit := fun t v l =>
       mk_example_limits ((t, Rabs v) :: el_entries l) (el_sign l);
     getLowestLimitSignedVal := fun l => el_sign l * example_lowest l;
     getLowestLimitVal := example_lowest;
     getStepSign := el_sign |}.

(** ** Kinematics as the loss-rate evaluation derives them *)

(** [gamma], [betaSquare] as [dEdx] computes them from energy and mass,
    and the product [beta * gamma] the Bethe-Bloch guard is about. *)
Definition kin_gamma (energy mass : Scalar) : Scalar := energy / mass.

Definition kin_betaSquare (energy mass : Scalar) : Scalar :=
  1 - 1 / (kin_gamma energy mass * kin_gamma energy mass).

Definition betaGamma (energy mass : Scalar) : Scalar :=
  sqrt (kin_betaSquare energy mass) * kin_gamma energy mass.

(** The object after [init] with an unbounded medium of material [m], with
    [m] as the current material and [stepSize] as the current step. *)
Definition in_material (m : MaterialProperties) (stepSize : Scalar)
  : MaterialEffects MaterialProperties :=
  set_stepSize_ stepSize
    (set_material m (set_materialInterface_ (Some m) MaterialEffects_new)).

(** A track representation that leaves the state vector where it is. *)
Definition still_rep : RKTrackRep := mkRKTrackRep (fun state7 _ _ => state7).

(** A vacuum gap of 5 cm, and a state vector at the origin pointing
    along z. *)
Definition along_z : M1x7 := [0; 0; 0; 0; 0; 1; 1].

Definition vacuum_gap : RKStep := mkRKStep (MatStep.mk vacuum 5) along_z.

(** The by-reference arguments of a first call of [stepper]: at the
    origin along z, nothing lost so far, no limit set, forward. *)
Definition fresh_frame : @StepperFrame example_limits :=
  mkStepperFrame along_z 0 vacuum (mk_example_limits [] 1) [].

(** The object [stepper] hands to the loss estimate on a first call in
    silicon: unit step, material and oracle as read one [minStep] ahead. *)
Definition proton_probe : MaterialEffects MaterialProperties :=
  set_stepSize_ 1
    (set_material silicon
       (set_materialInterface_ (Some silicon) (in_material silicon 1))).

(** A slab of 19.7 cm of silicon, crossed along z. *)
Definition silicon_slab : RKStep :=
  mkRKStep (MatStep.mk silicon 19.7) along_z.

(** A layer of 1 cm of silicon, and a sub-step of a hundredth of a
    nanometre, which [effects] skips. *)
Definition silicon_layer : RKStep :=
  mkRKStep (MatStep.mk silicon 1) along_z.

Definition short_step : RKStep :=
  mkRKStep (MatStep.mk silicon 1e-9) along_z.

(** ** Lower bounds of the exponential by fixed-point arithmetic *)

(** [exp z] is at least [(1 + z / 2^n)^(2^n)].  With [z = zn / zd] the
    power is computed by [n] squarings on integers that stand for
    multiples of [1 / scale], every quotient rounded down. *)
Definition exp_lb_start (scale : Z) (n : nat) (zn zd : Z) : Z :=
  (scale * (2 ^ Z.of_nat n * zd + zn) / (2 ^ Z.of_nat n * zd))%Z.

Definition exp_lb_square (scale : Z) (a : Z) : Z := (a * a / scale)%Z.

Definition exp_lb (scale : Z) (n : nat) (zn zd : Z) : Z :=
  Nat.iter n (exp_lb_square scale) (exp_lb_start scale n zn zd).

(** The check behind a certificate: the side conditions hold and [c] is
    at most the computed integer. *)
Definition exp_lb_check (scale : Z) (n : nat) (zn zd c : Z) : bool :=
  ((0 <? scale)%Z && (0 <? zd)%Z
   && (0 <=? 2 ^ Z.of_nat n * zd + zn)%Z
   && (c <=? exp_lb scale n zn zd)%Z)%bool.

(** ** Polynomials with integer coefficients, and a check of positivity *)











(** ** The formulas of the straggling *)

(** Which of its four formulas [noiseBetheBloch] takes, by the tests
    [kappa > 0.01], [Nc > 50.] and [RLAMAX <= 1010.] of the source. *)
Inductive StragglingFormula : Type :=
| Vavilov_Gaussian
| Landau_polynomial
| Landau_line
| Urban_model.

Definition straggling_formula {Oracle : Type} `{ParticleData}
  (s : MaterialEffects Oracle) (betaSquare gamma gammaSquare : Scalar)
  (pdg : Z) : StragglingFormula :=
  let zeta := straggling_zeta s betaSquare pdg in
  let Emax := straggling_Emax betaSquare gamma gammaSquare pdg in
  let kappa := zeta / Emax in
  if Rlt_dec 0.01 kappa then Vavilov_Gaussian
  else
    let u := straggling_Urban_locals s betaSquare gammaSquare Emax pdg in
    let Nc := straggling_Nc s u in
    if Rlt_dec 50 Nc then
      let RLAMED := - 0.422784 - betaSquare - ln (zeta / Emax) in
      if Rle_dec (Landau_RLAMAX RLAMED) 1010 then Landau_polynomial
      else Landau_line
    else Urban_model.

(** The factor of [fabs(stepSize_)] in the Urban model:
    [Sigma1 * e1 * e1 + Sigma2 * e2 * e2 + Sigma3 * meanE32]. *)
Definition straggling_Urban_factor {Oracle : Type} `{ParticleData}
  (s : MaterialEffects Oracle) (betaSquare gamma gammaSquare : Scalar)
  (pdg : Z) : Scalar :=
  let Emax := straggling_Emax betaSquare gamma gammaSquare pdg in
  let u := straggling_Urban_locals s betaSquare gammaSquare Emax pdg in
  let alpha := 0.996 in
  let Ealpha := ul_I u / (1 - (alpha * Emax / (Emax + ul_I u))) in
  let meanE32 := ul_I u * (Emax + ul_I u) / Emax * (Ealpha - ul_I u) in
  ul_Sigma1 u * ul_e1 u * ul_e1 u
  + ul_Sigma2 u * ul_e2 u * ul_e2 u
  + ul_Sigma3 u * meanE32.





(** * Properties *)

(** ** Configuration *)

Section ConfigurationFacts.

Context {Oracle : Type} `{AbsMaterialInterface Oracle}.

Lemma setMscModel_GEANE (s : MaterialEffects Oracle) :
  setMscModel "GEANE" s = (Ret tt, set_mscModelCode_ 0%Z s).
Proof. reflexivity. Qed.

Lemma setMscModel_Highland (s : MaterialEffects Oracle) :
  setMscModel "Highland" s = (Ret tt, set_mscModelCode_ 1%Z s).
Proof. reflexivity. Qed.

Lemma setMscModel_other (modelName : string) (s : MaterialEffects Oracle) :
  modelName <> "GEANE" -> modelName <> "Highland" ->
  exists msg, setMscModel modelName s = (Throw (Exception msg true), s).
Proof.
  intros Hg Hh. unfold setMscModel.
  destruct (String.eqb_spec modelName "GEANE") as [E | _]; [contradiction |].
  destruct (String.eqb_spec modelName "Highland") as [E | _]; [contradiction |].
  eexists. reflexivity.
Qed.

(** C9. [setMscModel] accepts the two names ["GEANE"] and ["Highland"]
    (model codes 0 and 1) and nothing else: for every other name it throws
    a fatal [Exception], and the object, with it the model code selected
    before, is exactly as it was. *)
Theorem setMscModel_recognizes_exactly_two_names
  (modelName : string) (s : MaterialEffects Oracle) :
  (modelName = "GEANE" ->
     setMscModel modelName s = (Ret tt, set_mscModelCode_ 0%Z s)) /\
  (modelName = "Highland" ->
     setMscModel modelName s = (Ret tt, set_mscModelCode_ 1%Z s)) /\
  (modelName <> "GEANE" -> modelName <> "Highland" ->
     exists msg,
       setMscModel modelName s = (Throw (Exception msg true), s) /\
       mscModelCode_ (snd (setMscModel modelName s)) = mscModelCode_ s).
Proof.
  split; [| split].
  - intros ->. apply setMscModel_GEANE.
  - intros ->. apply setMscModel_Highland.
  - intros Hg Hh.
    destruct (setMscModel_other modelName s Hg Hh) as [msg E].
    exists msg. rewrite E. split; reflexivity.
Qed.

(** C2. A second [init] with another handle does not throw: the error
    object built in the guard is never thrown, the call returns normally
    and the second handle replaces the first. *)
Theorem init_twice_replaces_handle (h1 h2 : Oracle) (s : MaterialEffects Oracle) :
  (init (Some h1) ;;; init (Some h2)) s
  = (Ret tt, set_materialInterface_ (Some h2) s).
Proof.
  unfold init, bind, get, modify, ret. cbn.
  destruct (materialInterface_ s); reflexivity.
Qed.

End ConfigurationFacts.

(** On the two-material example: after [init] with the silicon medium, a
    second [init] with the hydrogen medium returns normally and the
    installed handle is the hydrogen one. *)
Lemma init_twice_example :
  silicon <> liquid_hydrogen /\
  (init (Some silicon) ;;; init (Some liquid_hydrogen)) MaterialEffects_new
  = (Ret tt, set_materialInterface_ (Some liquid_hydrogen) MaterialEffects_new).
Proof.
  split; [| reflexivity].
  intros E. apply (f_equal Z_) in E. unfold silicon, liquid_hydrogen in E.
  simpl in E. lra.
Qed.

Lemma setMscModel_recognizes_exactly_two_names_witness :
  exists msg,
    setMscModel (Oracle := MaterialProperties) "Unrecognized"
      (set_mscModelCode_ 1%Z MaterialEffects_new)
    = (Throw (Exception msg true), set_mscModelCode_ 1%Z MaterialEffects_new) /\
    mscModelCode_ (snd (setMscModel (Oracle := MaterialProperties) "Unrecognized"
                          (set_mscModelCode_ 1%Z MaterialEffects_new)))
    = 1%Z.
Proof.
  apply (setMscModel_recognizes_exactly_two_names (Oracle := MaterialProperties)
           "Unrecognized" (set_mscModelCode_ 1%Z MaterialEffects_new));
    discriminate.
Defined.

(** ** Energy loss *)

(** Order facts about quotients with a positive divisor. *)

Lemma lt_div (a b c : R) : 0 < c -> a * c < b -> a < b / c.
Proof.
  intros Hc H. apply (Rmult_lt_reg_r c); [assumption |].
  replace (b / c * c) with b by (field; lra). assumption.
Qed.

Lemma div_lt (a b c : R) : 0 < c -> a < b * c -> a / c < b.
Proof.
  intros Hc H. apply (Rmult_lt_reg_r c); [assumption |].
  replace (a / c * c) with a by (field; lra). assumption.
Qed.

Lemma le_div (a b c : R) : 0 < c -> a * c <= b -> a <= b / c.
Proof.
  intros Hc H. apply (Rmult_le_reg_r c); [assumption |].
  replace (b / c * c) with b by (field; lra). assumption.
Qed.

Lemma div_le (a b c : R) : 0 < c -> a <= b * c -> a / c <= b.
Proof.
  intros Hc H. apply (Rmult_le_reg_r c); [assumption |].
  replace (a / c * c) with a by (field; lra). assumption.
Qed.

Lemma kin_gamma_gt_1 energy mass : 0 < mass -> mass < energy -> 1 < kin_gamma energy mass.
Proof.
  intros Hm He. unfold kin_gamma. apply lt_div; lra.
Qed.

Lemma kin_betaSquare_range energy mass :
  0 < mass -> mass < energy ->
  0 < kin_betaSquare energy mass < 1.
Proof.
  intros Hm He. pose proof (kin_gamma_gt_1 energy mass Hm He) as Hg.
  unfold kin_betaSquare. set (g := kin_gamma energy mass) in *.
  assert (1 < g * g) by nra.
  assert (1 / (g * g) < 1) by (apply div_lt; lra).
  assert (0 < 1 / (g * g)) by (apply Rdiv_lt_0_compat; lra).
  lra.
Qed.

Lemma kin_betaSquare_gammaSquare energy mass :
  0 < mass -> mass < energy ->
  kin_betaSquare energy mass * (kin_gamma energy mass * kin_gamma energy mass)
  = kin_gamma energy mass * kin_gamma energy mass - 1.
Proof.
  intros Hm He. pose proof (kin_gamma_gt_1 energy mass Hm He) as Hg.
  unfold kin_betaSquare. field. lra.
Qed.

Lemma betaGamma_sqr energy mass :
  0 < mass -> mass < energy ->
  0 <= betaGamma energy mass /\
  betaGamma energy mass * betaGamma energy mass
  = kin_betaSquare energy mass * (kin_gamma energy mass * kin_gamma energy mass).
Proof.
  intros Hm He. pose proof (kin_gamma_gt_1 energy mass Hm He) as Hg.
  pose proof (kin_betaSquare_range energy mass Hm He) as Hb.
  unfold betaGamma.
  set (g := kin_gamma energy mass) in *.
  set (b := kin_betaSquare energy mass) in *.
  split.
  - apply Rmult_le_pos; [apply sqrt_pos | lra].
  - assert (Hs : sqrt b * sqrt b = b) by (apply sqrt_sqrt; lra). nra.
Qed.

Lemma betaGamma_lt_iff energy mass :
  0 < mass -> mass < energy ->
  (betaGamma energy mass < 0.05 <->
   kin_betaSquare energy mass * (kin_gamma energy mass * kin_gamma energy mass)
   < 0.05 * 0.05).
Proof.
  intros Hm He. destruct (betaGamma_sqr energy mass Hm He) as [H0 Hs].
  rewrite <- Hs. split; intros; nra.
Qed.

Lemma hypot_sqr (x y : Scalar) : hypot x y * hypot x y = x * x + y * y.
Proof. unfold hypot. apply sqrt_sqrt. nra. Qed.

Lemma hypot_gt (x m : Scalar) : x <> 0 -> 0 <= m -> m < hypot x m.
Proof.
  intros Hx Hm. pose proof (hypot_sqr x m) as Hs.
  assert (0 <= hypot x m) by (unfold hypot; apply sqrt_pos).
  assert (0 < x * x) by nra. nra.
Qed.

Lemma betaGamma_ge energy mass :
  0 < mass -> mass < energy ->
  0.05 * 0.05 <= energy / mass * (energy / mass) - 1 ->
  0.05 <= betaGamma energy mass.
Proof.
  intros Hm He Hb.
  destruct (Rlt_dec (betaGamma energy mass) 0.05) as [Hlt | Hge]; [| lra].
  apply (betaGamma_lt_iff energy mass Hm He) in Hlt.
  rewrite kin_betaSquare_gammaSquare in Hlt by assumption.
  unfold kin_gamma in Hlt. lra.
Qed.

Lemma betaGamma_lt energy mass :
  0 < mass -> mass < energy ->
  energy / mass * (energy / mass) - 1 < 0.05 * 0.05 ->
  betaGamma energy mass < 0.05.
Proof.
  intros Hm He Hb. apply (betaGamma_lt_iff energy mass Hm He).
  rewrite kin_betaSquare_gammaSquare by assumption.
  unfold kin_gamma. lra.
Qed.

(** At momentum [mom] the incoming energy [hypot mom mass] has
    [beta * gamma = mom / mass]. *)
Lemma betaGamma_hypot_ge (mom mass : Scalar) :
  0 < mass -> 0.05 * mass <= mom ->
  0.05 <= betaGamma (hypot mom mass) mass.
Proof.
  intros Hm Hmom.
  assert (Hlt : mass < hypot mom mass) by (apply hypot_gt; nra).
  apply betaGamma_ge; try assumption.
  replace (hypot mom mass / mass * (hypot mom mass / mass))
    with ((hypot mom mass * hypot mom mass) / (mass * mass))
    by (field; lra).
  rewrite hypot_sqr.
  replace ((mom * mom + mass * mass) / (mass * mass) - 1)
    with ((mom / mass) * (mom / mass)) by (field; lra).
  assert (0.05 <= mom / mass) by (apply le_div; lra).
  nra.
Qed.

Section EnergyLossFacts.

Context {Oracle : Type} `{ParticleData}.

Lemma dEdx_energy_le_mass (s : MaterialEffects Oracle) energy mass charge pdg :
  energy <= mass ->
  dEdx s energy mass charge pdg
  = Throw (Exception "MaterialEffects::dEdx - Energy <= mass" true).
Proof.
  intros Hle. unfold dEdx. destruct (Rle_dec energy mass); [reflexivity | contradiction].
Qed.

Lemma dEdxBetheBloch_below_floor (s : MaterialEffects Oracle) b2 g g2 mass charge :
  b2 * g2 < 0.05 * 0.05 ->
  exists msg, dEdxBetheBloch s b2 g g2 mass charge = Throw (Exception msg true).
Proof.
  intros Hlt. unfold dEdxBetheBloch.
  destruct (Rlt_dec (b2 * g2) (0.05 * 0.05)); [| contradiction].
  eexists; reflexivity.
Qed.

Lemma dEdxBetheBloch_above_floor (s : MaterialEffects Oracle) b2 g g2 mass charge :
  0.05 * 0.05 <= b2 * g2 ->
  exists r, dEdxBetheBloch s b2 g g2 mass charge = Ret r /\ 0 <= r.
Proof.
  intros Hge. unfold dEdxBetheBloch.
  destruct (Rlt_dec (b2 * g2) (0.05 * 0.05)); [lra |].
  eexists; split; [reflexivity |].
  match goal with |- 0 <= (if ?c then _ else _) => destruct c end; lra.
Qed.


Lemma dEdx_returns (s : MaterialEffects Oracle) energy mass charge pdg :
  0 < mass -> mass < energy ->
  (energyLossBetheBloch_ s = true -> 0.05 <= betaGamma energy mass) ->
  exists r, dEdx s energy mass charge pdg = Ret r.
Proof.
  intros Hm He Hbg. unfold dEdx.
  destruct (Rle_dec energy mass); [lra |].
  destruct (energyLossBetheBloch_ s) eqn:Ebb.
  - specialize (Hbg eq_refl).
    destruct (dEdxBetheBloch_above_floor s (kin_betaSquare energy mass)
                (kin_gamma energy mass)
                (kin_gamma energy mass * kin_gamma energy mass) mass charge)
      as [r [Er _]].
    { destruct (Rlt_dec (betaGamma energy mass) 0.05) as [Hlt | Hge]; [lra |].
      destruct (Rlt_dec (kin_betaSquare energy mass
                         * (kin_gamma energy mass * kin_gamma energy mass))
                        (0.05 * 0.05)) as [Hlt' | Hge']; [| lra].
      apply (betaGamma_lt_iff energy mass Hm He) in Hlt'. lra. }
    unfold kin_betaSquare, kin_gamma in Er. rewrite Er.
    eexists; reflexivity.
  - eexists; reflexivity.
Qed.

Lemma dEdx_below_floor (s : MaterialEffects Oracle) energy mass charge pdg :
  0 < mass -> mass < energy ->
  energyLossBetheBloch_ s = true ->
  betaGamma energy mass < 0.05 ->
  exists msg, dEdx s energy mass charge pdg = Throw (Exception msg true).
Proof.
  intros Hm He Ebb Hbg. unfold dEdx.
  destruct (Rle_dec energy mass); [lra |].
  rewrite Ebb.
  apply (betaGamma_lt_iff energy mass Hm He) in Hbg.
  destruct (dEdxBetheBloch_below_floor s (kin_betaSquare energy mass)
              (kin_gamma energy mass)
              (kin_gamma energy mass * kin_gamma energy mass) mass charge Hbg)
    as [msg Em].
  unfold kin_betaSquare, kin_gamma in Em. rewrite Em.
  exists msg; reflexivity.
Qed.

(** C5. [dEdx] throws a fatal [Exception] when the energy is at most the
    rest mass; with the Bethe-Bloch term enabled it throws a fatal
    [Exception] when [beta * gamma] is below 0.05 (in [dEdxBetheBloch],
    whose guard compares the squares); and for a massive particle with
    energy above the rest mass and [beta * gamma] at least 0.05 it returns
    a loss rate. *)
Theorem dEdx_validity_guards (s : MaterialEffects Oracle)
  (energy mass : Scalar) (charge pdg : Z) :
  (energy <= mass ->
     exists msg, dEdx s energy mass charge pdg = Throw (Exception msg true)) /\
  (forall betaSquare gamma gammaSquare : Scalar,
     betaSquare * gammaSquare < 0.05 * 0.05 ->
     exists msg,
       dEdxBetheBloch s betaSquare gamma gammaSquare mass charge
       = Throw (Exception msg true)) /\
  (0 < mass -> mass < energy -> energyLossBetheBloch_ s = true ->
   betaGamma energy mass < 0.05 ->
     exists msg, dEdx s energy mass charge pdg = Throw (Exception msg true)) /\
  (0 < mass -> mass < energy -> 0.05 <= betaGamma energy mass ->
     exists r, dEdx s energy mass charge pdg = Ret r).
Proof.
  repeat split.
  - intros Hle. eexists. apply dEdx_energy_le_mass; assumption.
  - intros b2 g g2 Hlt. apply dEdxBetheBloch_below_floor; assumption.
  - apply dEdx_below_floor.
  - intros Hm He Hbg. apply dEdx_returns; auto.
Qed.

(** What a normal return of [momentumLoss] fixes: the step length is kept,
    the mid-step energy is stored, and the result is one of the two
    branches on the energy left after the loss. *)
Lemma momentumLoss_inv (s s' : MaterialEffects Oracle)
  (stepSign mom : Scalar) (linear : bool) (pdg : Z) (loss : Scalar) :
  momentumLoss stepSign mom linear pdg s = (Ret loss, s') ->
  stepSize_ s' = stepSize_ s /\
  E_ s' = hypot mom (getParticleMass pdg)
          - dEdx_ s' * (stepSize_ s * stepSign) * 0.5 /\
  loss = (if Rle_dec (hypot mom (getParticleMass pdg)
                      - stepSize_ s * stepSign * dEdx_ s')
                     (getParticleMass pdg)
          then mom
          else mom - sqrt ((hypot mom (getParticleMass pdg)
                            - stepSize_ s * stepSign * dEdx_ s') ^ 2
                           - getParticleMass pdg * getParticleMass pdg)).
Proof.
  unfold momentumLoss, bind, lift, get, modify, ret.
  destruct (dEdx s _ _ _ pdg) as [d1 | e1]; [| discriminate].
  destruct linear.
  - match goal with
    | |- context [Rle_dec ?a ?b] => destruct (Rle_dec a b) as [Hc | Hc]
    end; intros E; injection E as <- <-;
      unfold set_E_, set_dEdx_; cbn [stepSize_ dEdx_ E_];
      (split; [reflexivity | split; [reflexivity |]]);
      match goal with
      | |- context [Rle_dec ?a ?b] => destruct (Rle_dec a b)
      end; try reflexivity; contradiction.
  - destruct (dEdx s _ _ _ pdg) as [d2 | e2]; [| discriminate].
    destruct (dEdx s _ _ _ pdg) as [d3 | e3]; [| discriminate].
    destruct (dEdx s _ _ _ pdg) as [d4 | e4]; [| discriminate].
    match goal with
    | |- context [Rle_dec ?a ?b] => destruct (Rle_dec a b) as [Hc | Hc]
    end; intros E; injection E as <- <-;
      unfold set_E_, set_dEdx_; cbn [stepSize_ dEdx_ E_];
      (split; [reflexivity | split; [reflexivity |]]);
      match goal with
      | |- context [Rle_dec ?a ?b] => destruct (Rle_dec a b)
      end; try reflexivity; contradiction.
Qed.

Lemma hypot_of_root (x m : Scalar) :
  0 <= m -> m < x ->
  0 < x ^ 2 - m * m /\ hypot (sqrt (x ^ 2 - m * m)) m = x.
Proof.
  intros Hm Hx.
  assert (Hpos : 0 < x ^ 2 - m * m) by nra.
  split; [assumption |].
  unfold hypot. rewrite sqrt_sqrt by lra.
  replace (x ^ 2 - m * m + m * m) with (x * x) by ring.
  apply sqrt_square. lra.
Qed.

Lemma hypot_zero (m : Scalar) : 0 <= m -> hypot 0 m = m.
Proof.
  intros Hm. unfold hypot.
  replace (0 * 0 + m * m) with (m * m) by ring.
  apply sqrt_square; assumption.
Qed.

(** C3. Whenever [momentumLoss] returns, with [E0] the incoming energy
    and [dE] the energy loss it computed: if [E0 - dE] is at most the rest
    mass, the result is exactly the incoming momentum; otherwise the
    radicand of the momentum left is positive, the momentum left is its
    root, and the energy left is [E0 - dE].  In both cases the energy that
    goes with the momentum left is [max (E0 - dE) mass], so the kinetic
    energy left is never negative. *)
Theorem momentumLoss_saturates_at_rest (s s' : MaterialEffects Oracle)
  (stepSign mom : Scalar) (linear : bool) (pdg : Z) (loss : Scalar) :
  0 <= getParticleMass pdg ->
  momentumLoss stepSign mom linear pdg s = (Ret loss, s') ->
  let mass := getParticleMass pdg in
  let E0 := hypot mom mass in
  let dE := stepSize_ s * stepSign * dEdx_ s' in
  (E0 - dE <= mass -> loss = mom) /\
  (mass < E0 - dE ->
     0 < (E0 - dE) ^ 2 - mass * mass /\
     mom - loss = sqrt ((E0 - dE) ^ 2 - mass * mass)) /\
  hypot (mom - loss) mass = Rmax (E0 - dE) mass /\
  0 <= hypot (mom - loss) mass - mass.
Proof.
  intros Hm Hret mass E0 dE.
  destruct (momentumLoss_inv s s' stepSign mom linear pdg loss Hret)
    as (_ & _ & Hloss).
  fold mass in Hloss. fold E0 in Hloss. fold dE in Hloss.
  destruct (Rle_dec (E0 - dE) mass) as [Hle | Hgt].
  - subst loss. replace (mom - mom) with 0 by ring.
    rewrite hypot_zero by assumption.
    split; [reflexivity | split; [intros; lra | split]].
    + rewrite Rmax_right; [reflexivity | assumption].
    + lra.
  - assert (Hlt : mass < E0 - dE) by lra.
    destruct (hypot_of_root (E0 - dE) mass Hm Hlt) as [Hpos Hhyp].
    assert (Hrest : mom - loss = sqrt ((E0 - dE) ^ 2 - mass * mass))
      by (subst loss; ring).
    rewrite Hrest, Hhyp.
    split; [intros; lra | split; [intros; split; [assumption | reflexivity] | split]].
    + rewrite Rmax_left; [reflexivity | lra].
    + lra.
Qed.

(** With the linear estimate, [momentumLoss] returns whenever the single
    loss-rate evaluation at the incoming energy is admissible. *)
Lemma momentumLoss_linear_returns (s : MaterialEffects Oracle)
  (stepSign mom : Scalar) (pdg : Z) :
  0 < getParticleMass pdg ->
  getParticleMass pdg < hypot mom (getParticleMass pdg) ->
  (energyLossBetheBloch_ s = true ->
   0.05 <= betaGamma (hypot mom (getParticleMass pdg)) (getParticleMass pdg)) ->
  exists loss dEdx1,
    dEdx s (hypot mom (getParticleMass pdg)) (getParticleMass pdg)
         (getParticleCharge pdg) pdg = Ret dEdx1 /\
    momentumLoss stepSign mom true pdg s
    = (Ret loss,
       set_E_ (hypot mom (getParticleMass pdg)
               - dEdx1 * (stepSize_ s * stepSign) * 0.5)
              (set_dEdx_ dEdx1 s)).
Proof.
  intros Hm He Hbg.
  destruct (dEdx_returns s _ _ (getParticleCharge pdg) pdg Hm He Hbg) as [d Ed].
  unfold momentumLoss, bind, lift, get, modify, ret. rewrite Ed. cbn.
  match goal with |- context [Rle_dec ?a ?b] => destruct (Rle_dec a b) end;
    eexists; exists d; (split; [reflexivity | reflexivity]).
Qed.

End EnergyLossFacts.

(** ** Flat arrays *)

(** Decimal literals are quotients of integers; [ring] and [field] only
    see that after the quotient is spelled out. *)
Ltac norm_decimals :=
  unfold Scalar in *; unfold Q2R;
  cbv [QArith_base.Qnum QArith_base.Qden
       Z.pow_pos Pos.iter Z.mul Pos.mul Pos.add Pos.succ].

Lemma upd_length (a : list Scalar) (i : nat) (v : Scalar) :
  List.length (upd a i v) = List.length a.
Proof.
  revert i; induction a as [| h t IH]; intros [| j]; simpl; auto.
Qed.

Lemma at_upd_same (a : list Scalar) (i : nat) (v : Scalar) :
  (i < List.length a)%nat -> at_ (upd a i v) i = v.
Proof.
  unfold at_. revert i; induction a as [| h t IH]; intros [| j] Hi; simpl in *;
    try lia; auto.
  apply IH. lia.
Qed.

Lemma at_upd_other (a : list Scalar) (i j : nat) (v : Scalar) :
  i <> j -> at_ (upd a i v) j = at_ a j.
Proof.
  unfold at_. revert i j; induction a as [| h t IH]; intros [| i] [| j] Hij;
    simpl; auto; try congruence.
Qed.

Lemma at_beyond (a : list Scalar) (k : nat) :
  (List.length a <= k)%nat -> at_ a k = 0.
Proof. intros Hk. unfold at_. apply nth_overflow. assumption. Qed.

(** A write past the end of the list leaves it as it is. *)
Lemma upd_beyond (a : list Scalar) (i : nat) (v : Scalar) :
  (List.length a <= i)%nat -> upd a i v = a.
Proof.
  revert i; induction a as [| h t IH]; intros [| j] Hi; simpl in *;
    try lia; auto.
  f_equal. apply IH. lia.
Qed.

(** Writing a cell never changes another cell. *)
Lemma upd_frame (a : list Scalar) (i : nat) (v : Scalar) :
  forall k : nat, k <> i -> at_ (upd a i v) k = at_ a k.
Proof. intros k Hk. apply at_upd_other. congruence. Qed.

(** The accumulation loop, for any range of cells: inside the range (and
    inside the array) a cell receives the sum, every other cell is kept. *)
Lemma add_loop_at (noiseAfter : M7x7) (n start : nat) (noise : M7x7) (k : nat) :
  at_ (fold_left (fun (noise : M7x7) (i : nat) =>
                    upd noise i (at_ noise i + at_ noiseAfter i))
                 (seq start n) noise) k
  = if ((start <=? k)%nat && (k <? start + n)%nat && (k <? List.length noise)%nat)%bool
    then at_ noise k + at_ noiseAfter k
    else at_ noise k.
Proof.
  revert start noise. induction n as [| n IH]; intros start noise.
  - simpl. destruct (Nat.leb_spec start k); simpl; [| reflexivity].
    destruct (Nat.ltb_spec k (start + 0)); simpl; [lia | reflexivity].
  - change (seq start (S n)) with (start :: seq (S start) n).
    cbn [fold_left]. rewrite IH. rewrite upd_length.
    replace (start + S n)%nat with (S start + n)%nat by lia.
    destruct (Nat.eq_dec k start) as [-> | Hne].
    + destruct (Nat.leb_spec (S start) start); [lia |].
      destruct (Nat.leb_spec start start); [| lia].
      destruct (Nat.ltb_spec start (S start + n)); [| lia].
      cbn [andb].
      destruct (Nat.ltb_spec start (List.length noise)).
      * apply at_upd_same. assumption.
      * rewrite upd_beyond by assumption. reflexivity.
    + rewrite at_upd_other by congruence.
      destruct (Nat.leb_spec (S start) k), (Nat.leb_spec start k); try lia;
        reflexivity.
Qed.

(** ** Process noise: which cells are written *)

Lemma add_into_at (noise noiseAfter : M7x7) (k : nat) :
  at_ (add_into noise noiseAfter) k
  = if ((k <? 49)%nat && (k <? List.length noise)%nat)%bool
    then at_ noise k + at_ noiseAfter k
    else at_ noise k.
Proof.
  unfold add_into. rewrite add_loop_at.
  change (7 * 7)%nat with 49%nat. change (0 + 49)%nat with 49%nat.
  change (0 <=? k)%nat with true. reflexivity.
Qed.

(** [noiseAfter] is zero on row 6 and column 6: those cells keep the
    zero of the initial fill. *)
Lemma noiseCoulomb_noiseAfter_row_column_6
  (sigma2 step : Scalar) (direction : M1x3) (k : nat) :
  in_row_or_column_6 k ->
  at_ (noiseCoulomb_noiseAfter sigma2 step direction) k = 0.
Proof.
  intros [i [Hi [-> | ->]]];
    destruct i as [| [| [| [| [| [| [| i]]]]]]]; try lia; reflexivity.
Qed.

Section NoiseFrame.

Context {Oracle : Type} `{ParticleData}.

Lemma noiseCoulomb_inv (s : MaterialEffects Oracle) (noise noise' : M7x7)
  (direction : M1x3) (momSquare betaSquare : Scalar) (pdg : Z) :
  noiseCoulomb s noise direction momSquare betaSquare pdg = Ret noise' ->
  noise' = add_into noise
             (noiseCoulomb_noiseAfter
                (noiseCoulomb_sigma2 s momSquare betaSquare pdg)
                (Rabs (stepSize_ s)) direction).
Proof.
  unfold noiseCoulomb.
  destruct (negb _); [discriminate |].
  intros E; injection E as <-. reflexivity.
Qed.

Lemma noiseCoulomb_returns (s : MaterialEffects Oracle) (noise : M7x7)
  (direction : M1x3) (momSquare betaSquare : Scalar) (pdg : Z) :
  mscModelCode_ s = 0%Z \/ mscModelCode_ s = 1%Z ->
  noiseCoulomb s noise direction momSquare betaSquare pdg
  = Ret (add_into noise
           (noiseCoulomb_noiseAfter
              (noiseCoulomb_sigma2 s momSquare betaSquare pdg)
              (Rabs (stepSize_ s)) direction)).
Proof.
  intros [E | E]; unfold noiseCoulomb; rewrite E; reflexivity.
Qed.

Lemma noiseCoulomb_keeps_row_column_6 (s : MaterialEffects Oracle)
  (noise noise' : M7x7) (direction : M1x3) (momSquare betaSquare : Scalar)
  (pdg : Z) (k : nat) :
  noiseCoulomb s noise direction momSquare betaSquare pdg = Ret noise' ->
  in_row_or_column_6 k ->
  at_ noise' k = at_ noise k.
Proof.
  intros Hret Hk. rewrite (noiseCoulomb_inv _ _ _ _ _ _ _ Hret).
  rewrite add_into_at.
  rewrite (noiseCoulomb_noiseAfter_row_column_6 _ _ _ k Hk).
  destruct (_ && _)%bool; [apply Rplus_0_r | reflexivity].
Qed.

Lemma noiseBetheBloch_frame (s : MaterialEffects Oracle) (noise : M7x7)
  (mom betaSquare gamma gammaSquare : Scalar) (pdg : Z) (k : nat) :
  k <> (6 * 7 + 6)%nat ->
  at_ (noiseBetheBloch s noise mom betaSquare gamma gammaSquare pdg) k
  = at_ noise k.
Proof. intros Hk. unfold noiseBetheBloch. apply upd_frame. assumption. Qed.

Lemma noiseBrems_frame (s : MaterialEffects Oracle) (noise : M7x7)
  (momSquare betaSquare : Scalar) (pdg : Z) (k : nat) :
  k <> (6 * 7 + 6)%nat ->
  at_ (noiseBrems s noise momSquare betaSquare pdg) k = at_ noise k.
Proof.
  intros Hk. unfold noiseBrems.
  destruct (negb _); [reflexivity | apply upd_frame; assumption].
Qed.

(** C10. Multiple scattering leaves row 6 and column 6 of the noise
    matrix as they were (13 cells, the increment being zero there);
    ionization straggling and radiative fluctuation change no cell other
    than (6,6), to which, in a 49-cell matrix, they add their increment
    (the radiative one only for electrons and positrons). *)
Theorem noise_updates_frame (s : MaterialEffects Oracle) (noise : M7x7) :
  (forall (direction : M1x3) (momSquare betaSquare : Scalar) (pdg : Z)
          (noise' : M7x7) (i : nat),
     noiseCoulomb s noise direction momSquare betaSquare pdg = Ret noise' ->
     (i < 7)%nat ->
     at_ noise' (i * 7 + 6) = at_ noise (i * 7 + 6) /\
     at_ noise' (6 * 7 + i) = at_ noise (6 * 7 + i) /\
     at_ (noiseCoulomb_noiseAfter
            (noiseCoulomb_sigma2 s momSquare betaSquare pdg)
            (Rabs (stepSize_ s)) direction) (i * 7 + 6) = 0 /\
     at_ (noiseCoulomb_noiseAfter
            (noiseCoulomb_sigma2 s momSquare betaSquare pdg)
            (Rabs (stepSize_ s)) direction) (6 * 7 + i) = 0) /\
  (forall (mom betaSquare gamma gammaSquare : Scalar) (pdg : Z),
     (forall k : nat, k <> (6 * 7 + 6)%nat ->
        at_ (noiseBetheBloch s noise mom betaSquare gamma gammaSquare pdg) k
        = at_ noise k) /\
     (List.length noise = 49%nat ->
        at_ (noiseBetheBloch s noise mom betaSquare gamma gammaSquare pdg)
            (6 * 7 + 6)
        = at_ noise (6 * 7 + 6)
          + noiseBetheBloch_increment s mom betaSquare gamma gammaSquare pdg)) /\
  (forall (momSquare betaSquare : Scalar) (pdg : Z),
     (forall k : nat, k <> (6 * 7 + 6)%nat ->
        at_ (noiseBrems s noise momSquare betaSquare pdg) k = at_ noise k) /\
     (List.length noise = 49%nat -> Z.abs pdg = 11%Z ->
        at_ (noiseBrems s noise momSquare betaSquare pdg) (6 * 7 + 6)
        = at_ noise (6 * 7 + 6)
          + noiseBrems_increment s momSquare betaSquare pdg)).
Proof.
  split; [| split].
  - intros direction momSquare betaSquare pdg noise' i Hret Hi.
    assert (Hc : in_row_or_column_6 (i * 7 + 6)) by (exists i; auto).
    assert (Hr : in_row_or_column_6 (6 * 7 + i)) by (exists i; auto).
    repeat split.
    + apply (noiseCoulomb_keeps_row_column_6 _ _ _ _ _ _ _ _ Hret Hc).
    + apply (noiseCoulomb_keeps_row_column_6 _ _ _ _ _ _ _ _ Hret Hr).
    + apply noiseCoulomb_noiseAfter_row_column_6; assumption.
    + apply noiseCoulomb_noiseAfter_row_column_6; assumption.
  - intros mom betaSquare gamma gammaSquare pdg. split.
    + intros k Hk. apply noiseBetheBloch_frame; assumption.
    + intros Hlen. unfold noiseBetheBloch. apply at_upd_same.
      rewrite Hlen. cbn. lia.
  - intros momSquare betaSquare pdg. split.
    + intros k Hk. apply noiseBrems_frame; assumption.
    + intros Hlen Hpdg. unfold noiseBrems. rewrite Hpdg. cbn [Z.eqb Pos.eqb negb].
      apply at_upd_same. rewrite Hlen. cbn. lia.
Qed.

End NoiseFrame.

(** ** Multiple scattering: the 6x6 block *)

Lemma quad_form6_ext (m m' : M7x7) (v : list Scalar) :
  (forall i j : nat, (i < 6)%nat -> (j < 6)%nat ->
     at_ m (i * 7 + j) = at_ m' (i * 7 + j)) ->
  quad_form6 m v = quad_form6 m' v.
Proof.
  intros Hext. unfold quad_form6. cbn [seq fold_left].
  rewrite !Hext by lia. reflexivity.
Qed.

(** The block written by [noiseCoulomb] is symmetric: every cell above
    the diagonal is a copy of its mirror image. *)
Lemma noiseCoulomb_noiseAfter_symmetric
  (sigma2 step : Scalar) (direction : M1x3) :
  symmetric6 (noiseCoulomb_noiseAfter sigma2 step direction).
Proof.
  intros i j Hi Hj.
  destruct i as [| [| [| [| [| [| i]]]]]]; try lia;
    destruct j as [| [| [| [| [| [| j]]]]]]; try lia; reflexivity.
Qed.

(** The position-direction cross terms agree under exchange of the two
    axes, as the comments of the source say. *)
Lemma noiseCoulomb_noiseAfter_cross_terms
  (sigma2 step : Scalar) (direction : M1x3) :
  let n := noiseCoulomb_noiseAfter sigma2 step direction in
  at_ n (3 * 7 + 1) = at_ n (4 * 7 + 0) /\
  at_ n (3 * 7 + 2) = at_ n (5 * 7 + 0) /\
  at_ n (4 * 7 + 2) = at_ n (5 * 7 + 1).
Proof. repeat split; reflexivity. Qed.

(** The cell (5,0), and with it (3,2), (0,5) and (2,3), holds the product
    of the first two direction components. *)
Lemma noiseCoulomb_noiseAfter_cell_5_0
  (sigma2 step : Scalar) (direction : M1x3) :
  at_ (noiseCoulomb_noiseAfter sigma2 step direction) (5 * 7 + 0)
  = - sigma2 * step * 0.5 * at_ direction 0 * at_ direction 1.
Proof. reflexivity. Qed.

(** The quadratic form at a vector whose position part is the direction
    [a] and whose direction part is [t * a]. *)
Lemma noiseCoulomb_noiseAfter_quad_along (sigma2 step a0 a1 a2 t : Scalar) :
  quad_form6 (noiseCoulomb_noiseAfter sigma2 step [a0; a1; a2])
             [a0; a1; a2; t * a0; t * a1; t * a2]
  = sigma2 * ((a0 * a0 + a1 * a1 + a2 * a2)
              * (1 - (a0 * a0 + a1 * a1 + a2 * a2)))
    * (step * step / 3 + t * step + t * t)
    + 2 * t * sigma2 * step * (a0 * a0 * a2 * (a2 - a1)).
Proof.
  cbv [quad_form6 noiseCoulomb_noiseAfter fold_left seq at_ nth upd zeros
       repeat Nat.mul Nat.add].
  norm_decimals. field.
Qed.

(** For a unit direction whose components make [a0^2 * a2 * (a2 - a1)]
    non-zero, a positive variance and a positive step, the block is not
    positive semi-definite. *)
Lemma noiseCoulomb_noiseAfter_not_psd (sigma2 step a0 a1 a2 : Scalar) :
  0 < sigma2 -> 0 < step ->
  a0 * a0 + a1 * a1 + a2 * a2 = 1 ->
  a0 * a0 * a2 * (a2 - a1) <> 0 ->
  exists v : list Scalar,
    quad_form6 (noiseCoulomb_noiseAfter sigma2 step [a0; a1; a2]) v < 0.
Proof.
  intros Hs Hstep Hunit Hne.
  assert (Hss : 0 < sigma2 * step) by (apply Rmult_lt_0_compat; assumption).
  destruct (Rlt_dec 0 (a0 * a0 * a2 * (a2 - a1))) as [Hpos | Hneg].
  - exists [a0; a1; a2; (-1) * a0; (-1) * a1; (-1) * a2].
    rewrite noiseCoulomb_noiseAfter_quad_along. rewrite Hunit.
    assert (0 < sigma2 * step * (a0 * a0 * a2 * (a2 - a1)))
      by (apply Rmult_lt_0_compat; assumption).
    lra.
  - exists [a0; a1; a2; 1 * a0; 1 * a1; 1 * a2].
    rewrite noiseCoulomb_noiseAfter_quad_along. rewrite Hunit.
    assert (0 < sigma2 * step * (- (a0 * a0 * a2 * (a2 - a1))))
      by (apply Rmult_lt_0_compat; [assumption | lra]).
    lra.
Qed.

(** Positivity of a product or quotient of positive factors. *)
Ltac positivity :=
  first [ assumption
        | lra
        | apply Rdiv_lt_0_compat; positivity
        | apply Rmult_lt_0_compat; positivity ].

(** The logarithms of the GEANE formula are positive for every atomic
    number between 1 and the scale inside the logarithm. *)
Lemma ln_scaled_pow_pos (c Z y : Scalar) :
  1 < c -> 1 <= Z -> Z <= c -> - 1 < y -> y <= 0 ->
  0 < ln (c * c_pow Z y).
Proof.
  intros Hc HZ HZc Hy Hy0. unfold c_pow.
  destruct (Rlt_dec 0 Z) as [_ | Hn]; [| lra].
  unfold Rpower. rewrite ln_mult by (try apply exp_pos; lra).
  rewrite ln_exp.
  assert (Hlc : 0 < ln c) by (rewrite <- ln_1; apply ln_increasing; lra).
  assert (HlZ : 0 <= ln Z).
  { destruct (Req_dec Z 1) as [-> | Hne]; [rewrite ln_1; lra |].
    left. rewrite <- ln_1. apply ln_increasing; lra. }
  assert (HlZc : ln Z <= ln c).
  { destruct (Req_dec Z c) as [-> | Hne]; [lra |].
    left. apply ln_increasing; lra. }
  nra.
Qed.

Section ScatteringVariance.

Context {Oracle : Type} `{ParticleData}.

Lemma noiseCoulomb_sigma2_GEANE_pos (s : MaterialEffects Oracle)
  (momSquare betaSquare : Scalar) (pdg : Z) :
  mscModelCode_ s = 0%Z ->
  getParticleCharge pdg <> 0%Z ->
  0 < betaSquare * momSquare ->
  stepSize_ s <> 0 -> 0 < radiationLength_ s ->
  1 <= matZ_ s <= 159 ->
  0 < noiseCoulomb_sigma2 s momSquare betaSquare pdg.
Proof.
  intros Hcode Hq Hbp Hstep HX0 [HZ1 HZ2].
  unfold noiseCoulomb_sigma2. rewrite Hcode. cbn [Z.eqb].
  assert (Hq' : IZR (getParticleCharge pdg) <> 0) by (apply not_0_IZR; assumption).
  assert (Hqq : 0 < 225e-6 * IZR (getParticleCharge pdg)
                    * IZR (getParticleCharge pdg)) by nra.
  assert (Hs : 0 < Rabs (stepSize_ s)) by (apply Rabs_pos_lt; assumption).
  assert (HL1 : 0 < ln (159 * c_pow (matZ_ s) (- 1 / 3)))
    by (apply ln_scaled_pow_pos; lra).
  assert (HL2 : 0 < ln (287 * c_pow (matZ_ s) (- 0.5)))
    by (apply ln_scaled_pow_pos; lra).
  match goal with
  | |- 0 < (if Rlt_dec 0.0 ?x then _ else _) =>
      assert (Hx : 0 < x);
      [| destruct (Rlt_dec 0.0 x); lra]
  end.
  positivity.
Qed.

Lemma noiseCoulomb_sigma2_Highland_pos (s : MaterialEffects Oracle)
  (momSquare betaSquare : Scalar) (pdg : Z) :
  mscModelCode_ s = 1%Z ->
  getParticleCharge pdg <> 0%Z ->
  0 < betaSquare * momSquare ->
  stepSize_ s <> 0 -> 0 < radiationLength_ s ->
  1 + 0.038 * ln (Rabs (stepSize_ s) / radiationLength_ s) <> 0 ->
  0 < noiseCoulomb_sigma2 s momSquare betaSquare pdg.
Proof.
  intros Hcode Hq Hbp Hstep HX0 Hlog.
  unfold noiseCoulomb_sigma2. rewrite Hcode. cbn [Z.eqb Pos.eqb].
  assert (Hq' : IZR (getParticleCharge pdg) <> 0) by (apply not_0_IZR; assumption).
  assert (Hqq : 0 < 0.0136 * 0.0136 * IZR (getParticleCharge pdg)
                    * IZR (getParticleCharge pdg)) by nra.
  assert (Hs : 0 < Rabs (stepSize_ s)) by (apply Rabs_pos_lt; assumption).
  set (logCor := 1 + 0.038 * ln (Rabs (stepSize_ s) / radiationLength_ s)) in *.
  match goal with
  | |- 0 < (if Rlt_dec 0.0 ?x then _ else _) =>
      assert (Hx : 0 < x);
      [| destruct (Rlt_dec 0.0 x); lra]
  end.
  match goal with
  | |- 0 < ?a * logCor * logCor =>
      assert (Ha : 0 < a) by positivity;
      assert (0 < logCor * logCor) by nra; nra
  end.
Qed.

End ScatteringVariance.

Lemma add_into_zeros_block (noiseAfter : M7x7) (i j : nat) :
  (i < 6)%nat -> (j < 6)%nat ->
  at_ (add_into (zeros 49) noiseAfter) (i * 7 + j) = at_ noiseAfter (i * 7 + j).
Proof.
  intros Hi Hj. rewrite add_into_at.
  unfold zeros at 1. rewrite repeat_length.
  destruct (Nat.ltb_spec (i * 7 + j) 49); [| lia]. cbn [andb].
  unfold zeros, at_. rewrite nth_repeat. apply Rplus_0_l.
Qed.

Lemma logCor_silicon_1cm : 1 + 0.038 * ln (Rabs 1 / 9.37) <> 0.
Proof.
  rewrite Rabs_R1.
  assert (Hln : - 8.37 < ln (1 / 9.37)).
  { replace (1 / 9.37) with (/ 9.37) by lra.
    rewrite ln_Rinv by lra.
    assert (ln 9.37 < 8.37); [| lra].
    rewrite <- (ln_exp 8.37). apply ln_increasing; [lra |].
    pose proof (exp_ineq1 8.37). lra. }
  lra.
Qed.

Lemma noiseCoulomb_block_not_psd_for (code : Z) :
  code = 0%Z \/ code = 1%Z ->
  exists noise' : M7x7,
    noiseCoulomb (H := example_particles)
      (set_mscModelCode_ code (in_material silicon 1))
      (zeros 49) [0.6; 0; 0.8] 1 0.5 2212
    = Ret noise' /\
    symmetric6 noise' /\
    quad_form6 noise' [0.6; 0; 0.8; - 0.6; 0; - 0.8] < 0 /\
    ~ positive_semidefinite6 noise'.
Proof.
  intros Hcode.
  set (s := set_mscModelCode_ code (in_material silicon 1)).
  set (sigma2 := noiseCoulomb_sigma2 (H := example_particles) s 1 0.5 2212).
  assert (Hsigma : 0 < sigma2).
  { destruct Hcode as [-> | ->].
    - apply (noiseCoulomb_sigma2_GEANE_pos (H := example_particles) s);
        try reflexivity; cbn; try lra; discriminate.
    - apply (noiseCoulomb_sigma2_Highland_pos (H := example_particles) s);
        try reflexivity; cbn; try lra; try discriminate.
      apply logCor_silicon_1cm. }
  exists (add_into (zeros 49) (noiseCoulomb_noiseAfter sigma2 (Rabs 1) [0.6; 0; 0.8])).
  assert (Hquad :
    quad_form6
      (add_into (zeros 49) (noiseCoulomb_noiseAfter sigma2 (Rabs 1) [0.6; 0; 0.8]))
      [0.6; 0; 0.8; - 0.6; 0; - 0.8] < 0).
  { rewrite (quad_form6_ext _ (noiseCoulomb_noiseAfter sigma2 (Rabs 1) [0.6; 0; 0.8]))
      by (intros; apply add_into_zeros_block; assumption).
    replace [0.6; 0; 0.8; - 0.6; 0; - 0.8]
      with [0.6; 0; 0.8; (-1) * 0.6; (-1) * 0; (-1) * 0.8]
      by (repeat (f_equal; try lra)).
    rewrite noiseCoulomb_noiseAfter_quad_along. rewrite Rabs_R1. nra. }
  split; [| split; [| split]].
  - apply (noiseCoulomb_returns (H := example_particles) s). exact Hcode.
  - intros i j Hi Hj. rewrite !add_into_zeros_block by assumption.
    apply noiseCoulomb_noiseAfter_symmetric; assumption.
  - exact Hquad.
  - intros Hpsd. specialize (Hpsd [0.6; 0; 0.8; - 0.6; 0; - 0.8]). lra.
Qed.

(** C1. For a proton (charge one) with momentum squared 1 and beta
    squared 0.5 crossing 1 cm of silicon along the unit direction
    (0.6, 0, 0.8), under the GEANE model (code 0) and under the Highland
    model (code 1) alike, [noiseCoulomb] returns; the block it adds to a
    zero matrix is symmetric, but its quadratic form at
    (0.6, 0, 0.8, -0.6, 0, -0.8) is negative, so the block is not positive
    semi-definite.  The cell (5,0) is written with [a[0]*a[1]] where the
    cells (2,0) and (5,3) have [a[0]*a[2]]. *)
Theorem noiseCoulomb_block_not_psd :
  (exists noise' : M7x7,
     noiseCoulomb (H := example_particles)
       (set_mscModelCode_ 0 (in_material silicon 1))
       (zeros 49) [0.6; 0; 0.8] 1 0.5 2212
     = Ret noise' /\
     symmetric6 noise' /\
     quad_form6 noise' [0.6; 0; 0.8; - 0.6; 0; - 0.8] < 0 /\
     ~ positive_semidefinite6 noise') /\
  (exists noise' : M7x7,
     noiseCoulomb (H := example_particles)
       (set_mscModelCode_ 1 (in_material silicon 1))
       (zeros 49) [0.6; 0; 0.8] 1 0.5 2212
     = Ret noise' /\
     symmetric6 noise' /\
     quad_form6 noise' [0.6; 0; 0.8; - 0.6; 0; - 0.8] < 0 /\
     ~ positive_semidefinite6 noise').
Proof.
  split; apply noiseCoulomb_block_not_psd_for; [left | right]; reflexivity.
Qed.

(** ** The segment-effects entry point *)

Section EffectsFacts.

Context {Oracle : Type} `{ParticleData}.

(** A sub-step through a vacuum-like material ([Z <= 1e-3]), of any
    length: the accumulated loss and the matrix come back as they went in;
    only the scratch fields for step and material are overwritten, and
    only when the step is not negligible. *)
Lemma effects_step_vacuum (s : MaterialEffects Oracle)
  (mom : Scalar) (pdg : Z) (mass : Scalar) (it : RKStep)
  (momLoss : Scalar) (noise : option M7x7) :
  Z_ (MatStep.materialProperties_ (matStep_ it)) <= 1e-3 ->
  effects_step mom pdg mass it (momLoss, noise) s
  = (Ret (momLoss, noise),
     if Rlt_dec (Rabs (MatStep.stepSize_ (matStep_ it))) 1e-8 then s
     else set_material (MatStep.materialProperties_ (matStep_ it))
            (set_stepSize_ (Rabs (MatStep.stepSize_ (matStep_ it))) s)).
Proof.
  intros HZ. unfold effects_step.
  destruct (Rlt_dec (Rabs (MatStep.stepSize_ (matStep_ it))) 1e-8);
    [reflexivity |].
  unfold bind, modify, get, ret. cbn [matZ_ set_material].
  destruct (Rlt_dec 1e-3 (Z_ (MatStep.materialProperties_ (matStep_ it))));
    [lra | reflexivity].
Qed.

(** C6. A sub-step whose material has [Z <= 1e-3] adds nothing to the
    momentum loss and returns the noise matrix it was given, whatever its
    step length and whether or not noise was requested. *)
Theorem effects_vacuum_substep_is_neutral (s : MaterialEffects Oracle)
  (mom : Scalar) (pdg : Z) (mass : Scalar) (it : RKStep)
  (momLoss : Scalar) (noise : option M7x7) :
  Z_ (MatStep.materialProperties_ (matStep_ it)) <= 1e-3 ->
  fst (effects_step mom pdg mass it (momLoss, noise) s) = Ret (momLoss, noise).
Proof.
  intros HZ. rewrite effects_step_vacuum by assumption. reflexivity.
Qed.

(** Over a range of vacuum-like sub-steps the loop returns what it was
    given. *)
Lemma effects_loop_vacuum (mom : Scalar) (pdg : Z) (mass : Scalar)
  (its : list RKStep) :
  Forall (fun it => Z_ (MatStep.materialProperties_ (matStep_ it)) <= 1e-3) its ->
  forall (s : MaterialEffects Oracle) (acc : Scalar * option M7x7),
    fst (effects_loop mom pdg mass its acc s) = Ret acc.
Proof.
  induction 1 as [| it its Hit _ IH]; intros s [momLoss noise].
  - reflexivity.
  - cbn [effects_loop]. unfold bind at 1.
    rewrite effects_step_vacuum by assumption. apply IH.
Qed.

Lemma effects_active (s : MaterialEffects Oracle) (steps : list RKStep)
  (materialsFXStart materialsFXStop : Z) (mom : Scalar) (pdg : Z)
  (noise : option M7x7) :
  noEffects_ s = false -> materialInterface_ s <> None ->
  effects steps materialsFXStart materialsFXStop mom pdg noise s
  = match effects_loop mom pdg (getParticleMass pdg)
            (steps_range steps materialsFXStart materialsFXStop) (0, noise) s
    with
    | (Ret (momLoss, noise'), s') =>
        if Rge_dec momLoss mom then
          (Throw (Exception
             "MaterialEffects::effects ==> momLoss >= momentum, aborting extrapolation!"
             true), s')
        else (Ret (momLoss, noise'), s')
    | (Throw e, s') => (Throw e, s')
    end.
Proof.
  intros Hno Hifc. unfold effects, bind at 1, get. rewrite Hno.
  destruct (materialInterface_ s) as [o |]; [| contradiction].
  unfold bind.
  destruct (effects_loop _ _ _ _ _ s) as [[[momLoss noise'] | e] s'];
    [| reflexivity].
  destruct (Rge_dec momLoss mom); reflexivity.
Qed.

Lemma effects_disabled (s : MaterialEffects Oracle) (steps : list RKStep)
  (materialsFXStart materialsFXStop : Z) (mom : Scalar) (pdg : Z)
  (noise : option M7x7) :
  noEffects_ s = true ->
  effects steps materialsFXStart materialsFXStop mom pdg noise s
  = (Ret (0, noise), s).
Proof.
  intros Hno. unfold effects, bind, get. rewrite Hno. reflexivity.
Qed.

Lemma effects_uninitialized (s : MaterialEffects Oracle) (steps : list RKStep)
  (materialsFXStart materialsFXStop : Z) (mom : Scalar) (pdg : Z)
  (noise : option M7x7) :
  noEffects_ s = false -> materialInterface_ s = None ->
  exists msg,
    effects steps materialsFXStart materialsFXStop mom pdg noise s
    = (Throw (runtime_error msg), s).
Proof.
  intros Hno Hifc. unfold effects, bind, get. rewrite Hno, Hifc.
  eexists; reflexivity.
Qed.

(** C4. Once the loop over the sub-steps has run (material effects
    enabled, oracle installed) and has accumulated a loss that meets or
    exceeds the starting momentum, [effects] throws a fatal [Exception].
    No call with a positive momentum ever returns a loss that reaches the
    momentum; and what a call with effects enabled returns is the loss the
    loop accumulated, untouched. *)
Theorem effects_fatal_when_loss_reaches_momentum (s : MaterialEffects Oracle)
  (steps : list RKStep) (materialsFXStart materialsFXStop : Z)
  (mom : Scalar) (pdg : Z) (noise : option M7x7) :
  (noEffects_ s = false -> materialInterface_ s <> None ->
   forall (momLoss : Scalar) (noise' : option M7x7) (s' : MaterialEffects Oracle),
     effects_loop mom pdg (getParticleMass pdg)
       (steps_range steps materialsFXStart materialsFXStop) (0, noise) s
     = (Ret (momLoss, noise'), s') ->
     momLoss >= mom ->
     exists msg,
       effects steps materialsFXStart materialsFXStop mom pdg noise s
       = (Throw (Exception msg true), s')) /\
  (0 < mom ->
   forall (r : Scalar * option M7x7) (s' : MaterialEffects Oracle),
     effects steps materialsFXStart materialsFXStop mom pdg noise s
     = (Ret r, s') ->
     fst r < mom) /\
  (noEffects_ s = false ->
   forall (r : Scalar * option M7x7) (s' : MaterialEffects Oracle),
     effects steps materialsFXStart materialsFXStop mom pdg noise s
     = (Ret r, s') ->
     effects_loop mom pdg (getParticleMass pdg)
       (steps_range steps materialsFXStart materialsFXStop) (0, noise) s
     = (Ret r, s')).
Proof.
  split; [| split].
  - intros Hno Hifc momLoss noise' s' Hloop Hge.
    rewrite effects_active by assumption. rewrite Hloop.
    destruct (Rge_dec momLoss mom); [| contradiction].
    eexists; reflexivity.
  - intros Hmom r s' Hret.
    destruct (noEffects_ s) eqn:Hno.
    + rewrite effects_disabled in Hret by assumption.
      injection Hret as <- _. cbn. assumption.
    + destruct (materialInterface_ s) as [o |] eqn:Hifc.
      * rewrite effects_active in Hret by (try assumption; congruence).
        destruct (effects_loop _ _ _ _ _ s) as [[[momLoss noise'] | e] s1];
          [| discriminate].
        destruct (Rge_dec momLoss mom) as [Hge | Hlt]; [discriminate |].
        injection Hret as <- _. cbn. lra.
      * destruct (effects_uninitialized s steps materialsFXStart
                    materialsFXStop mom pdg noise Hno Hifc) as [msg Hmsg].
        rewrite Hmsg in Hret. discriminate.
  - intros Hno r s' Hret.
    destruct (materialInterface_ s) as [o |] eqn:Hifc.
    + rewrite effects_active in Hret by (try assumption; congruence).
      destruct (effects_loop _ _ _ _ _ s) as [[[momLoss noise'] | e] s1];
        [| discriminate].
      destruct (Rge_dec momLoss mom) as [Hge | Hlt]; [discriminate |].
      exact Hret.
    + destruct (effects_uninitialized s steps materialsFXStart
                  materialsFXStop mom pdg noise Hno Hifc) as [msg Hmsg].
      rewrite Hmsg in Hret. discriminate.
Qed.

End EffectsFacts.

(** ** The step limiter *)

Section StepperFacts.

Context {Oracle : Type} `{AbsMaterialInterface Oracle} `{ParticleData}.
Context {StepLimits : Type} `{StepLimitsOps StepLimits}.

(** The three guards that precede the budget test. *)
Lemma stepper_momentum_too_low (rep : RKTrackRep) (mom : Scalar) (pdg : Z)
  (varField : bool) (f : StepperFrame) (s : MaterialEffects Oracle) :
  mom < 4e-3 ->
  exists msg,
    stepper rep mom pdg varField f s = (Throw (Exception msg true), f, s).
Proof.
  intros Hlow. unfold stepper.
  destruct (Rlt_dec mom 4e-3); [| contradiction]. eexists; reflexivity.
Qed.

Lemma stepper_no_effects (rep : RKTrackRep) (mom : Scalar) (pdg : Z)
  (varField : bool) (f : StepperFrame) (s : MaterialEffects Oracle) :
  4e-3 <= mom -> noEffects_ s = true ->
  stepper rep mom pdg varField f s = (Ret tt, f, s).
Proof.
  intros Hmom Hno. unfold stepper.
  destruct (Rlt_dec mom 4e-3); [lra |]. rewrite Hno. reflexivity.
Qed.

Lemma stepper_uninitialized (rep : RKTrackRep) (mom : Scalar) (pdg : Z)
  (varField : bool) (f : StepperFrame) (s : MaterialEffects Oracle) :
  4e-3 <= mom -> noEffects_ s = false -> materialInterface_ s = None ->
  exists msg,
    stepper rep mom pdg varField f s = (Throw (runtime_error msg), f, s).
Proof.
  intros Hmom Hno Hifc. unfold stepper.
  destruct (Rlt_dec mom 4e-3); [lra |]. rewrite Hno, Hifc.
  eexists; reflexivity.
Qed.

(** C7, as the code has it.  When the momentum is at least 4 MeV/c,
    material effects are enabled and the oracle is installed, a call with
    an accumulated relative momentum loss above 0.01 returns at once: the
    limits are the given ones with a zero momentum-loss limit set, the
    state vector, the loss accumulator and the current material are the
    given ones, no call to the oracle is added to the record, and the
    object, oracle included, is as it was. *)
Theorem stepper_stops_when_budget_is_spent (rep : RKTrackRep) (mom : Scalar)
  (pdg : Z) (varField : bool) (f : StepperFrame) (s : MaterialEffects Oracle) :
  4e-3 <= mom -> noEffects_ s = false -> materialInterface_ s <> None ->
  0.01 < relMomLoss f ->
  stepper rep mom pdg varField f s
  = (Ret tt,
     mkStepperFrame (state7 f) (relMomLoss f) (currentMaterial f)
       (setLimit stp_momLoss 0 (limits f)) (oracleCalls f),
     s).
Proof.
  intros Hmom Hno Hifc Hloss. unfold stepper.
  destruct (Rlt_dec mom 4e-3); [lra |]. rewrite Hno.
  destruct (materialInterface_ s) as [o |]; [| contradiction].
  destruct (Rlt_dec 0.01 (relMomLoss f)); [reflexivity | contradiction].
Qed.

End StepperFacts.

(** ** Ionization straggling and the step length *)

Section StragglingFacts.

Context {Oracle : Type} `{ParticleData}.




Lemma charge_factor_pos (mom betaSquare : Scalar) (pdg : Z) :
  getParticleCharge pdg <> 0%Z -> 0 < betaSquare -> 0 < mom ->
  0 < IZR (getParticleCharge pdg * getParticleCharge pdg) / betaSquare / mom ^ 4.
Proof.
  intros Hq Hb Hmom.
  assert (Hq' : IZR (getParticleCharge pdg) <> 0) by (apply not_0_IZR; assumption).
  rewrite mult_IZR.
  assert (0 < IZR (getParticleCharge pdg) * IZR (getParticleCharge pdg)) by nra.
  assert (0 < mom ^ 4) by (apply pow_lt; assumption).
  positivity.
Qed.


End StragglingFacts.

(** ** Certified bounds of [exp] and [ln] *)

Lemma IZR_div_floor (a b : Z) :
  (0 < b)%Z -> IZR (a / b) * IZR b <= IZR a.
Proof.
  intros Hb. rewrite <- mult_IZR. apply IZR_le.
  rewrite Z.mul_comm. apply Z.mul_div_le. assumption.
Qed.

Lemma exp_double (w : R) : exp (2 * w) = exp w * exp w.
Proof. replace (2 * w) with (w + w) by ring. apply exp_plus. Qed.

Lemma exp_lb_square_sound (scale a : Z) (w : R) :
  (0 < scale)%Z -> (0 <= a)%Z ->
  IZR a / IZR scale <= exp w ->
  (0 <= exp_lb_square scale a)%Z /\
  IZR (exp_lb_square scale a) / IZR scale <= exp (2 * w).
Proof.
  intros Hs Ha Hle. unfold exp_lb_square.
  assert (HS : 0 < IZR scale) by (apply IZR_lt; assumption).
  assert (Ha' : 0 <= IZR a) by (apply IZR_le; assumption).
  split.
  - apply Z.div_pos; [apply Z.mul_nonneg_nonneg; assumption | assumption].
  - pose proof (IZR_div_floor (a * a) scale Hs) as Hfloor.
    rewrite mult_IZR in Hfloor.
    rewrite exp_double.
    assert (H0 : 0 <= IZR a / IZR scale)
      by (apply le_div; [assumption | lra]).
    assert (Hsq : IZR a / IZR scale * (IZR a / IZR scale) <= exp w * exp w)
      by (apply Rmult_le_compat; assumption).
    apply Rle_trans with (IZR a / IZR scale * (IZR a / IZR scale));
      [| assumption].
    apply div_le; [assumption |].
    replace (IZR a / IZR scale * (IZR a / IZR scale) * IZR scale)
      with (IZR a * IZR a / IZR scale) by (field; lra).
    apply le_div; assumption.
Qed.

Lemma exp_lb_start_sound (scale : Z) (n : nat) (zn zd : Z) :
  (0 < scale)%Z -> (0 < zd)%Z -> (0 <= 2 ^ Z.of_nat n * zd + zn)%Z ->
  (0 <= exp_lb_start scale n zn zd)%Z /\
  IZR (exp_lb_start scale n zn zd) / IZR scale
  <= exp (IZR zn / IZR zd / 2 ^ n).
Proof.
  intros Hs Hzd Hnum. unfold exp_lb_start.
  assert (Hpow : (0 < 2 ^ Z.of_nat n)%Z) by (apply Z.pow_pos_nonneg; lia).
  assert (Hden : (0 < 2 ^ Z.of_nat n * zd)%Z) by (apply Z.mul_pos_pos; assumption).
  assert (HS : 0 < IZR scale) by (apply IZR_lt; assumption).
  assert (HD : 0 < IZR (2 ^ Z.of_nat n * zd)) by (apply IZR_lt; assumption).
  assert (HZd : 0 < IZR zd) by (apply IZR_lt; assumption).
  assert (HP : 0 < 2 ^ n) by (apply pow_lt; lra).
  split.
  - apply Z.div_pos; [apply Z.mul_nonneg_nonneg; lia | assumption].
  - pose proof (IZR_div_floor (scale * (2 ^ Z.of_nat n * zd + zn))
                  (2 ^ Z.of_nat n * zd) Hden) as Hfloor.
    rewrite (mult_IZR scale), plus_IZR in Hfloor.
    apply Rle_trans with (1 + IZR zn / IZR zd / 2 ^ n);
      [| apply exp_ineq1_le].
    apply div_le; [assumption |].
    assert (Hsplit : IZR (2 ^ Z.of_nat n * zd) = 2 ^ n * IZR zd)
      by (rewrite mult_IZR, <- pow_IZR; reflexivity).
    rewrite Hsplit in *.
    replace ((1 + IZR zn / IZR zd / 2 ^ n) * IZR scale)
      with (IZR scale * (2 ^ n * IZR zd + IZR zn) / (2 ^ n * IZR zd))
      by (field; lra).
    apply le_div; [apply Rmult_lt_0_compat; assumption | assumption].
Qed.

Lemma exp_lb_iter_sound (scale : Z) (a : Z) (w : R) (k : nat) :
  (0 < scale)%Z -> (0 <= a)%Z ->
  IZR a / IZR scale <= exp w ->
  (0 <= Nat.iter k (exp_lb_square scale) a)%Z /\
  IZR (Nat.iter k (exp_lb_square scale) a) / IZR scale <= exp (2 ^ k * w).
Proof.
  intros Hs Ha Hle. induction k as [| k [IH0 IH]].
  - cbn [Nat.iter]. split; [assumption |].
    replace (2 ^ 0 * w) with w by (cbn; ring). assumption.
  - cbn [Nat.iter].
    replace (2 ^ S k * w) with (2 * (2 ^ k * w)) by (cbn; ring).
    apply exp_lb_square_sound; assumption.
Qed.

Lemma exp_lb_sound (scale : Z) (n : nat) (zn zd : Z) :
  (0 < scale)%Z -> (0 < zd)%Z -> (0 <= 2 ^ Z.of_nat n * zd + zn)%Z ->
  IZR (exp_lb scale n zn zd) / IZR scale <= exp (IZR zn / IZR zd).
Proof.
  intros Hs Hzd Hnum. unfold exp_lb.
  destruct (exp_lb_start_sound scale n zn zd Hs Hzd Hnum) as [H0 Hstart].
  destruct (exp_lb_iter_sound scale _ _ n Hs H0 Hstart) as [_ Hiter].
  replace (2 ^ n * (IZR zn / IZR zd / 2 ^ n)) with (IZR zn / IZR zd) in Hiter;
    [assumption |].
  assert (HZd : 0 < IZR zd) by (apply IZR_lt; assumption).
  assert (HP : 0 < 2 ^ n) by (apply pow_lt; lra).
  field. split; lra.
Qed.

(** The certificate: when the check computes to [true], [c / scale] is a
    lower bound of [exp (zn / zd)]. *)
Lemma exp_lower_bound (scale : Z) (n : nat) (zn zd c : Z) :
  exp_lb_check scale n zn zd c = true ->
  IZR c / IZR scale <= exp (IZR zn / IZR zd).
Proof.
  unfold exp_lb_check. intros Hcheck.
  apply andb_prop in Hcheck as [Hcheck Hc].
  apply andb_prop in Hcheck as [Hcheck Hnum].
  apply andb_prop in Hcheck as [Hs Hzd].
  apply Z.ltb_lt in Hs. apply Z.ltb_lt in Hzd.
  apply Z.leb_le in Hnum. apply Z.leb_le in Hc.
  assert (HS : 0 < IZR scale) by (apply IZR_lt; assumption).
  apply Rle_trans with (IZR (exp_lb scale n zn zd) / IZR scale);
    [| apply exp_lb_sound; assumption].
  apply IZR_le in Hc.
  apply div_le; [assumption |].
  replace (IZR (exp_lb scale n zn zd) / IZR scale * IZR scale)
    with (IZR (exp_lb scale n zn zd)) by (field; lra).
  assumption.
Qed.

(** From bounds of [exp] to bounds of [ln]. *)
Lemma ln_le_from_exp (k u c : R) :
  0 < k -> k <= c -> c <= exp u -> ln k <= u.
Proof.
  intros Hk Hkc Hc.
  destruct (Rle_lt_dec (ln k) u) as [Hle | Hlt]; [assumption |].
  exfalso. apply exp_increasing in Hlt. rewrite exp_ln in Hlt by assumption. lra.
Qed.

Lemma ln_ge_from_exp (k l c : R) :
  0 < k -> / k <= c -> c <= exp (- l) -> l <= ln k.
Proof.
  intros Hk Hkc Hc.
  destruct (Rle_lt_dec l (ln k)) as [Hle | Hlt]; [assumption |].
  exfalso.
  assert (Hneg : - l < - ln k) by lra.
  apply exp_increasing in Hneg.
  rewrite (exp_Ropp (ln k)), exp_ln in Hneg by assumption. lra.
Qed.


Lemma ln_3_ge_1 : 1 <= ln 3.
Proof.
  rewrite <- (ln_exp 1).
  destruct (Req_dec (exp 1) 3) as [-> | Hne]; [lra |].
  left. apply ln_increasing; [apply exp_pos |].
  pose proof exp_le_3. lra.
Qed.

(** ** The truncated-Landau width around its switch at [RLAMAX = 1010] *)

Lemma c_pow_base_one (y : Scalar) : c_pow 1 y = 1.
Proof.
  unfold c_pow. destruct (Rlt_dec 0 1); [| lra].
  unfold Rpower. rewrite ln_1, Rmult_0_r. apply exp_0.
Qed.

Lemma c_pow_exponent_zero (x : Scalar) : 0 < x -> c_pow x 0 = 1.
Proof.
  intros Hx. unfold c_pow. destruct (Rlt_dec 0 x); [| contradiction].
  apply Rpower_O. assumption.
Qed.

Lemma c_pow_exponent_one (x : Scalar) : 0 < x -> c_pow x 1 = x.
Proof.
  intros Hx. unfold c_pow. destruct (Rlt_dec 0 x); [| contradiction].
  apply Rpower_1. assumption.
Qed.

(** [RLAMAX] is bounded below and above through bounds of [RLAMED] and
    of the exponential at the bound. *)
Lemma Landau_RLAMAX_lower (L L0 e0 : Scalar) :
  0 <= L0 -> L0 <= L ->
  0 <= e0 -> e0 <= exp (0.94753 + 0.74442 * L0) ->
  0.60715 + 1.1934 * L0 + (0.67794 + 0.052382 * L0) * e0 <= Landau_RLAMAX L.
Proof.
  intros HL0 HL He0 He. unfold Landau_RLAMAX.
  assert (Hexp : exp (0.94753 + 0.74442 * L0) <= exp (0.94753 + 0.74442 * L)).
  { destruct (Req_dec L0 L) as [-> | Hne]; [lra |].
    left. apply exp_increasing. lra. }
  set (E := exp (0.94753 + 0.74442 * L)) in *.
  assert (He' : e0 <= E) by lra.
  assert ((0.67794 + 0.052382 * L0) * e0 <= (0.67794 + 0.052382 * L) * E)
    by (apply Rmult_le_compat; lra).
  lra.
Qed.





Section UrbanInHydrogen.

Context {Oracle : Type} `{ParticleData}.

(** For [Z = 1] the Urban locals are [I = e1 = 16], [e2 = 10] and
    [f2 = 0]; the first collision rate alone bounds [Nc] from below. *)
Lemma straggling_Nc_lower_Z1 (s : MaterialEffects Oracle)
  (betaSquare gammaSquare Emax : Scalar) (pdg : Z) :
  matZ_ s = 1 -> 0 <= dEdx_ s -> 0 < Emax -> betaSquare < 1 ->
  48 <= 2e9 * getParticleMass pdg * betaSquare * gammaSquare ->
  dEdx_ s * 1.0e9 * 0.6 / 16 * Rabs (stepSize_ s)
  <= straggling_Nc s (straggling_Urban_locals s betaSquare gammaSquare Emax pdg).
Proof.
  intros HZ Hd HE Hb Hm.
  unfold straggling_Nc, straggling_Urban_locals.
  cbn [ul_Sigma1 ul_Sigma2 ul_Sigma3]. rewrite HZ.
  destruct (Rlt_dec 2 1) as [Habs | _]; [lra |].
  rewrite c_pow_base_one.
  rewrite (c_pow_exponent_zero (10 * 1 * 1)) by lra.
  replace (16 * 1 / 1) with 16 by lra.
  replace (1 / (1 - 0)) with 1 by lra.
  rewrite (c_pow_exponent_one 16) by lra.
  replace (16 * 1) with 16 by lra.
  set (mbbgg2 := 2e9 * getParticleMass pdg * betaSquare * gammaSquare) in *.
  assert (HD : 0 < ln (mbbgg2 / 16) - betaSquare).
  { assert (ln 3 <= ln (mbbgg2 / 16)).
    { destruct (Req_dec 3 (mbbgg2 / 16)) as [<- | Hne]; [lra |].
      left. apply ln_increasing; [lra |].
      assert (3 <= mbbgg2 / 16) by (apply le_div; lra). lra. }
    pose proof ln_3_ge_1. lra. }
  set (D := ln (mbbgg2 / 16) - betaSquare) in *.
  assert (HS1 : dEdx_ s * 1.0e9 * (1 - 0) / 16 * D / D * 0.6
                = dEdx_ s * 1.0e9 * 0.6 / 16) by (field; lra).
  assert (HS2 : dEdx_ s * 1.0e9 * 0 / (10 * 1 * 1)
                * (ln (mbbgg2 / (10 * 1 * 1)) - betaSquare) / D * 0.6 = 0)
    by (unfold Rdiv; ring).
  assert (HL : 0 < ln ((Emax + 16) / 16)).
  { rewrite <- ln_1. apply ln_increasing; [lra |].
    apply lt_div; lra. }
  assert (HS3 : 0 <= dEdx_ s * 1.0e9 * Emax
                     / (16 * (Emax + 16) * ln ((Emax + 16) / 16)) * 0.4).
  { apply Rmult_le_pos; [| lra].
    apply Rmult_le_pos.
    - apply Rmult_le_pos; [apply Rmult_le_pos; lra | lra].
    - left. apply Rinv_0_lt_compat.
      apply Rmult_lt_0_compat; [lra | assumption]. }
  rewrite HS1, HS2.
  pose proof (Rabs_pos (stepSize_ s)) as Hstep.
  apply Rmult_le_compat_r; [assumption |]. lra.
Qed.

End UrbanInHydrogen.

(** ** Worked examples *)

#[local] Existing Instance example_particles.
#[local] Existing Instance uniform_medium.
#[local] Existing Instance example_limits_ops.

Lemma proton_mass : getParticleMass 2212 = 0.938272.
Proof. reflexivity. Qed.

Lemma proton_charge : getParticleCharge 2212 = 1%Z.
Proof. reflexivity. Qed.

(** Energy at or below the mass, a slow particle with the Bethe-Bloch
    term enabled, and an admissible evaluation, all in silicon. *)
Lemma dEdx_validity_guards_witness :
  (0.5 <= 0.938272 /\
   exists msg,
     dEdx (in_material silicon 1) 0.5 0.938272 1 2212
     = Throw (Exception msg true)) /\
  (0.002 * 1.002 < 0.05 * 0.05 /\
   exists msg,
     dEdxBetheBloch (in_material silicon 1) 0.002 1.001 1.002 0.938272 1
     = Throw (Exception msg true)) /\
  (betaGamma 1.001 1 < 0.05 /\
   exists msg,
     dEdx (in_material silicon 1) 1.001 1 1 2212 = Throw (Exception msg true)) /\
  (0.05 <= betaGamma 2 1 /\
   exists r, dEdx (in_material silicon 1) 2 1 1 2212 = Ret r).
Proof.
  assert (Hlow : betaGamma 1.001 1 < 0.05) by (apply betaGamma_lt; lra).
  assert (Hok : 0.05 <= betaGamma 2 1) by (apply betaGamma_ge; lra).
  split; [| split; [| split]].
  - split; [lra |].
    apply (proj1 (dEdx_validity_guards (in_material silicon 1)
                    0.5 0.938272 1 2212)). lra.
  - split; [lra |].
    apply (proj1 (proj2 (dEdx_validity_guards (in_material silicon 1)
                           0.5 0.938272 1 2212))). lra.
  - split; [exact Hlow |].
    apply (proj1 (proj2 (proj2 (dEdx_validity_guards (in_material silicon 1)
                                  1.001 1 1 2212))));
      try lra; reflexivity.
  - split; [exact Hok |].
    apply (proj2 (proj2 (proj2 (dEdx_validity_guards (in_material silicon 1)
                                  2 1 1 2212))));
      lra.
Defined.

(** Multiple scattering, straggling and radiative noise on a zero matrix
    in silicon: row 6 and column 6 after scattering, and the cells other
    than (6,6) after the other two. *)
Lemma noise_updates_frame_witness :
  (exists noise' : M7x7,
     noiseCoulomb (in_material silicon 1) (zeros 49) [0.6; 0; 0.8] 1 0.5 2212
     = Ret noise' /\
     at_ noise' (2 * 7 + 6) = at_ (zeros 49) (2 * 7 + 6) /\
     at_ noise' (6 * 7 + 2) = at_ (zeros 49) (6 * 7 + 2)) /\
  at_ (noiseBetheBloch (in_material silicon 1) (zeros 49) 1 0.5 1.4 2 2212) 8
  = at_ (zeros 49) 8 /\
  at_ (noiseBetheBloch (in_material silicon 1) (zeros 49) 1 0.5 1.4 2 2212)
      (6 * 7 + 6)
  = at_ (zeros 49) (6 * 7 + 6)
    + noiseBetheBloch_increment (in_material silicon 1) 1 0.5 1.4 2 2212 /\
  at_ (noiseBrems (in_material silicon 1) (zeros 49) 1 0.5 11) 8
  = at_ (zeros 49) 8 /\
  at_ (noiseBrems (in_material silicon 1) (zeros 49) 1 0.5 11) (6 * 7 + 6)
  = at_ (zeros 49) (6 * 7 + 6)
    + noiseBrems_increment (in_material silicon 1) 1 0.5 11.
Proof.
  destruct (noise_updates_frame (in_material silicon 1) (zeros 49))
    as (Hc & Hb & Hr).
  split; [| split; [| split; [| split]]].
  - eexists. split.
    + apply (noiseCoulomb_returns (in_material silicon 1)). left; reflexivity.
    + destruct (Hc [0.6; 0; 0.8] 1 0.5 2212%Z _ 2%nat
                  (noiseCoulomb_returns (in_material silicon 1) (zeros 49)
                     [0.6; 0; 0.8] 1 0.5 2212 (or_introl eq_refl))
                  ltac:(lia)) as (H1 & H2 & _).
      split; [exact H1 | exact H2].
  - apply (proj1 (Hb 1 0.5 1.4 2 2212%Z)). discriminate.
  - apply (proj2 (Hb 1 0.5 1.4 2 2212%Z)). reflexivity.
  - apply (proj1 (Hr 1 0.5 11%Z)). discriminate.
  - apply (proj2 (Hr 1 0.5 11%Z)); reflexivity.
Defined.

(** A vacuum gap of 5 cm between material sub-steps. *)
Lemma effects_vacuum_substep_is_neutral_witness :
  Z_ vacuum <= 1e-3 /\
  fst (effects_step 1 2212 0.938272
         vacuum_gap
         (0.25, Some (zeros 49)) (in_material silicon 1))
  = Ret (0.25, Some (zeros 49)).
Proof.
  assert (HZ : Z_ vacuum <= 1e-3) by (cbn; lra).
  split; [exact HZ |].
  apply (effects_vacuum_substep_is_neutral (in_material silicon 1)). exact HZ.
Defined.

Lemma effects_loop_vacuum_gap (mom : Scalar) (noise : option M7x7) :
  effects_loop mom 2212 (getParticleMass 2212)
    (steps_range [vacuum_gap] 0 1) (0, noise) (in_material silicon 1)
  = (Ret (0, noise), set_material vacuum (set_stepSize_ (Rabs 5)
                                            (in_material silicon 1))).
Proof.
  change (steps_range [vacuum_gap] 0 1) with [vacuum_gap].
  cbn [effects_loop]. unfold bind.
  rewrite effects_step_vacuum by (cbn; lra).
  change (MatStep.stepSize_ (matStep_ vacuum_gap)) with 5.
  destruct (Rlt_dec (Rabs 5) 1e-8) as [Hlt | _]; [| reflexivity].
  rewrite Rabs_right in Hlt by lra. lra.
Qed.

(** A call with 2 % of the momentum already lost, in silicon. *)
Lemma stepper_stops_when_budget_is_spent_witness :
  stepper still_rep 1 2212 false
    (mkStepperFrame along_z 0.02 vacuum (mk_example_limits [] 1) [])
    (in_material silicon 1)
  = (Ret tt,
     mkStepperFrame along_z 0.02 vacuum
       (mk_example_limits [(stp_momLoss, Rabs 0)] 1) [],
     in_material silicon 1).
Proof.
  assert (Hmom : 4e-3 <= 1) by lra.
  assert (Hifc : materialInterface_ (in_material silicon 1) <> None)
    by discriminate.
  assert (Hloss :
    0.01 < relMomLoss
             (mkStepperFrame along_z 0.02 vacuum (mk_example_limits [] 1) []))
    by (cbn; lra).
  exact (stepper_stops_when_budget_is_spent still_rep 1 2212 false
           (mkStepperFrame along_z 0.02 vacuum (mk_example_limits [] 1) [])
           (in_material silicon 1) Hmom eq_refl Hifc Hloss).
Defined.

(** The same call with material effects globally disabled: the
    accumulated loss is above the cap, and yet the call returns with the
    limits it was given; no momentum-loss limit is installed. *)
Lemma stepper_budget_spent_effects_disabled :
  0.01 < relMomLoss
           (mkStepperFrame along_z 0.02 vacuum (mk_example_limits [] 1) []) /\
  stepper still_rep 1 2212 false
    (mkStepperFrame along_z 0.02 vacuum (mk_example_limits [] 1) [])
    (set_noEffects_ true (in_material silicon 1))
  = (Ret tt,
     mkStepperFrame along_z 0.02 vacuum (mk_example_limits [] 1) [],
     set_noEffects_ true (in_material silicon 1)) /\
  mk_example_limits [] 1
  <> setLimit stp_momLoss 0 (mk_example_limits [] 1).
Proof.
  split; [cbn; lra | split].
  - apply stepper_no_effects; [lra | reflexivity].
  - cbn. intros E. discriminate E.
Qed.

(** ** The straggling increment across the Landau switch *)
















(** ** Interval evaluation of the Bethe-Bloch loss rate *)

Lemma sqrt_between (T : R) : 1 <= T -> 1 <= sqrt T <= (1 + T) / 2.
Proof.
  intros HT. split.
  - rewrite <- sqrt_1. apply sqrt_le_1_alt. assumption.
  - rewrite <- (sqrt_square ((1 + T) / 2)) by lra.
    apply sqrt_le_1_alt. nra.
Qed.

Lemma ln_monotone (a b : R) : 0 < a -> a <= b -> ln a <= ln b.
Proof.
  intros Ha [Hlt | ->]; [left; apply ln_increasing; assumption | lra].
Qed.

Lemma one_over_le (a b : R) : 0 < a -> a <= b -> 1 / b <= 1 / a.
Proof.
  intros Ha Hab. unfold Rdiv. rewrite !Rmult_1_l.
  apply Rinv_le_contravar; assumption.
Qed.

Section BetheBlochInterval.

Context {Oracle : Type} `{ParticleData}.

(** For a heavy particle (no bremsstrahlung) whose [gamma = energy / mass]
    lies in [[glo, ghi]], the loss rate lies between the Bethe-Bloch
    values taken with the least logarithm and largest [betaSquare], and
    with the largest logarithm and least [betaSquare].  The square root
    in the argument of the logarithm is between 1 and the mean of 1 and
    its radicand. *)
Lemma dEdx_interval (s : MaterialEffects Oracle)
  (energy mass : Scalar) (charge pdg : Z) (glo ghi llo lhi : R) :
  energyLossBetheBloch_ s = true -> Z.abs pdg <> 11%Z ->
  0 < mass -> 0 < me_ -> 0 < mEE_ s ->
  0 <= 0.307075 * matZ_ s / matA_ s * matDensity_ s * IZR charge * IZR charge ->
  1 < glo -> glo * mass <= energy <= ghi * mass ->
  0.05 * 0.05 <= glo * glo - 1 ->
  llo <= ln ((glo * glo - 1) * (me_ * 1e3 * 2 / (1e-6 * mEE_ s))
             / (1 + ghi * (me_ / mass) + (me_ / mass) * (me_ / mass) / 2)) ->
  ln ((ghi * ghi - 1) * (me_ * 1e3 * 2 / (1e-6 * mEE_ s))) <= lhi ->
  1 <= llo ->
  exists d : Scalar,
    dEdx s energy mass charge pdg = Ret d /\
    0.307075 * matZ_ s / matA_ s * matDensity_ s * IZR charge * IZR charge
    / (1 - 1 / (ghi * ghi)) * (llo - (1 - 1 / (ghi * ghi))) * 1e-3 <= d /\
    d <= 0.307075 * matZ_ s / matA_ s * matDensity_ s * IZR charge * IZR charge
         / (1 - 1 / (glo * glo)) * (lhi - (1 - 1 / (glo * glo))) * 1e-3.
Proof.
  intros Hbb Hpdg Hm Hme HmEE HK Hglo [HElo HEhi] Hfloor Hllo Hlhi Hl1.
  set (Kq := 0.307075 * matZ_ s / matA_ s * matDensity_ s
             * IZR charge * IZR charge) in *.
  set (c0 := me_ * 1e3 * 2 / (1e-6 * mEE_ s)) in *.
  set (r := me_ / mass) in *.
  assert (Hr : 0 < r) by (unfold r; apply Rdiv_lt_0_compat; assumption).
  assert (Hc0 : 0 < c0) by (unfold c0; apply Rdiv_lt_0_compat; lra).
  (* gamma and betaSquare *)
  set (g := energy / mass).
  assert (Hg : glo <= g <= ghi)
    by (unfold g; split; [apply le_div | apply div_le]; lra).
  assert (Hgg : glo * glo <= g * g <= ghi * ghi) by nra.
  assert (Hgg1 : 1 < g * g) by nra.
  set (b2 := 1 - 1 / (g * g)).
  assert (Hb2g2 : b2 * (g * g) = g * g - 1) by (unfold b2; field; lra).
  assert (Hinv : 1 / (ghi * ghi) <= 1 / (g * g) <= 1 / (glo * glo)).
  { split; apply one_over_le; nra. }
  assert (Hinv0 : 0 < 1 / (ghi * ghi)) by (apply Rdiv_lt_0_compat; nra).
  assert (Hinv1 : 1 / (glo * glo) < 1) by (apply div_lt; nra).
  assert (Hb2 : 1 - 1 / (glo * glo) <= b2 <= 1 - 1 / (ghi * ghi))
    by (unfold b2; lra).
  assert (Hb2pos : 0 < 1 - 1 / (glo * glo)) by lra.
  (* the argument of the logarithm *)
  set (T := 1 + 2 * g * r + r * r).
  assert (HT : 1 <= T) by (unfold T; nra).
  destruct (sqrt_between T HT) as [Hs1 Hs2].
  set (arg := g * g * b2 * me_ * 1e3 * 2 / (1e-6 * mEE_ s * sqrt T)).
  assert (Harg : arg = (g * g - 1) * c0 / sqrt T).
  { unfold arg, c0. rewrite <- Hb2g2. field. split; lra. }
  assert (Hnum : glo * glo - 1 <= g * g - 1 <= ghi * ghi - 1) by lra.
  assert (HTdef : T = 1 + 2 * g * r + r * r) by reflexivity.
  assert (Hgr : g * r <= ghi * r) by nra.
  assert (Hden : sqrt T <= 1 + ghi * r + r * r / 2) by lra.
  assert (HX : 0 < (glo * glo - 1) * c0 / (1 + ghi * r + r * r / 2)).
  { apply Rdiv_lt_0_compat; [apply Rmult_lt_0_compat; lra | nra]. }
  assert (Hlow : (glo * glo - 1) * c0 / (1 + ghi * r + r * r / 2) <= arg).
  { rewrite Harg. apply le_div; [lra |].
    replace ((glo * glo - 1) * c0 / (1 + ghi * r + r * r / 2) * sqrt T)
      with ((glo * glo - 1) * c0 * (sqrt T / (1 + ghi * r + r * r / 2)))
      by (field; nra).
    assert (Hq : sqrt T / (1 + ghi * r + r * r / 2) <= 1)
      by (apply div_le; nra).
    assert (Hq0 : 0 <= sqrt T / (1 + ghi * r + r * r / 2))
      by (apply le_div; nra).
    assert (0 <= (glo * glo - 1) * c0) by nra.
    assert ((glo * glo - 1) * c0 <= (g * g - 1) * c0) by nra.
    nra. }
  assert (Hhigh : arg <= (ghi * ghi - 1) * c0).
  { rewrite Harg. apply div_le; [lra |].
    assert (0 <= (g * g - 1) * c0) by nra.
    assert ((g * g - 1) * c0 <= (ghi * ghi - 1) * c0) by nra.
    nra. }
  assert (Hln : llo <= ln arg <= lhi).
  { split.
    - eapply Rle_trans; [exact Hllo |]. apply ln_monotone; assumption.
    - eapply Rle_trans; [| exact Hlhi]. apply ln_monotone; lra. }
  (* the rate *)
  assert (Hrate : 0.307075 * matZ_ s / matA_ s * matDensity_ s / b2
                  * IZR charge * IZR charge = Kq / b2)
    by (unfold Kq, Rdiv; ring).
  assert (HKlo : Kq / (1 - 1 / (ghi * ghi)) <= Kq / b2).
  { apply le_div; [lra |].
    replace (Kq / (1 - 1 / (ghi * ghi)) * b2)
      with (Kq * (b2 / (1 - 1 / (ghi * ghi)))) by (field; lra).
    assert (b2 / (1 - 1 / (ghi * ghi)) <= 1) by (apply div_le; lra).
    nra. }
  assert (HKhi : Kq / b2 <= Kq / (1 - 1 / (glo * glo))).
  { apply le_div; [lra |].
    replace (Kq / b2 * (1 - 1 / (glo * glo)))
      with (Kq * ((1 - 1 / (glo * glo)) / b2)) by (field; lra).
    assert ((1 - 1 / (glo * glo)) / b2 <= 1) by (apply div_le; lra).
    nra. }
  assert (HKpos : 0 <= Kq / (1 - 1 / (ghi * ghi)))
    by (apply le_div; lra).
  assert (Hval_lo : Kq / (1 - 1 / (ghi * ghi)) * (llo - (1 - 1 / (ghi * ghi)))
                    <= Kq / b2 * (ln arg - b2))
    by (apply Rmult_le_compat; lra).
  assert (Hval_hi : Kq / b2 * (ln arg - b2)
                    <= Kq / (1 - 1 / (glo * glo)) * (lhi - (1 - 1 / (glo * glo))))
    by (apply Rmult_le_compat; lra).
  assert (Hval0 : 0 <= Kq / b2 * (ln arg - b2)) by nra.
  exists (Kq / b2 * (ln arg - b2) * 1e-3).
  split; [| lra].
  unfold dEdx. destruct (Rle_dec energy mass) as [Hle | _]; [nra |].
  rewrite Hbb. unfold dEdxBetheBloch. fold g. fold b2. fold r. fold T. fold arg.
  destruct (Rlt_dec (b2 * (g * g)) (0.05 * 0.05)) as [Hlt | _]; [lra |].
  rewrite Hrate.
  destruct (Rlt_dec (Kq / b2 * (ln arg - b2) * 1e-3) 0) as [Hneg | _]; [lra |].
  assert (Hbrems : dEdxBrems s (energy * sqrt b2) pdg = 0).
  { unfold dEdxBrems.
    destruct (Z.eqb_spec (Z.abs pdg) 11) as [E | _]; [contradiction |].
    reflexivity. }
  rewrite Hbrems.
  destruct (energyLossBrems_ s); apply f_equal; unfold Scalar; ring.
Qed.

End BetheBlochInterval.

(** ** A proton that stops in silicon *)

Lemma momentumLoss_RK4_saturated {Oracle : Type} `{ParticleData}
  (s : MaterialEffects Oracle) (stepSign mom : Scalar) (pdg : Z)
  (d1 d2 d3 d4 : Scalar) :
  let mass := getParticleMass pdg in
  let charge := getParticleCharge pdg in
  let E0 := hypot mom mass in
  let step := stepSize_ s * stepSign in
  dEdx s E0 mass charge pdg = Ret d1 ->
  dEdx s (E0 - d1 * step / 2) mass charge pdg = Ret d2 ->
  dEdx s (E0 - d2 * step / 2) mass charge pdg = Ret d3 ->
  dEdx s (E0 - d3 * step) mass charge pdg = Ret d4 ->
  E0 - step * ((d1 + 2 * d2 + 2 * d3 + d4) / 6) <= mass ->
  momentumLoss stepSign mom false pdg s
  = (Ret mom,
     set_E_ (E0 - (d1 + 2 * d2 + 2 * d3 + d4) / 6 * step * 0.5)
            (set_dEdx_ ((d1 + 2 * d2 + 2 * d3 + d4) / 6) s)).
Proof.
  intros mass charge E0 step H1 H2 H3 H4 Hsat.
  unfold momentumLoss, bind, lift, get, modify, ret.
  fold mass. fold charge. fold E0. fold step.
  rewrite H1, H2, H3, H4.
  cbn [dEdx_ set_dEdx_].
  destruct (Rle_dec _ mass) as [_ | Hn]; [reflexivity | contradiction].
Qed.

(** Certified values of the exponential for the four evaluations of the
    logarithm. *)
Lemma exp_cert_stage_0_lower :
  301141186061853 / 1000000000000000000 <= exp (- (8.1079)).
Proof.
  replace (- (8.1079)) with (IZR (- 81079) / IZR 10000) by lra.
  apply (exp_lower_bound 1000000000000000000 20). vm_compute. reflexivity.
Qed.

Lemma exp_cert_stage_0_upper :
  3323150798764755758213 / 1000000000000000000 <= exp 8.1087.
Proof.
  replace 8.1087 with (IZR 81087 / IZR 10000) by lra.
  apply (exp_lower_bound 1000000000000000000 20). vm_compute. reflexivity.
Qed.

Lemma exp_cert_stage_1_lower :
  460900606660500 / 1000000000000000000 <= exp (- (7.6823)).
Proof.
  replace (- (7.6823)) with (IZR (- 76823) / IZR 10000) by lra.
  apply (exp_lower_bound 1000000000000000000 20). vm_compute. reflexivity.
Qed.

Lemma exp_cert_stage_1_upper :
  2171279387787530959677 / 1000000000000000000 <= exp 7.6831.
Proof.
  replace 7.6831 with (IZR 76831 / IZR 10000) by lra.
  apply (exp_lower_bound 1000000000000000000 20). vm_compute. reflexivity.
Qed.

Lemma exp_cert_stage_2_lower :
  537852057246939 / 1000000000000000000 <= exp (- (7.5279)).
Proof.
  replace (- (7.5279)) with (IZR (- 75279) / IZR 10000) by lra.
  apply (exp_lower_bound 1000000000000000000 20). vm_compute. reflexivity.
Qed.

Lemma exp_cert_stage_2_upper :
  1860820822254390101318 / 1000000000000000000 <= exp 7.5288.
Proof.
  replace 7.5288 with (IZR 75288 / IZR 10000) by lra.
  apply (exp_lower_bound 1000000000000000000 20). vm_compute. reflexivity.
Qed.

Lemma exp_cert_stage_3_lower :
  3791798554100033 / 1000000000000000000 <= exp (- (5.5749)).
Proof.
  replace (- (5.5749)) with (IZR (- 55749) / IZR 10000) by lra.
  apply (exp_lower_bound 1000000000000000000 20). vm_compute. reflexivity.
Qed.

Lemma exp_cert_stage_3_upper :
  264564522558134822734 / 1000000000000000000 <= exp 5.5781.
Proof.
  replace 5.5781 with (IZR 55781 / IZR 10000) by lra.
  apply (exp_lower_bound 1000000000000000000 20). vm_compute. reflexivity.
Qed.

Section ProtonInSilicon.

#[local] Existing Instance example_particles.

Variable s : MaterialEffects MaterialProperties.
Hypothesis s_bb : energyLossBetheBloch_ s = true.
Hypothesis s_Z : matZ_ s = 14.
Hypothesis s_A : matA_ s = 28.0855.
Hypothesis s_rho : matDensity_ s = 2.33.
Hypothesis s_mEE : mEE_ s = 173.

(** The loss rate of a proton in silicon for [gamma] in [[glo, ghi]],
    from bounds [llo] and [lhi] of the logarithm at the ends. *)
Lemma proton_silicon_dEdx (energy glo ghi llo lhi : R) :
  1 < glo -> glo * 0.938272 <= energy <= ghi * 0.938272 ->
  0.05 * 0.05 <= glo * glo - 1 ->
  llo <= ln ((glo * glo - 1) * (0.510998910e-3 * 1e3 * 2 / (1e-6 * 173))
             / (1 + ghi * (0.510998910e-3 / 0.938272)
                + (0.510998910e-3 / 0.938272) * (0.510998910e-3 / 0.938272) / 2)) ->
  ln ((ghi * ghi - 1) * (0.510998910e-3 * 1e3 * 2 / (1e-6 * 173))) <= lhi ->
  1 <= llo ->
  exists d : Scalar,
    dEdx s energy (getParticleMass 2212) (getParticleCharge 2212) 2212 = Ret d /\
    0.307075 * 14 / 28.0855 * 2.33
    / (1 - 1 / (ghi * ghi)) * (llo - (1 - 1 / (ghi * ghi))) * 1e-3 <= d /\
    d <= 0.307075 * 14 / 28.0855 * 2.33
         / (1 - 1 / (glo * glo)) * (lhi - (1 - 1 / (glo * glo))) * 1e-3.
Proof.
  intros Hglo HE Hfloor Hllo Hlhi Hl1.
  assert (Hpdg : Z.abs 2212 <> 11%Z) by discriminate.
  assert (Hm : 0 < getParticleMass 2212) by (rewrite proton_mass; lra).
  assert (Hme : 0 < me_) by (cbn; lra).
  assert (HmEE : 0 < mEE_ s) by (rewrite s_mEE; lra).
  assert (HK : 0 <= 0.307075 * matZ_ s / matA_ s * matDensity_ s
                    * IZR (getParticleCharge 2212) * IZR (getParticleCharge 2212))
    by (rewrite s_Z, s_A, s_rho, proton_charge; lra).
  assert (HE' : glo * getParticleMass 2212 <= energy <= ghi * getParticleMass 2212)
    by (rewrite proton_mass; assumption).
  assert (Hllo' :
    llo <= ln ((glo * glo - 1) * (me_ * 1e3 * 2 / (1e-6 * mEE_ s))
               / (1 + ghi * (me_ / getParticleMass 2212)
                  + (me_ / getParticleMass 2212) * (me_ / getParticleMass 2212) / 2)))
    by (rewrite s_mEE, proton_mass; exact Hllo).
  assert (Hlhi' :
    ln ((ghi * ghi - 1) * (me_ * 1e3 * 2 / (1e-6 * mEE_ s))) <= lhi)
    by (rewrite s_mEE; exact Hlhi).
  destruct (dEdx_interval s energy (getParticleMass 2212)
              (getParticleCharge 2212) 2212 glo ghi llo lhi
              s_bb Hpdg Hm Hme HmEE HK Hglo HE' Hfloor Hllo' Hlhi' Hl1)
    as (d & Hd & Hlo & Hhi).
  exists d. split; [exact Hd |].
  rewrite s_Z, s_A, s_rho, proton_charge in Hlo, Hhi.
  split; lra.
Qed.


(** One evaluation: the energy lies in [[glo * m, ghi * m]]; the rate
    then lies in [[dlo, dhi]]. *)
Ltac proton_silicon_stage glo ghi llo lhi c1 c2 cert_lower cert_upper :=
  match goal with
  | |- exists d : Scalar, dEdx _ ?energy _ _ _ = _ /\ _ =>
      destruct (proton_silicon_dEdx energy glo ghi llo lhi)
        as (d & Hd & Hlo & Hhi);
      [ lra | lra | lra
      | apply (ln_ge_from_exp _ _ (c1 / 1000000000000000000));
          [lra | lra | apply cert_lower]
      | apply (ln_le_from_exp _ _ (c2 / 1000000000000000000));
          [lra | lra | apply cert_upper]
      | lra
      | exists d; split; [exact Hd | lra] ]
  end.

(** The rate at the start of the slab. *)
Lemma proton_silicon_stage_0 (energy : R) :
  energy = 1.17284 ->
  exists d : Scalar,
    dEdx s energy (getParticleMass 2212) (getParticleCharge 2212) 2212 = Ret d /\
    0.0076758 <= d <= 0.0076767.
Proof.
  intros HE.
  proton_silicon_stage 1.25 1.25 8.1079 8.1087
    301141186061853 3323150798764755758213
    exp_cert_stage_0_lower exp_cert_stage_0_upper.
Qed.

(** The rate at mid-step, from the first slope. *)
Lemma proton_silicon_stage_1 (energy : R) :
  1.17284 - 0.0076767 * 19.7 / 2 <= energy <= 1.17284 - 0.0076758 * 19.7 / 2 ->
  exists d : Scalar,
    dEdx s energy (getParticleMass 2212) (getParticleCharge 2212) 2212 = Ret d /\
    0.0098379 <= d <= 0.0098396.
Proof.
  intros HE.
  proton_silicon_stage 1.169409 1.16942 7.6823 7.6831
    460900606660500 2171279387787530959677
    exp_cert_stage_1_lower exp_cert_stage_1_upper.
Qed.

(** The rate at mid-step, from the second slope. *)
Lemma proton_silicon_stage_2 (energy : R) :
  1.17284 - 0.0098396 * 19.7 / 2 <= energy <= 1.17284 - 0.0098379 * 19.7 / 2 ->
  exists d : Scalar,
    dEdx s energy (getParticleMass 2212) (getParticleCharge 2212) 2212 = Ret d /\
    0.0108523 <= d <= 0.0108549.
Proof.
  intros HE.
  proton_silicon_stage 1.146703 1.146722 7.5279 7.5288
    537852057246939 1860820822254390101318
    exp_cert_stage_2_lower exp_cert_stage_2_upper.
Qed.

(** The rate at the end of the step, from the third slope. *)
Lemma proton_silicon_stage_3 (energy : R) :
  1.17284 - 0.0108549 * 19.7 <= energy <= 1.17284 - 0.0108523 * 19.7 ->
  exists d : Scalar,
    dEdx s energy (getParticleMass 2212) (getParticleCharge 2212) 2212 = Ret d /\
    0.0460329 <= d <= 0.0461714.
Proof.
  intros HE.
  proton_silicon_stage 1.02209 1.022145 5.5749 5.5781
    3791798554100033 264564522558134822734
    exp_cert_stage_3_lower exp_cert_stage_3_upper.
Qed.

(** With momentum three quarters of the mass, [gamma] is 1.25. *)
Lemma proton_energy : hypot 0.703704 (getParticleMass 2212) = 1.17284.
Proof.
  rewrite proton_mass. unfold hypot.
  replace (0.703704 * 0.703704 + 0.938272 * 0.938272)
    with (1.17284 * 1.17284) by lra.
  apply sqrt_square. lra.
Qed.

(** Over 19.7 cm of silicon the four-stage estimate of the energy loss
    exceeds the kinetic energy of the proton: the loss of momentum
    saturates at the whole momentum. *)
Lemma proton_stops_in_silicon :
  stepSize_ s = 19.7 ->
  exists s' : MaterialEffects MaterialProperties,
    momentumLoss 1 0.703704 false 2212 s = (Ret 0.703704, s') /\
    hypot 0.703704 (getParticleMass 2212) - stepSize_ s * 1 * dEdx_ s'
    <= getParticleMass 2212.
Proof.
  intros Hstep.
  destruct (proton_silicon_stage_0 1.17284 eq_refl) as (d1 & H1 & B1).
  destruct (proton_silicon_stage_1 (1.17284 - d1 * (19.7 * 1) / 2))
    as (d2 & H2 & B2); [lra |].
  destruct (proton_silicon_stage_2 (1.17284 - d2 * (19.7 * 1) / 2))
    as (d3 & H3 & B3); [lra |].
  destruct (proton_silicon_stage_3 (1.17284 - d3 * (19.7 * 1)))
    as (d4 & H4 & B4); [lra |].
  pose proof (momentumLoss_RK4_saturated s 1 0.703704 2212 d1 d2 d3 d4) as Hsat.
  cbv zeta in Hsat. rewrite proton_energy, Hstep in Hsat.
  rewrite proton_energy, Hstep.
  assert (Hle : 1.17284 - 19.7 * 1 * ((d1 + 2 * d2 + 2 * d3 + d4) / 6)
                <= getParticleMass 2212) by (rewrite proton_mass; lra).
  eexists. split; [apply Hsat; assumption |].
  cbn [dEdx_ set_E_ set_dEdx_]. exact Hle.
Qed.

(** Over 1000 cm the same estimate does not return: the mid-step energy
    of the second evaluation is already below the mass, and the loss rate
    refuses it. *)
Lemma proton_oversized_step_throws :
  stepSize_ s = 1000 ->
  momentumLoss 1 0.703704 false 2212 s
  = (Throw (Exception "MaterialEffects::dEdx - Energy <= mass" true), s).
Proof.
  intros Hstep.
  destruct (proton_silicon_stage_0 1.17284 eq_refl) as (d1 & H1 & B1).
  unfold momentumLoss, bind, lift, get.
  rewrite proton_energy, H1, Hstep.
  rewrite dEdx_energy_le_mass by (rewrite proton_mass; lra).
  reflexivity.
Qed.

End ProtonInSilicon.

#[local] Existing Instance example_particles.

(** The slab as the only sub-step of a segment: the loop returns the
    whole momentum as the loss. *)
Lemma effects_loop_silicon_slab :
  exists s' : MaterialEffects MaterialProperties,
    effects_loop 0.703704 2212 (getParticleMass 2212)
      (steps_range [silicon_slab] 0 1) (0, None) (in_material silicon 1)
    = (Ret (0 + 0.703704, None), s').
Proof.
  change (steps_range [silicon_slab] 0 1) with [silicon_slab].
  cbn [effects_loop]. unfold bind at 1. unfold effects_step.
  change (MatStep.stepSize_ (matStep_ silicon_slab)) with 19.7.
  change (MatStep.materialProperties_ (matStep_ silicon_slab)) with silicon.
  rewrite (Rabs_right 19.7) by lra.
  destruct (Rlt_dec 19.7 1e-8) as [Hlt | _]; [lra |].
  destruct (Rlt_dec 19.7 0) as [Hlt | _]; [lra |].
  unfold bind, modify, get.
  change (matZ_ (set_material silicon
                   (set_stepSize_ 19.7 (in_material silicon 1)))) with 14.
  destruct (Rlt_dec 1e-3 14) as [_ | Hn]; [| lra].
  replace (0.703704 - 0) with 0.703704 by lra.
  destruct (proton_stops_in_silicon
              (set_material silicon (set_stepSize_ 19.7 (in_material silicon 1))))
    as (s' & Hs' & _); try reflexivity.
  rewrite Hs'. eexists. reflexivity.
Qed.

(** ** Worked examples: a particle brought to rest *)

(** A proton of 1 GeV/c over 1 cm of silicon with the linear estimate,
    and a proton of 0.703704 GeV/c over 19.7 cm of silicon with the
    four-stage estimate: the second one is stopped, the loss being the
    whole momentum. *)
Lemma momentumLoss_saturates_at_rest_witness :
  (exists (loss : Scalar) (s' : MaterialEffects MaterialProperties),
     momentumLoss 1 1 true 2212 (in_material silicon 1) = (Ret loss, s') /\
     hypot (1 - loss) 0.938272
     = Rmax (hypot 1 0.938272 - 1 * 1 * dEdx_ s') 0.938272 /\
     0 <= hypot (1 - loss) 0.938272 - 0.938272) /\
  (exists s' : MaterialEffects MaterialProperties,
     momentumLoss 1 0.703704 false 2212 (in_material silicon 19.7)
     = (Ret 0.703704, s') /\
     hypot 0.703704 0.938272 - 19.7 * 1 * dEdx_ s' <= 0.938272 /\
     hypot (0.703704 - 0.703704) 0.938272
     = Rmax (hypot 0.703704 0.938272 - 19.7 * 1 * dEdx_ s') 0.938272 /\
     0 <= hypot (0.703704 - 0.703704) 0.938272 - 0.938272).
Proof.
  split.
  - destruct (momentumLoss_linear_returns (in_material silicon 1) 1 1 2212)
      as (loss & d & _ & Hret).
    + rewrite proton_mass. lra.
    + rewrite proton_mass. apply hypot_gt; lra.
    + intros _. rewrite proton_mass. apply betaGamma_hypot_ge; lra.
    + exists loss. eexists. split; [exact Hret |].
      pose proof (momentumLoss_saturates_at_rest _ _ 1 1 true 2212 loss
                    ltac:(rewrite proton_mass; lra) Hret)
        as (_ & _ & Hmax & Hkin).
      split; [exact Hmax | exact Hkin].
  - destruct (proton_stops_in_silicon (in_material silicon 19.7))
      as (s' & Hret & Hle); try reflexivity.
    exists s'. split; [exact Hret |].
    pose proof (momentumLoss_saturates_at_rest _ _ 1 0.703704 false 2212
                  0.703704 ltac:(rewrite proton_mass; lra) Hret)
      as (_ & _ & Hmax & Hkin).
    split; [exact Hle | split; [exact Hmax | exact Hkin]].
Defined.

(** A segment made of a vacuum gap: the loss returned is the accumulated
    0, below the momentum.  A segment made of the silicon slab, entered
    by the proton of 0.703704 GeV/c: the accumulated loss is the whole
    momentum and the call is fatal. *)
Lemma effects_fatal_when_loss_reaches_momentum_witness :
  (exists s',
     effects [vacuum_gap] 0 1 1 2212 None (in_material silicon 1)
     = (Ret (0, None), s') /\
     fst (0, @None M7x7) < 1 /\
     effects_loop 1 2212 (getParticleMass 2212)
       (steps_range [vacuum_gap] 0 1) (0, None) (in_material silicon 1)
     = (Ret (0, None), s')) /\
  (exists msg s',
     effects [silicon_slab] 0 1 0.703704 2212 None (in_material silicon 1)
     = (Throw (Exception msg true), s')).
Proof.
  assert (Hno : noEffects_ (in_material silicon 1) = false) by reflexivity.
  assert (Hifc : materialInterface_ (in_material silicon 1) <> None)
    by discriminate.
  split.
  - eexists.
    assert (Hret :
      effects [vacuum_gap] 0 1 1 2212 None (in_material silicon 1)
      = (Ret (0, None), set_material vacuum (set_stepSize_ (Rabs 5)
                                               (in_material silicon 1)))).
    { rewrite effects_active by assumption.
      rewrite effects_loop_vacuum_gap.
      destruct (Rge_dec 0 1); [lra | reflexivity]. }
    destruct (effects_fatal_when_loss_reaches_momentum
                (in_material silicon 1) [vacuum_gap] 0 1 1 2212 None)
      as (_ & Hbelow & Hsame).
    split; [exact Hret | split].
    + apply (Hbelow ltac:(lra) _ _ Hret).
    + apply (Hsame Hno _ _ Hret).
  - destruct effects_loop_silicon_slab as [s' Hloop].
    destruct (proj1 (effects_fatal_when_loss_reaches_momentum
                       (in_material silicon 1) [silicon_slab] 0 1
                       0.703704 2212 None)
                Hno Hifc (0 + 0.703704) None s' Hloop ltac:(lra))
      as [msg Hmsg].
    exists msg, s'. exact Hmsg.
Defined.

(** ** The loss rate: sign, species and charge *)

(** [ring] and [field] on goals whose type is written [Scalar]; an
    energy [hypot _ _] is taken as an atom. *)
Ltac scalar_atoms :=
  repeat match goal with
         | |- context [hypot ?a ?b] =>
             let h := fresh "h" in generalize (hypot a b); intro h
         end;
  unfold Scalar in *.
Ltac scalar_ring := scalar_atoms; ring.
Ltac scalar_field := scalar_atoms; field.

Lemma ln_le_minus_one (z : R) : 0 < z -> ln z <= z - 1.
Proof.
  intros Hz. pose proof (exp_ineq1_le (ln z)) as H.
  rewrite exp_ln in H by assumption. lra.
Qed.

(** Bernoulli's inequality for a real exponent. *)
Lemma Rpower_Bernoulli (y r : R) :
  0 < y -> 1 <= r -> 1 - r * (1 - y) <= Rpower y r.
Proof.
  intros Hy Hr.
  set (u := Rpower y r).
  assert (Hu : 0 < u) by (unfold u, Rpower; apply exp_pos).
  assert (Hlu : ln u = r * ln y) by (unfold u; apply ln_Rpower).
  assert (Hq : 0 < / y) by (apply Rinv_0_lt_compat; assumption).
  assert (Hqy : / y * y = 1) by (apply Rinv_l; lra).
  pose proof (ln_le_minus_one (u * / y) ltac:(apply Rmult_lt_0_compat; assumption))
    as H1.
  rewrite ln_mult, ln_Rinv, Hlu in H1 by assumption.
  pose proof (ln_le_minus_one (/ y) Hq) as H2.
  rewrite ln_Rinv in H2 by assumption.
  set (L := ln y) in *. set (q := / y) in *.
  assert (H3 : (r - 1) * (- L) <= (r - 1) * (q - 1))
    by (apply Rmult_le_compat_l; lra).
  assert (H4 : 0 <= u * q - 1 + (r - 1) * (q - 1)) by lra.
  assert (H5 : 0 <= (u * q - 1 + (r - 1) * (q - 1)) * y)
    by (apply Rmult_le_pos; lra).
  replace ((u * q - 1 + (r - 1) * (q - 1)) * y)
    with (u * (q * y) - y + (r - 1) * (q * y) - (r - 1) * y) in H5 by scalar_ring.
  rewrite Hqy in H5. lra.
Qed.

Lemma Rpower_le_one (y r : R) : 0 < y <= 1 -> 0 <= r -> Rpower y r <= 1.
Proof.
  intros [Hy Hy1] Hr. unfold Rpower. rewrite <- exp_0.
  assert (Hl : ln y <= 0).
  { rewrite <- ln_1. destruct Hy1 as [Hlt | ->]; [| lra].
    left. apply ln_increasing; assumption. }
  destruct (Req_dec (r * ln y) 0) as [-> | Hne]; [lra |].
  left. apply exp_increasing. nra.
Qed.

(** The correction factor a positron gets in [dEdxBrems], in its general
    branch: [ETA] away from 0 and 1, [E0] between [1e-8] and 1. *)
Lemma positron_factor_range (ETA E0 : R) :
  0.0001 <= ETA <= 0.9999 -> 1e-8 <= E0 <= 1 ->
  0 <= ETA * (1 - c_pow (1 - E0) (1 / ETA)) / E0 <= 1.
Proof.
  intros [He0 He1] [H0 H1].
  assert (Hr : 1 <= 1 / ETA) by (apply le_div; lra).
  assert (Hc : 1 - 1 / ETA * E0 <= c_pow (1 - E0) (1 / ETA) <= 1).
  { unfold c_pow. destruct (Rlt_dec 0 (1 - E0)) as [Hy | Hy].
    - split.
      + pose proof (Rpower_Bernoulli (1 - E0) (1 / ETA) Hy Hr) as Hb.
        replace (1 - (1 - E0)) with E0 in Hb by scalar_ring. exact Hb.
      + apply Rpower_le_one; lra.
    - destruct (Req_dec_T (1 / ETA) 0) as [Hz | _]; [lra |].
      assert (E0 = 1) by lra. subst E0. lra. }
  set (c := c_pow (1 - E0) (1 / ETA)) in *.
  assert (Hre : ETA * (1 / ETA) = 1) by (scalar_field; lra).
  split.
  - apply le_div; [lra |]. nra.
  - apply div_le; [lra |].
    assert (ETA * (1 - c) <= ETA * (1 / ETA * E0))
      by (apply Rmult_le_compat_l; lra).
    nra.
Qed.

Section LossRateFacts.

Context {Oracle : Type} `{ParticleData}.

(** The positron factor of [dEdxBrems], whatever the material, the
    momentum and the cut. *)
Lemma positron_factor_bounds (ETA BCUT mom : R) :
  0 <= (if Rlt_dec ETA 0.0001 then 1e-10
        else if Rlt_dec 0.9999 ETA then 1
        else
          let E0 := BCUT / mom in
          let E0 := if Rlt_dec 1 E0 then 1 else E0 in
          if Rlt_dec E0 1e-8 then 1
          else ETA * (1 - c_pow (1 - E0) (1 / ETA)) / E0) <= 1.
Proof.
  destruct (Rlt_dec ETA 0.0001); [lra |].
  destruct (Rlt_dec 0.9999 ETA); [lra |].
  cbv zeta.
  destruct (Rlt_dec 1 (BCUT / mom));
    match goal with |- context [Rlt_dec ?a 1e-8] => destruct (Rlt_dec a 1e-8) end;
    try lra; apply positron_factor_range; lra.
Qed.

(** [dEdxBrems] splits into the rate common to electron and positron and
    the factor; the rate is floored at zero and the factor lies in
    [[0, 1]], being 1 for the electron. *)
Lemma dEdxBrems_factored (s : MaterialEffects Oracle) (mom : Scalar) (pdg : Z) :
  Z.abs pdg = 11%Z ->
  exists rate factor : R,
    0 <= rate /\ 0 <= factor <= 1 /\
    dEdxBrems s mom pdg = factor * rate /\
    dEdxBrems s mom 11 = rate.
Proof.
  intros Hpdg. unfold dEdxBrems. rewrite Hpdg.
  change (Z.abs 11) with 11%Z. change (negb (11 =? 11)%Z) with false.
  change (11 =? -11)%Z with false. cbv iota.
  lazymatch goal with
  | |- context [let '(a, b) := ?big in _] => destruct big as [d B]
  end.
  set (rate := if Rlt_dec d 0 then 0 else d).
  assert (Hrate : 0 <= rate) by (unfold rate; destruct (Rlt_dec d 0); lra).
  exists rate. eexists. split; [exact Hrate |].
  split; [| split; [reflexivity | cbv zeta; fold rate; lra]].
  destruct (pdg =? -11)%Z; [| lra].
  apply positron_factor_bounds.
Qed.

Lemma dEdxBrems_other_species (s : MaterialEffects Oracle) (mom : Scalar) (pdg : Z) :
  Z.abs pdg <> 11%Z -> dEdxBrems s mom pdg = 0.
Proof.
  intros Hpdg. unfold dEdxBrems.
  destruct (Z.eqb_spec (Z.abs pdg) 11); [contradiction | reflexivity].
Qed.

Lemma dEdxBrems_nonneg (s : MaterialEffects Oracle) (mom : Scalar) (pdg : Z) :
  0 <= dEdxBrems s mom pdg.
Proof.
  destruct (Z.eq_dec (Z.abs pdg) 11) as [Hpdg | Hpdg].
  - destruct (dEdxBrems_factored s mom pdg Hpdg) as (rate & factor & Hr & Hf & -> & _).
    apply Rmult_le_pos; lra.
  - rewrite dEdxBrems_other_species by assumption. lra.
Qed.

(** X1. The radiative loss rate is never negative; the positron's never
    exceeds the electron's at the same momentum in the same material; and
    it is zero for every other species. *)
Theorem dEdxBrems_positron_at_most_electron
  (s : MaterialEffects Oracle) (mom : Scalar) :
  0 <= dEdxBrems s mom (-11) <= dEdxBrems s mom 11 /\
  (forall pdg : Z, 0 <= dEdxBrems s mom pdg) /\
  (forall pdg : Z, Z.abs pdg <> 11%Z -> dEdxBrems s mom pdg = 0).
Proof.
  split; [| split].
  - destruct (dEdxBrems_factored s mom (-11) eq_refl)
      as (rate & factor & Hr & Hf & -> & ->).
    split; [apply Rmult_le_pos; lra | nra].
  - intros pdg. apply dEdxBrems_nonneg.
  - intros pdg. apply dEdxBrems_other_species.
Qed.

Lemma dEdxBetheBloch_nonneg (s : MaterialEffects Oracle)
  (betaSquare gamma gammaSquare mass : Scalar) (charge : Z) (r : Scalar) :
  dEdxBetheBloch s betaSquare gamma gammaSquare mass charge = Ret r -> 0 <= r.
Proof.
  unfold dEdxBetheBloch. destruct (Rlt_dec _ _); [discriminate |].
  intros E; injection E as <-.
  match goal with |- 0 <= (if ?c then _ else _) => destruct c end; lra.
Qed.

Lemma dEdx_nonneg (s : MaterialEffects Oracle) (energy mass : Scalar)
  (charge pdg : Z) (r : Scalar) :
  dEdx s energy mass charge pdg = Ret r -> 0 <= r.
Proof.
  unfold dEdx. destruct (Rle_dec energy mass); [discriminate |].
  pose proof (dEdxBrems_nonneg s
                (energy * sqrt (1 - 1 / (energy / mass * (energy / mass)))) pdg)
    as Hb.
  destruct (energyLossBetheBloch_ s).
  - destruct (dEdxBetheBloch s _ _ _ mass charge) as [v | e] eqn:Ebb;
      [| discriminate].
    apply dEdxBetheBloch_nonneg in Ebb.
    intros E; injection E as <-. destruct (energyLossBrems_ s); lra.
  - intros E; injection E as <-. destruct (energyLossBrems_ s); lra.
Qed.

(** The mean rate [momentumLoss] leaves in [dEdx_] is never negative. *)
Lemma momentumLoss_rate_nonneg (s s' : MaterialEffects Oracle)
  (stepSign mom : Scalar) (linear : bool) (pdg : Z) (loss : Scalar) :
  momentumLoss stepSign mom linear pdg s = (Ret loss, s') -> 0 <= dEdx_ s'.
Proof.
  unfold momentumLoss, bind, lift, get, modify, ret.
  destruct (dEdx s _ _ _ pdg) as [d1 | e1] eqn:E1; [| discriminate].
  apply dEdx_nonneg in E1.
  destruct linear.
  - match goal with
    | |- context [Rle_dec ?a ?b] => destruct (Rle_dec a b)
    end; intros E; injection E as <- <-; cbn [dEdx_ set_E_ set_dEdx_]; lra.
  - destruct (dEdx s _ _ _ pdg) as [d2 | e2] eqn:E2; [| discriminate].
    apply dEdx_nonneg in E2.
    destruct (dEdx s _ _ _ pdg) as [d3 | e3] eqn:E3; [| discriminate].
    apply dEdx_nonneg in E3.
    destruct (dEdx s _ _ _ pdg) as [d4 | e4] eqn:E4; [| discriminate].
    apply dEdx_nonneg in E4.
    match goal with
    | |- context [Rle_dec ?a ?b] => destruct (Rle_dec a b)
    end; intros E; injection E as <- <-; cbn [dEdx_ set_E_ set_dEdx_]; lra.
Qed.

Lemma sqrt_hypot_minus (mom mass : Scalar) :
  0 <= mom -> sqrt (hypot mom mass ^ 2 - mass * mass) = mom.
Proof.
  intros Hmom.
  replace (hypot mom mass ^ 2) with (hypot mom mass * hypot mom mass) by scalar_ring.
  rewrite hypot_sqr.
  replace (mom * mom + mass * mass - mass * mass) with (mom * mom) by scalar_ring.
  apply sqrt_square. assumption.
Qed.

(** X2. What [momentumLoss] stores and returns, whatever the step: the
    mean rate left in [dEdx_] is never negative; the loss returned never
    exceeds the momentum; and for a step length that is not negative the
    mid-step energy left in [E_] is on the side of the step, at most the
    incoming energy on a forward step ([stepSign = 1]) and at least the
    incoming energy on a backward one ([stepSign = -1]).  Each of the
    three is an order between a computed value and one of its operands,
    which rounding keeps. *)
Theorem momentumLoss_rate_never_negative (s s' : MaterialEffects Oracle)
  (stepSign mom : Scalar) (linear : bool) (pdg : Z) (loss : Scalar) :
  0 < getParticleMass pdg -> 0 <= stepSize_ s ->
  momentumLoss stepSign mom linear pdg s = (Ret loss, s') ->
  0 <= dEdx_ s' /\
  loss <= mom /\
  (stepSign = 1 -> E_ s' <= hypot mom (getParticleMass pdg)) /\
  (stepSign = - 1 -> hypot mom (getParticleMass pdg) <= E_ s').
Proof.
  intros Hmass Hstep Hret.
  pose proof (momentumLoss_rate_nonneg _ _ _ _ _ _ _ Hret) as Hd.
  destruct (momentumLoss_inv _ _ _ _ _ _ _ Hret) as (_ & HE & Hloss).
  assert (HdE : 0 <= dEdx_ s' * stepSize_ s) by (apply Rmult_le_pos; assumption).
  split; [exact Hd | split; [| split]].
  - rewrite Hloss. destruct (Rle_dec _ _); [lra |].
    match goal with |- _ - sqrt ?a <= _ => pose proof (sqrt_pos a) end. lra.
  - intros ->. rewrite HE.
    replace (dEdx_ s' * (stepSize_ s * 1) * 0.5)
      with (dEdx_ s' * stepSize_ s * 0.5) by scalar_ring.
    lra.
  - intros ->. rewrite HE.
    replace (dEdx_ s' * (stepSize_ s * - 1) * 0.5)
      with (- (dEdx_ s' * stepSize_ s * 0.5)) by scalar_ring.
    lra.
Qed.

(** A forward step at a positive rate loses momentum. *)
Lemma momentumLoss_forward_positive (s s' : MaterialEffects Oracle)
  (mom : Scalar) (linear : bool) (pdg : Z) (loss : Scalar) :
  0 < mom -> 0 < stepSize_ s -> 0 <= getParticleMass pdg ->
  momentumLoss 1 mom linear pdg s = (Ret loss, s') -> 0 < dEdx_ s' ->
  0 < loss.
Proof.
  intros Hmom Hstep Hmass Hret Hd.
  destruct (momentumLoss_inv _ _ _ _ _ _ _ Hret) as (_ & _ & Hloss).
  set (mass := getParticleMass pdg) in *.
  set (E0 := hypot mom mass) in *.
  pose proof (sqrt_hypot_minus mom mass ltac:(lra)) as Hroot. fold E0 in Hroot.
  replace (stepSize_ s * 1 * dEdx_ s') with (stepSize_ s * dEdx_ s')
    in Hloss by scalar_ring.
  assert (HdE : 0 < stepSize_ s * dEdx_ s') by (apply Rmult_lt_0_compat; assumption).
  destruct (Rle_dec (E0 - stepSize_ s * dEdx_ s') mass) as [Hle | Hgt]; [lra |].
  assert (Hrt : sqrt ((E0 - stepSize_ s * dEdx_ s') ^ 2 - mass * mass) < mom).
  { rewrite <- Hroot. apply sqrt_lt_1_alt. split; nra. }
  lra.
Qed.

(** When the rate at the incoming energy cannot be evaluated,
    [momentumLoss] throws what [dEdx] threw and writes nothing. *)
Lemma momentumLoss_first_rate_throws (s : MaterialEffects Oracle)
  (stepSign mom : Scalar) (linear : bool) (pdg : Z) (e : exn) :
  dEdx s (hypot mom (getParticleMass pdg)) (getParticleMass pdg)
       (getParticleCharge pdg) pdg = Throw e ->
  momentumLoss stepSign mom linear pdg s = (Throw e, s).
Proof.
  intros Hd. unfold momentumLoss, bind, lift, get. rewrite Hd. reflexivity.
Qed.

(** A momentum below a twentieth of the mass is below the Bethe-Bloch
    floor. *)
Lemma betaGamma_hypot_lt (mom mass : Scalar) :
  0 < mass -> 0 < mom < 0.05 * mass ->
  betaGamma (hypot mom mass) mass < 0.05.
Proof.
  intros Hm Hmom.
  assert (Hlt : mass < hypot mom mass) by (apply hypot_gt; lra).
  apply betaGamma_lt; try assumption.
  replace (hypot mom mass / mass * (hypot mom mass / mass))
    with ((hypot mom mass * hypot mom mass) / (mass * mass))
    by (scalar_field; lra).
  rewrite hypot_sqr.
  replace ((mom * mom + mass * mass) / (mass * mass) - 1)
    with ((mom / mass) * (mom / mass)) by (scalar_field; lra).
  assert (0 < mom / mass) by (apply Rdiv_lt_0_compat; lra).
  assert (mom / mass < 0.05) by (apply div_lt; lra).
  nra.
Qed.

(** X3. A step of length zero.  All four stages of the estimate then
    evaluate the rate at the incoming energy, so [momentumLoss] returns
    as soon as that rate can be evaluated, in both modes: no later stage
    can throw.  It stores the incoming energy in [E_] and, in [dEdx_],
    the rate itself in the linear mode and the mean
    [(d + 2 d + 2 d + d) / 6] of four equal rates otherwise. *)
Theorem momentumLoss_zero_step (s : MaterialEffects Oracle)
  (stepSign mom : Scalar) (linear : bool) (pdg : Z) (d : Scalar) :
  stepSize_ s = 0 ->
  dEdx s (hypot mom (getParticleMass pdg)) (getParticleMass pdg)
       (getParticleCharge pdg) pdg = Ret d ->
  exists (loss : Scalar) (s' : MaterialEffects Oracle),
    momentumLoss stepSign mom linear pdg s = (Ret loss, s') /\
    E_ s' = hypot mom (getParticleMass pdg) /\
    dEdx_ s' = (if linear then d else (d + 2 * d + 2 * d + d) / 6).
Proof.
  intros Hstep Hd. unfold momentumLoss, bind, lift, get, modify, ret.
  rewrite Hstep, Hd. destruct linear.
  - match goal with
    | |- context [Rle_dec ?a ?b] => destruct (Rle_dec a b)
    end; eexists; eexists; (split; [reflexivity |]);
      cbn [dEdx_ E_ set_E_ set_dEdx_]; (split; [scalar_ring | reflexivity]).
  - assert (Ha : forall a : R,
              hypot mom (getParticleMass pdg) - a * (0 * stepSign) / 2
              = hypot mom (getParticleMass pdg))
      by (intros a; unfold Rdiv; scalar_ring).
    assert (Hb : forall a : R,
              hypot mom (getParticleMass pdg) - a * (0 * stepSign)
              = hypot mom (getParticleMass pdg))
      by (intros a; scalar_ring).
    rewrite Ha, Hd, Ha, Hd, Hb, Hd.
    match goal with
    | |- context [Rle_dec ?a ?b] => destruct (Rle_dec a b)
    end; eexists; eexists; (split; [reflexivity |]);
      cbn [dEdx_ E_ set_E_ set_dEdx_]; (split; [scalar_ring | reflexivity]).
Qed.

(** X4. With the four-stage estimate a step too long for the second
    evaluation is not turned into a stop: when the mid-step energy
    [E0 - dEdx1 * step / 2] is at most the rest mass, [momentumLoss]
    throws the fatal "Energy <= mass" [Exception] of [dEdx] and the object
    is left as it was. *)
Theorem momentumLoss_RK4_long_step_throws (s : MaterialEffects Oracle)
  (stepSign mom : Scalar) (pdg : Z) (dEdx1 : Scalar) :
  dEdx s (hypot mom (getParticleMass pdg)) (getParticleMass pdg)
       (getParticleCharge pdg) pdg = Ret dEdx1 ->
  hypot mom (getParticleMass pdg) - dEdx1 * (stepSize_ s * stepSign) / 2
  <= getParticleMass pdg ->
  momentumLoss stepSign mom false pdg s
  = (Throw (Exception "MaterialEffects::dEdx - Energy <= mass" true), s).
Proof.
  intros H1 Hle. unfold momentumLoss, bind, lift, get.
  rewrite H1. rewrite dEdx_energy_le_mass by assumption. reflexivity.
Qed.

Lemma dEdx_heavy_no_ionisation (s : MaterialEffects Oracle)
  (energy mass : Scalar) (charge pdg : Z) :
  energyLossBetheBloch_ s = false -> Z.abs pdg <> 11%Z -> mass < energy ->
  dEdx s energy mass charge pdg = Ret 0.
Proof.
  intros Hbb Hpdg He. unfold dEdx.
  destruct (Rle_dec energy mass); [lra |].
  rewrite Hbb. rewrite dEdxBrems_other_species by assumption.
  destruct (energyLossBrems_ s); [apply f_equal; lra | reflexivity].
Qed.

(** X5. With the Bethe-Bloch switch off, a particle other than an
    electron or positron has no loss rate: whenever its energy
    [hypot mom mass] is above its mass, for any step and in both modes,
    [momentumLoss] returns, whatever [energyLossBrems_] says, and stores
    a rate of exactly zero in [dEdx_] and the incoming energy in [E_]. *)
Theorem momentumLoss_heavy_without_ionisation (s : MaterialEffects Oracle)
  (stepSign mom : Scalar) (linear : bool) (pdg : Z) :
  energyLossBetheBloch_ s = false -> Z.abs pdg <> 11%Z ->
  getParticleMass pdg < hypot mom (getParticleMass pdg) ->
  exists (loss : Scalar) (s' : MaterialEffects Oracle),
    momentumLoss stepSign mom linear pdg s = (Ret loss, s') /\
    dEdx_ s' = 0 /\ E_ s' = hypot mom (getParticleMass pdg).
Proof.
  intros Hbb Hpdg HE0.
  unfold momentumLoss, bind, lift, get, modify, ret.
  rewrite (dEdx_heavy_no_ionisation s _ _ _ pdg Hbb Hpdg HE0).
  set (mass := getParticleMass pdg) in *.
  set (E0 := hypot mom mass) in *.
  destruct linear.
  - cbn [dEdx_ set_E_ set_dEdx_ E_].
    destruct (Rle_dec (E0 - stepSize_ s * stepSign * 0) mass) as [Hle | _];
      [lra |].
    eexists; eexists. split; [reflexivity |].
    split; [reflexivity | cbn [E_ set_E_]; lra].
  - rewrite (dEdx_heavy_no_ionisation s _ _ _ pdg Hbb Hpdg) by lra.
    rewrite (dEdx_heavy_no_ionisation s _ _ _ pdg Hbb Hpdg) by lra.
    rewrite (dEdx_heavy_no_ionisation s _ _ _ pdg Hbb Hpdg) by lra.
    cbn [dEdx_ set_E_ set_dEdx_ E_].
    destruct (Rle_dec _ mass) as [Hle | _]; [lra |].
    eexists; eexists. split; [reflexivity |].
    split; [cbn [dEdx_ set_E_ set_dEdx_]; lra | cbn [E_ set_E_]; lra].
Qed.

(** X6. The Bethe-Bloch rate of a particle of charge [q] is [q * q]
    times the rate of a unit charge, the validity guard being the same;
    in particular it is the same for [q] and [- q]. *)
Theorem dEdxBetheBloch_scales_with_charge_square (s : MaterialEffects Oracle)
  (betaSquare gamma gammaSquare mass : Scalar) (charge : Z) :
  dEdxBetheBloch s betaSquare gamma gammaSquare mass charge
  = match dEdxBetheBloch s betaSquare gamma gammaSquare mass 1 with
    | Ret r => Ret (IZR charge * IZR charge * r)
    | Throw e => Throw e
    end /\
  dEdxBetheBloch s betaSquare gamma gammaSquare mass (- charge)
  = dEdxBetheBloch s betaSquare gamma gammaSquare mass charge.
Proof.
  split.
  - unfold dEdxBetheBloch.
    destruct (Rlt_dec (betaSquare * gammaSquare) (0.05 * 0.05)); [reflexivity |].
    cbv zeta. apply f_equal.
    set (K := 0.307075 * matZ_ s / matA_ s * matDensity_ s / betaSquare).
    set (L := ln _ - betaSquare).
    assert (Hq : 0 <= IZR charge * IZR charge) by nra.
    set (q2 := IZR charge * IZR charge) in *.
    replace (K * IZR charge * IZR charge * L * 1e-3) with (q2 * (K * L * 1e-3))
      by (unfold q2; scalar_ring).
    replace (K * 1 * 1 * L * 1e-3) with (K * L * 1e-3) by scalar_ring.
    set (v := K * L * 1e-3).
    destruct (Rlt_dec (q2 * v) 0), (Rlt_dec v 0); try scalar_ring; nra.
  - unfold dEdxBetheBloch. rewrite opp_IZR.
    replace (0.307075 * matZ_ s / matA_ s * matDensity_ s / betaSquare
             * - IZR charge * - IZR charge)
      with (0.307075 * matZ_ s / matA_ s * matDensity_ s / betaSquare
            * IZR charge * IZR charge) by scalar_ring.
    reflexivity.
Qed.

End LossRateFacts.

(** ** The segment-effects entry point: what it keeps and how it composes *)

(** The next evaluation of the rate in the goal, by cases on its outcome. *)
Tactic Notation "next_dEdx" ident(d) ident(e) ident(E) :=
  match goal with
  | |- context [dEdx ?s ?en ?m ?c ?p] =>
      destruct (dEdx s en m c p) as [d | e] eqn:E
  end.

Section EffectsFrame.

Context {Oracle : Type} `{ParticleData}.

Lemma same_configuration_refl (s : MaterialEffects Oracle) :
  same_configuration s s.
Proof. repeat split. Qed.

Lemma same_configuration_trans (s1 s2 s3 : MaterialEffects Oracle) :
  same_configuration s1 s2 -> same_configuration s2 s3 ->
  same_configuration s1 s3.
Proof.
  unfold same_configuration.
  intros (a1 & a2 & a3 & a4 & a5 & a6 & a7 & a8 & a9 & a10)
         (b1 & b2 & b3 & b4 & b5 & b6 & b7 & b8 & b9 & b10).
  repeat split; congruence.
Qed.

(** [momentumLoss] writes [dEdx_] and [E_] and nothing else; when it
    throws it has written nothing. *)
Lemma momentumLoss_state (s : MaterialEffects Oracle)
  (stepSign mom : Scalar) (linear : bool) (pdg : Z) :
  (exists e, momentumLoss stepSign mom linear pdg s = (Throw e, s)) \/
  (exists (loss d en : Scalar),
     momentumLoss stepSign mom linear pdg s
     = (Ret loss, set_E_ en (set_dEdx_ d s))).
Proof.
  unfold momentumLoss, bind, lift, get, modify, ret.
  destruct (dEdx s _ _ _ pdg) as [d1 | e1]; [| left; eexists; reflexivity].
  destruct linear.
  - right.
    match goal with |- context [Rle_dec ?a ?b] => destruct (Rle_dec a b) end;
      do 3 eexists; reflexivity.
  - destruct (dEdx s _ _ _ pdg) as [d2 | e2]; [| left; eexists; reflexivity].
    destruct (dEdx s _ _ _ pdg) as [d3 | e3]; [| left; eexists; reflexivity].
    destruct (dEdx s _ _ _ pdg) as [d4 | e4]; [| left; eexists; reflexivity].
    right.
    match goal with |- context [Rle_dec ?a ?b] => destruct (Rle_dec a b) end;
      do 3 eexists; reflexivity.
Qed.

(** The object after one turn of the loop: untouched for a skipped
    sub-step; otherwise the step length and the material of the sub-step
    are written and, past [momentumLoss], [dEdx_] and [E_]. *)
Lemma effects_step_state (mom : Scalar) (pdg : Z) (mass : Scalar)
  (it : RKStep) (acc : Scalar * option M7x7) (s : MaterialEffects Oracle) :
  (substantial it = false /\ effects_step mom pdg mass it acc s = (Ret acc, s)) \/
  (substantial it = true /\
   let s2 := set_material (MatStep.materialProperties_ (matStep_ it))
               (set_stepSize_ (Rabs (MatStep.stepSize_ (matStep_ it))) s) in
   snd (effects_step mom pdg mass it acc s) = s2 \/
   exists d en : Scalar,
     snd (effects_step mom pdg mass it acc s) = set_E_ en (set_dEdx_ d s2)).
Proof.
  destruct acc as [momLoss noise]. unfold effects_step, substantial.
  destruct (Rlt_dec (Rabs (MatStep.stepSize_ (matStep_ it))) 1e-8);
    [left; split; reflexivity | right; split; [reflexivity |]].
  cbv zeta. unfold bind, modify, get, lift, ret, throw. cbv beta.
  set (s2 := set_material _ (set_stepSize_ _ s)).
  destruct (Rlt_dec 1e-3 (matZ_ s2)); [| left; reflexivity].
  match goal with
  | |- context [momentumLoss ?sg ?m false pdg s2] =>
      destruct (momentumLoss_state s2 sg m false pdg)
        as [[e He] | (loss & d & en & Hr)]
  end.
  - rewrite He. left; reflexivity.
  - rewrite Hr. right. exists d, en.
    destruct noise as [noise |]; [| reflexivity].
    destruct (Rle_dec _ mass); [reflexivity |].
    destruct (noiseCoulomb_ _); [| reflexivity].
    destruct (noiseCoulomb _ _ _ _ _ pdg); reflexivity.
Qed.

Lemma effects_step_configuration (mom : Scalar) (pdg : Z) (mass : Scalar)
  (it : RKStep) (acc : Scalar * option M7x7) (s : MaterialEffects Oracle) :
  same_configuration s (snd (effects_step mom pdg mass it acc s)).
Proof.
  destruct (effects_step_state mom pdg mass it acc s)
    as [[_ ->] | [_ [-> | (d & en & ->)]]]; repeat split.
Qed.

Lemma effects_loop_configuration (mom : Scalar) (pdg : Z) (mass : Scalar)
  (its : list RKStep) :
  forall (acc : Scalar * option M7x7) (s : MaterialEffects Oracle),
    same_configuration s (snd (effects_loop mom pdg mass its acc s)).
Proof.
  induction its as [| it its IH]; intros acc s.
  - apply same_configuration_refl.
  - cbn [effects_loop]. unfold bind.
    pose proof (effects_step_configuration mom pdg mass it acc s) as Hstep.
    destruct (effects_step mom pdg mass it acc s) as [[acc' | e] s1].
    + eapply same_configuration_trans; [exact Hstep | apply IH].
    + exact Hstep.
Qed.

Lemma effects_configuration (steps : list RKStep)
  (materialsFXStart materialsFXStop : Z) (mom : Scalar) (pdg : Z)
  (noise : option M7x7) (s : MaterialEffects Oracle) :
  same_configuration s
    (snd (effects steps materialsFXStart materialsFXStop mom pdg noise s)).
Proof.
  unfold effects, bind at 1, get.
  destruct (noEffects_ s); [apply same_configuration_refl |].
  destruct (materialInterface_ s); [| apply same_configuration_refl].
  unfold bind.
  pose proof (effects_loop_configuration mom pdg (getParticleMass pdg)
                (steps_range steps materialsFXStart materialsFXStop)
                (0, noise) s) as Hloop.
  destruct (effects_loop _ _ _ _ _ s) as [[[momLoss noise'] | e] s1];
    [| exact Hloop].
  destruct (Rge_dec momLoss mom); exact Hloop.
Qed.

(** X7. [effects] and [momentumLoss] never touch the configuration:
    whatever the arguments and whether the call returns or throws, the
    switches, the scattering model, the oracle handle and the debug level
    are afterwards what they were before. *)
Theorem effects_keeps_configuration (s : MaterialEffects Oracle) :
  (forall (steps : list RKStep) (materialsFXStart materialsFXStop : Z)
          (mom : Scalar) (pdg : Z) (noise : option M7x7),
     same_configuration s
       (snd (effects steps materialsFXStart materialsFXStop mom pdg noise s))) /\
  (forall (stepSign mom : Scalar) (linear : bool) (pdg : Z),
     same_configuration s (snd (momentumLoss stepSign mom linear pdg s))).
Proof.
  split.
  - intros. apply effects_configuration.
  - intros stepSign mom linear pdg.
    destruct (momentumLoss_state s stepSign mom linear pdg)
      as [[e ->] | (loss & d & en & ->)]; repeat split.
Qed.

Lemma steps_range_whole (its : list RKStep) :
  steps_range its 0 (Z.of_nat (List.length its)) = its.
Proof.
  unfold steps_range. rewrite Z.sub_0_r, Nat2Z.id.
  change (Z.to_nat 0) with 0%nat. cbn [skipn]. apply firstn_all.
Qed.

Lemma steps_range_split (steps : list RKStep) (a b c : Z) :
  (0 <= a <= b)%Z -> (b <= c)%Z ->
  steps_range steps a c = (steps_range steps a b ++ steps_range steps b c)%list.
Proof.
  intros Hab Hbc. unfold steps_range.
  replace (Z.to_nat (c - a)) with (Z.to_nat (b - a) + Z.to_nat (c - b))%nat
    by lia.
  replace (Z.to_nat b) with (Z.to_nat (b - a) + Z.to_nat a)%nat by lia.
  rewrite <- skipn_skipn.
  generalize (skipn (Z.to_nat a) steps) as l.
  generalize (Z.to_nat (c - b)) as m.
  induction (Z.to_nat (b - a)) as [| n IH]; intros m l.
  - reflexivity.
  - destruct l as [| x l].
    + cbn. rewrite firstn_nil. reflexivity.
    + cbn [Nat.add firstn skipn app]. rewrite IH. reflexivity.
Qed.

Lemma effects_loop_app (mom : Scalar) (pdg : Z) (mass : Scalar)
  (l1 l2 : list RKStep) :
  forall (acc : Scalar * option M7x7) (s : MaterialEffects Oracle),
    effects_loop mom pdg mass (l1 ++ l2) acc s
    = match effects_loop mom pdg mass l1 acc s with
      | (Ret acc', s') => effects_loop mom pdg mass l2 acc' s'
      | (Throw e, s') => (Throw e, s')
      end.
Proof.
  induction l1 as [| it l1 IH]; intros acc s.
  - reflexivity.
  - cbn [app effects_loop]. unfold bind.
    destruct (effects_step mom pdg mass it acc s) as [[acc' | e] s1];
      [apply IH | reflexivity].
Qed.

(** A skipped sub-step is a turn of the loop that does nothing. *)
Lemma effects_loop_filter (mom : Scalar) (pdg : Z) (mass : Scalar)
  (its : list RKStep) :
  forall (acc : Scalar * option M7x7) (s : MaterialEffects Oracle),
    effects_loop mom pdg mass (filter substantial its) acc s
    = effects_loop mom pdg mass its acc s.
Proof.
  induction its as [| it its IH]; intros acc s.
  - reflexivity.
  - cbn [filter effects_loop].
    destruct (effects_step_state mom pdg mass it acc s)
      as [[Hsub Hskip] | [Hsub _]]; rewrite Hsub.
    + unfold bind. rewrite Hskip. apply IH.
    + cbn [effects_loop]. unfold bind.
      destruct (effects_step mom pdg mass it acc s) as [[acc' | e] s1];
        [apply IH | reflexivity].
Qed.

(** X8. Sub-steps shorter than [1e-8] are no part of the computation:
    [effects] over a range gives the outcome and leaves the object it
    would give and leave over the same range with those sub-steps taken
    out. *)
Theorem effects_drops_negligible_substeps (steps : list RKStep)
  (materialsFXStart materialsFXStop : Z) (mom : Scalar) (pdg : Z)
  (noise : option M7x7) (s : MaterialEffects Oracle) :
  let kept := filter substantial
                (steps_range steps materialsFXStart materialsFXStop) in
  effects steps materialsFXStart materialsFXStop mom pdg noise s
  = effects kept 0 (Z.of_nat (List.length kept)) mom pdg noise s.
Proof.
  intros kept. unfold effects, bind at 1 3, get.
  destruct (noEffects_ s); [reflexivity |].
  destruct (materialInterface_ s); [| reflexivity].
  rewrite steps_range_whole. unfold bind, kept.
  rewrite effects_loop_filter. reflexivity.
Qed.

Lemma effects_step_shift (mom l0 : Scalar) (pdg : Z) (mass : Scalar)
  (it : RKStep) (l : Scalar) (noise : option M7x7)
  (s : MaterialEffects Oracle) :
  effects_step mom pdg mass it (l0 + l, noise) s
  = shift_loss l0 (effects_step (mom - l0) pdg mass it (l, noise) s).
Proof.
  unfold effects_step.
  destruct (Rlt_dec (Rabs (MatStep.stepSize_ (matStep_ it))) 1e-8);
    [reflexivity |].
  cbv zeta. unfold bind, modify, get, lift, ret, throw. cbv beta.
  set (s2 := set_material _ (set_stepSize_ _ s)).
  destruct (Rlt_dec 1e-3 (matZ_ s2)); [| reflexivity].
  replace (mom - (l0 + l)) with (mom - l0 - l) by (unfold Scalar in *; ring).
  destruct (momentumLoss _ (mom - l0 - l) false pdg s2) as [[dp | e] s3];
    [| reflexivity].
  cbn [shift_loss].
  replace (l0 + l + dp) with (l0 + (l + dp)) by (unfold Scalar in *; ring).
  destruct noise as [noise |]; [| reflexivity].
  destruct (Rle_dec (E_ s3) mass); [reflexivity |].
  destruct (noiseCoulomb_ s3); [| reflexivity].
  destruct (noiseCoulomb s3 _ _ _ _ pdg); reflexivity.
Qed.

Lemma effects_loop_shift (mom l0 : Scalar) (pdg : Z) (mass : Scalar)
  (its : list RKStep) :
  forall (l : Scalar) (noise : option M7x7) (s : MaterialEffects Oracle),
    effects_loop mom pdg mass its (l0 + l, noise) s
    = shift_loss l0 (effects_loop (mom - l0) pdg mass its (l, noise) s).
Proof.
  induction its as [| it its IH]; intros l noise s.
  - reflexivity.
  - cbn [effects_loop]. unfold bind. rewrite effects_step_shift.
    destruct (effects_step (mom - l0) pdg mass it (l, noise) s)
      as [[[l' n'] | e] s1]; cbn [shift_loss]; [apply IH | reflexivity].
Qed.

(** X9. Cutting a segment in two.  If [effects] over the sub-steps
    from [a] to [b] returns the loss [l1], and [effects] over the
    sub-steps from [b] to [c], called on the object and the matrix the
    first call left and with the momentum [mom - l1] that is left, returns
    [l2], then [effects] over the sub-steps from [a] to [c] returns
    [l1 + l2] with the same matrix and leaves the same object. *)
Theorem effects_over_split_segment (steps : list RKStep) (a b c : Z)
  (mom : Scalar) (pdg : Z) (noise noise1 noise2 : option M7x7)
  (l1 l2 : Scalar) (s s1 s2 : MaterialEffects Oracle) :
  (0 <= a <= b)%Z -> (b <= c <= Z.of_nat (List.length steps))%Z ->
  effects steps a b mom pdg noise s = (Ret (l1, noise1), s1) ->
  effects steps b c (mom - l1) pdg noise1 s1 = (Ret (l2, noise2), s2) ->
  effects steps a c mom pdg noise s = (Ret (l1 + l2, noise2), s2).
Proof.
  intros Hab [Hbc _] H1 H2.
  pose proof (effects_configuration steps a b mom pdg noise s) as Hcfg.
  rewrite H1 in Hcfg. cbn [snd] in Hcfg.
  destruct Hcfg as (Hno & _ & _ & _ & _ & _ & _ & _ & Hifc & _).
  unfold effects in H1, H2 |- *.
  unfold bind at 1 in H1. unfold bind at 1 in H2. unfold bind at 1.
  unfold get, ret, throw in H1, H2 |- *.
  rewrite Hno in H2. rewrite Hifc in H2.
  destruct (noEffects_ s).
  - injection H1 as <- <- <-. injection H2 as <- <- <-.
    apply f_equal2; [| reflexivity]. apply f_equal.
    apply f_equal2; [lra | reflexivity].
  - destruct (materialInterface_ s) as [o |]; [| discriminate].
    unfold bind in H1, H2 |- *.
    rewrite (steps_range_split steps a b c Hab Hbc), effects_loop_app.
    destruct (effects_loop mom pdg _ (steps_range steps a b) (0, noise) s)
      as [[[L1 n1] | e] t1]; [| discriminate].
    destruct (Rge_dec L1 mom) as [| Hlt1]; [discriminate |].
    injection H1 as -> -> ->.
    match type of H2 with
    | context [effects_loop ?m ?p ?ms ?l ?acc ?st] =>
        destruct (effects_loop m p ms l acc st) as [[[L2 n2] | e] t2] eqn:E2
    end; [| discriminate].
    destruct (Rge_dec L2 (mom - l1)) as [| Hlt2]; [discriminate |].
    injection H2 as -> -> ->.
    match goal with
    | |- context [effects_loop mom ?p ?ms ?l ?acc ?st] =>
        replace (effects_loop mom p ms l acc st)
          with (@Ret (Scalar * option M7x7) (l1 + l2, noise2), s2)
    end.
    + destruct (Rge_dec (l1 + l2) mom); [lra | reflexivity].
    + symmetry.
      transitivity (effects_loop mom pdg (getParticleMass pdg)
                      (steps_range steps b c) (l1 + 0, noise1) s1).
      * apply f_equal2; [| reflexivity]. apply f_equal2; [| reflexivity].
        symmetry. apply Rplus_0_r.
      * rewrite effects_loop_shift.
        transitivity (shift_loss l1
                        (@Ret (Scalar * option M7x7) (l2, noise2), s2));
          [apply f_equal; exact E2 | reflexivity].
Qed.

Lemma material_eta (m : MaterialProperties) :
  mkMaterialProperties (density_ m) (Z_ m) (A_ m) (radiationLength_mp m)
    (mEE_mp m) = m.
Proof. destruct m; reflexivity. Qed.

Lemma effects_step_holds_substep (mom : Scalar) (pdg : Z) (mass : Scalar)
  (it : RKStep) (acc : Scalar * option M7x7) (s : MaterialEffects Oracle) :
  substantial it = true ->
  holds_substep it (snd (effects_step mom pdg mass it acc s)).
Proof.
  intros Hsub.
  destruct (effects_step_state mom pdg mass it acc s)
    as [[Hneg _] | [_ [-> | (d & en & ->)]]]; [congruence | |];
    (split; [reflexivity | apply material_eta]).
Qed.

Lemma effects_loop_holds_substep (mom : Scalar) (pdg : Z) (mass : Scalar)
  (its : list RKStep) :
  forall (acc r : Scalar * option M7x7) (s s' : MaterialEffects Oracle)
         (o : option RKStep),
    effects_loop mom pdg mass its acc s = (Ret r, s') ->
    match o with Some it => holds_substep it s | None => s = s end ->
    match fold_left (fun (acc : option RKStep) (it : RKStep) =>
                       if substantial it then Some it else acc) its o
    with
    | Some it => holds_substep it s'
    | None => s' = s
    end.
Proof.
  induction its as [| it its IH]; intros acc r s s' o Hret Ho.
  - injection Hret as _ <-. cbn. destruct o; [assumption | reflexivity].
  - cbn [effects_loop fold_left] in Hret |- *. unfold bind in Hret.
    destruct (effects_step_state mom pdg mass it acc s)
      as [[Hsub Hskip] | [Hsub _]]; rewrite Hsub.
    + rewrite Hskip in Hret. apply (IH acc r s s' o Hret Ho).
    + pose proof (effects_step_holds_substep mom pdg mass it acc s Hsub) as Hit.
      destruct (effects_step mom pdg mass it acc s) as [[acc' | e] s1];
        [| discriminate].
      cbn [snd] in Hit.
      pose proof (IH acc' r s1 s' (Some it) Hret Hit) as Hfin.
      assert (Hsome : exists it', fold_left
                (fun (acc : option RKStep) (it : RKStep) =>
                   if substantial it then Some it else acc) its (Some it)
                = Some it').
      { clear. revert it. induction its as [| x its IH']; intros it.
        - exists it. reflexivity.
        - cbn [fold_left]. destruct (substantial x); apply IH'. }
      destruct Hsome as [it' Eit']. rewrite Eit' in Hfin |- *. exact Hfin.
Qed.

(** X10. What [effects] leaves in the scratch fields.  After a call
    that returns, with material effects enabled, the step length and the
    five material fields are those of the last sub-step of the range that
    was not skipped, vacuum or not; with no such sub-step the object is
    what it was. *)
Theorem effects_leaves_last_substep (steps : list RKStep)
  (materialsFXStart materialsFXStop : Z) (mom : Scalar) (pdg : Z)
  (noise : option M7x7) (r : Scalar * option M7x7)
  (s s' : MaterialEffects Oracle) :
  noEffects_ s = false ->
  effects steps materialsFXStart materialsFXStop mom pdg noise s = (Ret r, s') ->
  match last_substantial (steps_range steps materialsFXStart materialsFXStop)
  with
  | Some it => holds_substep it s'
  | None => s' = s
  end.
Proof.
  intros Hno Hret. unfold effects, bind at 1, get in Hret. rewrite Hno in Hret.
  destruct (materialInterface_ s); [| discriminate].
  unfold bind in Hret.
  destruct (effects_loop _ _ _ _ _ s) as [[[momLoss noise'] | e] s1] eqn:Eloop;
    [| discriminate].
  destruct (Rge_dec momLoss mom); [discriminate |].
  injection Hret as _ <-.
  apply (effects_loop_holds_substep _ _ _ _ _ _ _ _ None Eloop eq_refl).
Qed.

Lemma dEdx_throw_fatal (s : MaterialEffects Oracle) (energy mass : Scalar)
  (charge pdg : Z) (e : exn) :
  dEdx s energy mass charge pdg = Throw e -> fatal_Exception e.
Proof.
  unfold dEdx. destruct (Rle_dec energy mass).
  - intros E; injection E as <-. eexists; reflexivity.
  - destruct (energyLossBetheBloch_ s); [| discriminate].
    unfold dEdxBetheBloch. destruct (Rlt_dec _ _); [| discriminate].
    intros E; injection E as <-. eexists; reflexivity.
Qed.

Lemma momentumLoss_throw_fatal (s s' : MaterialEffects Oracle)
  (stepSign mom : Scalar) (linear : bool) (pdg : Z) (e : exn) :
  momentumLoss stepSign mom linear pdg s = (Throw e, s') -> fatal_Exception e.
Proof.
  unfold momentumLoss, bind, lift, get, modify, ret.
  next_dEdx d1 e1 Hrate1;
    [| intros E; injection E as <- _; exact (dEdx_throw_fatal _ _ _ _ _ _ Hrate1)].
  destruct linear.
  - match goal with |- context [Rle_dec ?a ?b] => destruct (Rle_dec a b) end;
      discriminate.
  - next_dEdx d2 e2 Hrate2;
      [| intros E; injection E as <- _; exact (dEdx_throw_fatal _ _ _ _ _ _ Hrate2)].
    next_dEdx d3 e3 Hrate3;
      [| intros E; injection E as <- _; exact (dEdx_throw_fatal _ _ _ _ _ _ Hrate3)].
    next_dEdx d4 e4 Hrate4;
      [| intros E; injection E as <- _; exact (dEdx_throw_fatal _ _ _ _ _ _ Hrate4)].
    match goal with |- context [Rle_dec ?a ?b] => destruct (Rle_dec a b) end;
      discriminate.
Qed.

Lemma noiseCoulomb_throw (s : MaterialEffects Oracle) (noise : M7x7)
  (direction : M1x3) (momSquare betaSquare : Scalar) (pdg : Z) (e : exn) :
  noiseCoulomb s noise direction momSquare betaSquare pdg = Throw e ->
  e = assertion_failure /\ ~ msc_ok s.
Proof.
  unfold noiseCoulomb, msc_ok.
  destruct (Z.eqb_spec (mscModelCode_ s) 0) as [E0 | N0];
    [discriminate |].
  destruct (Z.eqb_spec (mscModelCode_ s) 1) as [E1 | N1];
    [discriminate |].
  cbn. intros E; injection E as <-. split; [reflexivity | tauto].
Qed.

(** One turn of the loop: what it can throw, and that it neither
    creates nor drops the matrix. *)
Lemma effects_step_outcome (mom : Scalar) (pdg : Z) (mass : Scalar)
  (it : RKStep) (l : Scalar) (noise : option M7x7)
  (s : MaterialEffects Oracle) :
  match effects_step mom pdg mass it (l, noise) s with
  | (Ret (l', noise'), _) => noise = None <-> noise' = None
  | (Throw e, _) =>
      fatal_Exception e \/
      (e = assertion_failure /\ noise <> None /\ ~ msc_ok s)
  end.
Proof.
  unfold effects_step.
  destruct (Rlt_dec (Rabs (MatStep.stepSize_ (matStep_ it))) 1e-8);
    [cbn; tauto |].
  cbv zeta. unfold bind, modify, get, lift, ret, throw. cbv beta.
  set (s2 := set_material _ (set_stepSize_ _ s)).
  destruct (Rlt_dec 1e-3 (matZ_ s2)); [| tauto].
  match goal with
  | |- context [momentumLoss ?sg ?m false pdg s2] =>
      destruct (momentumLoss_state s2 sg m false pdg)
        as [[e He] | (loss & d & en & Hr)]
  end.
  - rewrite He. left. exact (momentumLoss_throw_fatal _ _ _ _ _ _ _ He).
  - rewrite Hr.
    destruct noise as [noise |]; [| tauto].
    destruct (Rle_dec _ mass); [left; eexists; reflexivity |].
    destruct (noiseCoulomb_ _); [| split; intros; discriminate].
    destruct (noiseCoulomb _ _ _ _ _ pdg) as [noise' | e] eqn:Ec;
      [split; intros; discriminate |].
    apply noiseCoulomb_throw in Ec. destruct Ec as [-> Hmsc].
    right. split; [reflexivity | split; [discriminate | exact Hmsc]].
Qed.

Lemma same_configuration_msc_ok (s s' : MaterialEffects Oracle) :
  same_configuration s s' -> (msc_ok s' <-> msc_ok s).
Proof.
  intros (_ & _ & _ & _ & _ & _ & _ & Hmsc & _). unfold msc_ok.
  rewrite Hmsc. tauto.
Qed.

Lemma effects_loop_outcome (mom : Scalar) (pdg : Z) (mass : Scalar)
  (its : list RKStep) :
  forall (l : Scalar) (noise : option M7x7) (s : MaterialEffects Oracle),
    match effects_loop mom pdg mass its (l, noise) s with
    | (Ret (l', noise'), _) => noise = None <-> noise' = None
    | (Throw e, _) =>
        fatal_Exception e \/
        (e = assertion_failure /\ noise <> None /\ ~ msc_ok s)
    end.
Proof.
  induction its as [| it its IH]; intros l noise s.
  - cbn. tauto.
  - cbn [effects_loop]. unfold bind.
    pose proof (effects_step_outcome mom pdg mass it l noise s) as Hstep.
    pose proof (effects_step_configuration mom pdg mass it (l, noise) s) as Hcfg.
    destruct (effects_step mom pdg mass it (l, noise) s)
      as [[[l1 noise1] | e] s1]; [| exact Hstep].
    cbn [snd] in Hcfg. apply same_configuration_msc_ok in Hcfg.
    specialize (IH l1 noise1 s1).
    destruct (effects_loop mom pdg mass its (l1, noise1) s1)
      as [[[l2 noise2] | e] s2].
    + tauto.
    + destruct IH as [Hf | (He & Hn & Hm)]; [left; exact Hf |].
      right. split; [exact He | split; tauto].
Qed.

Lemma effects_outcome (steps : list RKStep)
  (materialsFXStart materialsFXStop : Z) (mom : Scalar) (pdg : Z)
  (noise : option M7x7) (s : MaterialEffects Oracle) :
  match effects steps materialsFXStart materialsFXStop mom pdg noise s with
  | (Ret (_, noise'), _) => noise = None <-> noise' = None
  | (Throw (runtime_error _), s') =>
      noEffects_ s = false /\ materialInterface_ s = None /\ s' = s
  | (Throw assertion_failure, _) => noise <> None /\ ~ msc_ok s
  | (Throw (Exception _ fatal), _) => fatal = true
  end.
Proof.
  unfold effects, bind at 1, get.
  destruct (noEffects_ s) eqn:Hno; [cbn; tauto |].
  destruct (materialInterface_ s) eqn:Hifc; [| cbn; tauto].
  unfold bind.
  pose proof (effects_loop_outcome mom pdg (getParticleMass pdg)
                (steps_range steps materialsFXStart materialsFXStop)
                0 noise s) as Hloop.
  destruct (effects_loop _ _ _ _ _ s) as [[[momLoss noise'] | e] s1].
  - destruct (Rge_dec momLoss mom); [reflexivity | exact Hloop].
  - destruct Hloop as [[msg ->] | (-> & Hn & Hm)]; [reflexivity | tauto].
Qed.

(** X11. The exceptions of [effects].  A [std::runtime_error] means
    that no oracle was installed (and then the object is untouched); a
    failed assertion means that a matrix was passed while the scattering
    model code was neither 0 nor 1; everything else it throws is a
    [genfit::Exception] marked fatal.  So with an oracle installed and a
    valid model code, whatever [effects] throws is a fatal
    [genfit::Exception]; and a call that returns hands back a matrix if
    and only if it was given one. *)
Theorem effects_exceptions (steps : list RKStep)
  (materialsFXStart materialsFXStop : Z) (mom : Scalar) (pdg : Z)
  (noise : option M7x7) (s : MaterialEffects Oracle) :
  match effects steps materialsFXStart materialsFXStop mom pdg noise s with
  | (Ret (_, noise'), _) => noise = None <-> noise' = None
  | (Throw (runtime_error _), s') =>
      noEffects_ s = false /\ materialInterface_ s = None /\ s' = s
  | (Throw assertion_failure, _) => noise <> None /\ ~ msc_ok s
  | (Throw (Exception _ fatal), _) => fatal = true
  end /\
  (materialInterface_ s <> None -> msc_ok s ->
   forall (e : exn) (s' : MaterialEffects Oracle),
     effects steps materialsFXStart materialsFXStop mom pdg noise s
     = (Throw e, s') ->
     fatal_Exception e).
Proof.
  pose proof (effects_outcome steps materialsFXStart materialsFXStop mom pdg
                noise s) as Hmain.
  split; [exact Hmain |].
  intros Hifc Hmsc e s' Hthrow. rewrite Hthrow in Hmain.
  destruct e as [msg fatal | msg |].
  - subst fatal. eexists; reflexivity.
  - tauto.
  - tauto.
Qed.

(** X21. An empty range.  With material effects enabled and an oracle
    installed, [effects] over no sub-step at all returns a zero loss and
    the matrix it was given, and leaves the object as it is, when the
    momentum is positive; when the momentum is zero or negative the zero
    loss already meets it and the call is fatal. *)
Theorem effects_empty_range (steps : list RKStep) (a : Z) (mom : Scalar)
  (pdg : Z) (noise : option M7x7) (s : MaterialEffects Oracle) :
  noEffects_ s = false -> materialInterface_ s <> None ->
  (0 < mom -> effects steps a a mom pdg noise s = (Ret (0, noise), s)) /\
  (mom <= 0 ->
   exists msg : string,
     effects steps a a mom pdg noise s = (Throw (Exception msg true), s)).
Proof.
  intros Hno Hifc. rewrite effects_active by assumption.
  unfold steps_range. rewrite Z.sub_diag. cbn [Z.to_nat firstn effects_loop].
  unfold ret.
  split; intros Hmom; destruct (Rge_dec 0 mom); try lra;
    [reflexivity | eexists; reflexivity].
Qed.

End EffectsFrame.

(** ** Process noise: signs, blocks and additivity *)

(** The two diagonal blocks written by [noiseCoulomb]: the variance times
    the projector on the plane across the direction, for the direction
    block, and [step^2 / 3] times that for the position block. *)
Lemma noiseCoulomb_noiseAfter_direction_block
  (sigma2 step : Scalar) (a : M1x3) (i j : nat) :
  (i < 3)%nat -> (j < 3)%nat ->
  at_ (noiseCoulomb_noiseAfter sigma2 step a) ((3 + i) * 7 + (3 + j))
  = sigma2 * ((if Nat.eqb i j then 1 else 0) - at_ a i * at_ a j).
Proof.
  intros Hi Hj.
  destruct i as [| [| [| i]]]; try lia;
    destruct j as [| [| [| j]]]; try lia;
    cbv [noiseCoulomb_noiseAfter at_ nth upd zeros repeat Nat.mul Nat.add
         Nat.eqb];
    unfold Scalar in *; ring.
Qed.

Lemma noiseCoulomb_noiseAfter_position_block
  (sigma2 step : Scalar) (a : M1x3) (i j : nat) :
  (i < 3)%nat -> (j < 3)%nat ->
  at_ (noiseCoulomb_noiseAfter sigma2 step a) ((0 + i) * 7 + (0 + j))
  = sigma2 * (step * step) / 3.0
    * ((if Nat.eqb i j then 1 else 0) - at_ a i * at_ a j).
Proof.
  intros Hi Hj.
  destruct i as [| [| [| i]]]; try lia;
    destruct j as [| [| [| j]]]; try lia;
    cbv [noiseCoulomb_noiseAfter at_ nth upd zeros repeat Nat.mul Nat.add
         Nat.eqb];
    unfold Scalar in *; unfold Rdiv; ring.
Qed.

(** Cauchy-Schwarz in three dimensions, for a vector of norm at most 1. *)
Lemma projector_form_nonneg (a0 a1 a2 v0 v1 v2 : R) :
  a0 * a0 + a1 * a1 + a2 * a2 <= 1 ->
  0 <= v0 * v0 + v1 * v1 + v2 * v2
       - (a0 * v0 + a1 * v1 + a2 * v2) * (a0 * v0 + a1 * v1 + a2 * v2).
Proof.
  intros Ha.
  assert (Hcs : (a0 * v0 + a1 * v1 + a2 * v2) * (a0 * v0 + a1 * v1 + a2 * v2)
                = (a0 * a0 + a1 * a1 + a2 * a2) * (v0 * v0 + v1 * v1 + v2 * v2)
                  - ((a0 * v1 - a1 * v0) * (a0 * v1 - a1 * v0)
                     + (a0 * v2 - a2 * v0) * (a0 * v2 - a2 * v0)
                     + (a1 * v2 - a2 * v1) * (a1 * v2 - a2 * v1))) by ring.
  rewrite Hcs.
  pose proof (Rle_0_sqr (a0 * v1 - a1 * v0)) as H1.
  pose proof (Rle_0_sqr (a0 * v2 - a2 * v0)) as H2.
  pose proof (Rle_0_sqr (a1 * v2 - a2 * v1)) as H3.
  unfold Rsqr in *.
  assert (Hv : 0 <= v0 * v0 + v1 * v1 + v2 * v2) by nra.
  nra.
Qed.

Section NoiseSigns.

Context {Oracle : Type} `{ParticleData}.

Lemma noiseCoulomb_sigma2_nonneg (s : MaterialEffects Oracle)
  (momSquare betaSquare : Scalar) (pdg : Z) :
  0 <= noiseCoulomb_sigma2 s momSquare betaSquare pdg.
Proof.
  unfold noiseCoulomb_sigma2. cbv zeta.
  match goal with |- 0 <= (if ?c then _ else _) => destruct c end; lra.
Qed.

(** X12. The two diagonal blocks of the matrix [noiseCoulomb] adds.
    For a direction of norm at most 1 the direction-direction block and
    the position-position block are positive semi-definite; for a unit
    direction both annihilate the direction itself, so that no variance
    is added along the line of flight. *)
Theorem noiseCoulomb_diagonal_blocks (s : MaterialEffects Oracle)
  (momSquare betaSquare : Scalar) (pdg : Z) (a : M1x3) :
  let n := noiseCoulomb_noiseAfter
             (noiseCoulomb_sigma2 s momSquare betaSquare pdg)
             (Rabs (stepSize_ s)) a in
  (at_ a 0 * at_ a 0 + at_ a 1 * at_ a 1 + at_ a 2 * at_ a 2 <= 1 ->
   forall v : list Scalar,
     0 <= quad_form3 n 3 3 v /\ 0 <= quad_form3 n 0 0 v) /\
  (at_ a 0 * at_ a 0 + at_ a 1 * at_ a 1 + at_ a 2 * at_ a 2 = 1 ->
   forall i : nat, (i < 3)%nat ->
     block_row3 n 3 3 i a = 0 /\ block_row3 n 0 0 i a = 0).
Proof.
  intros n.
  pose proof (noiseCoulomb_sigma2_nonneg s momSquare betaSquare pdg) as Hs.
  set (sigma2 := noiseCoulomb_sigma2 s momSquare betaSquare pdg) in *.
  set (step := Rabs (stepSize_ s)) in *.
  split.
  - intros Ha v.
    pose proof (projector_form_nonneg (at_ a 0) (at_ a 1) (at_ a 2)
                  (at_ v 0) (at_ v 1) (at_ v 2) Ha) as Hform.
    unfold quad_form3, n. cbn [seq fold_left].
    rewrite !noiseCoulomb_noiseAfter_direction_block by lia.
    rewrite !noiseCoulomb_noiseAfter_position_block by lia.
    cbn [Nat.eqb].
    set (a0 := at_ a 0) in *. set (a1 := at_ a 1) in *. set (a2 := at_ a 2) in *.
    set (v0 := at_ v 0) in *. set (v1 := at_ v 1) in *. set (v2 := at_ v 2) in *.
    set (q := v0 * v0 + v1 * v1 + v2 * v2
              - (a0 * v0 + a1 * v1 + a2 * v2) * (a0 * v0 + a1 * v1 + a2 * v2))
      in *.
    split.
    + match goal with
      | |- 0 <= ?e => replace e with (sigma2 * q) by (unfold q; ring)
      end.
      apply Rmult_le_pos; assumption.
    + match goal with
      | |- 0 <= ?e =>
          replace e with (sigma2 * (step * step) / 3.0 * q)
            by (unfold q, Rdiv; ring)
      end.
      assert (0 <= step * step) by nra.
      apply Rmult_le_pos; [| assumption].
      apply le_div; [lra |]. nra.
  - intros Ha i Hi. unfold block_row3, n. cbn [seq fold_left].
    rewrite !noiseCoulomb_noiseAfter_direction_block by lia.
    rewrite !noiseCoulomb_noiseAfter_position_block by lia.
    set (a0 := at_ a 0) in *. set (a1 := at_ a 1) in *. set (a2 := at_ a 2) in *.
    assert (Hproj : forall k : R,
              k * (1 - (a0 * a0 + a1 * a1 + a2 * a2)) = 0)
      by (intros k; rewrite Ha; ring).
    destruct i as [| [| [| i]]]; try lia; cbn [Nat.eqb];
      change (at_ a 0) with a0; change (at_ a 1) with a1;
      change (at_ a 2) with a2;
      clear n; clearbody a0 a1 a2 sigma2 step; unfold Scalar in *; split.
    + transitivity ((sigma2 * a0) * (1 - (a0 * a0 + a1 * a1 + a2 * a2)));
        [ring | apply Hproj].
    + transitivity ((sigma2 * (step * step) / 3.0 * a0) * (1 - (a0 * a0 + a1 * a1 + a2 * a2)));
        [unfold Rdiv; ring | apply Hproj].
    + transitivity ((sigma2 * a1) * (1 - (a0 * a0 + a1 * a1 + a2 * a2)));
        [ring | apply Hproj].
    + transitivity ((sigma2 * (step * step) / 3.0 * a1) * (1 - (a0 * a0 + a1 * a1 + a2 * a2)));
        [unfold Rdiv; ring | apply Hproj].
    + transitivity ((sigma2 * a2) * (1 - (a0 * a0 + a1 * a1 + a2 * a2)));
        [ring | apply Hproj].
    + transitivity ((sigma2 * (step * step) / 3.0 * a2) * (1 - (a0 * a0 + a1 * a1 + a2 * a2)));
        [unfold Rdiv; ring | apply Hproj].
Qed.

Lemma noiseCoulomb_noiseAfter_diagonal_nonneg
  (sigma2 step : Scalar) (a : M1x3) (k : nat) :
  0 <= sigma2 ->
  (forall i : nat, (i < 3)%nat -> at_ a i * at_ a i <= 1) ->
  (k < 7)%nat ->
  0 <= at_ (noiseCoulomb_noiseAfter sigma2 step a) (k * 7 + k).
Proof.
  intros Hs Ha Hk.
  pose proof (Ha 0%nat ltac:(lia)) as H0.
  pose proof (Ha 1%nat ltac:(lia)) as H1.
  pose proof (Ha 2%nat ltac:(lia)) as H2.
  assert (Hss : 0 <= sigma2 * (step * step) / 3.0).
  { apply le_div; [lra |]. assert (0 <= step * step) by nra. nra. }
  destruct k as [| [| [| [| [| [| [| k]]]]]]]; try lia.
  - replace (at_ _ _) with (sigma2 * (step * step) / 3.0 * (1 - at_ a 0 * at_ a 0))
      by (symmetry;
          apply (noiseCoulomb_noiseAfter_position_block sigma2 step a 0 0); lia).
    apply Rmult_le_pos; lra.
  - replace (at_ _ _) with (sigma2 * (step * step) / 3.0 * (1 - at_ a 1 * at_ a 1))
      by (symmetry;
          apply (noiseCoulomb_noiseAfter_position_block sigma2 step a 1 1); lia).
    apply Rmult_le_pos; lra.
  - replace (at_ _ _) with (sigma2 * (step * step) / 3.0 * (1 - at_ a 2 * at_ a 2))
      by (symmetry;
          apply (noiseCoulomb_noiseAfter_position_block sigma2 step a 2 2); lia).
    apply Rmult_le_pos; lra.
  - replace (at_ _ _) with (sigma2 * (1 - at_ a 0 * at_ a 0))
      by (symmetry;
          apply (noiseCoulomb_noiseAfter_direction_block sigma2 step a 0 0); lia).
    apply Rmult_le_pos; lra.
  - replace (at_ _ _) with (sigma2 * (1 - at_ a 1 * at_ a 1))
      by (symmetry;
          apply (noiseCoulomb_noiseAfter_direction_block sigma2 step a 1 1); lia).
    apply Rmult_le_pos; lra.
  - replace (at_ _ _) with (sigma2 * (1 - at_ a 2 * at_ a 2))
      by (symmetry;
          apply (noiseCoulomb_noiseAfter_direction_block sigma2 step a 2 2); lia).
    apply Rmult_le_pos; lra.
  - rewrite noiseCoulomb_noiseAfter_row_column_6; [lra |].
    exists 6%nat. split; [lia | left; reflexivity].
Qed.

(** X13. Multiple scattering never lowers a variance: when
    [noiseCoulomb] returns, for a direction whose components are at most 1
    in size, every diagonal cell of the matrix is at least what it was. *)
Theorem noiseCoulomb_variances_never_decrease (s : MaterialEffects Oracle)
  (noise noise' : M7x7) (direction : M1x3)
  (momSquare betaSquare : Scalar) (pdg : Z) :
  (forall i : nat, (i < 3)%nat -> at_ direction i * at_ direction i <= 1) ->
  noiseCoulomb s noise direction momSquare betaSquare pdg = Ret noise' ->
  forall k : nat, (k < 7)%nat -> at_ noise (k * 7 + k) <= at_ noise' (k * 7 + k).
Proof.
  intros Ha Hret k Hk.
  rewrite (noiseCoulomb_inv _ _ _ _ _ _ _ Hret), add_into_at.
  pose proof (noiseCoulomb_noiseAfter_diagonal_nonneg
                (noiseCoulomb_sigma2 s momSquare betaSquare pdg)
                (Rabs (stepSize_ s)) direction k
                (noiseCoulomb_sigma2_nonneg s momSquare betaSquare pdg) Ha Hk)
    as Hpos.
  destruct (_ && _)%bool; lra.
Qed.

(** The variance of the GEANE model before its floor, as a multiple of
    the step length. *)
Lemma noiseCoulomb_sigma2_GEANE_form (s : MaterialEffects Oracle)
  (momSquare betaSquare : Scalar) (pdg : Z) :
  mscModelCode_ s = 0%Z ->
  exists c : R,
    forall x : Scalar,
      noiseCoulomb_sigma2 (set_stepSize_ x s) momSquare betaSquare pdg
      = if Rlt_dec 0 (c * Rabs x) then c * Rabs x else 0.
Proof.
  intros Hcode.
  exists (225e-6 * IZR (getParticleCharge pdg) * IZR (getParticleCharge pdg)
          / (betaSquare * momSquare) / radiationLength_ s
          * matZ_ s / (matZ_ s + 1)
          * ln (159 * c_pow (matZ_ s) (- 1 / 3))
          / ln (287 * c_pow (matZ_ s) (- 0.5))).
  intros x. unfold noiseCoulomb_sigma2.
  cbn [mscModelCode_ stepSize_ radiationLength_ matZ_ set_stepSize_].
  rewrite Hcode. change (0 =? 0)%Z with true. cbv iota zeta.
  match goal with
  | |- (if Rlt_dec _ ?u then _ else _) = (if Rlt_dec _ ?w then _ else _) =>
      replace u with w by (unfold Rdiv; ring)
  end.
  destruct (Rlt_dec 0.0 _) as [Hp | Hn], (Rlt_dec 0 _) as [Hp' | Hn'];
    try reflexivity; lra.
Qed.

(** X14. In the GEANE model the scattering variance is additive in the
    step length: for two step lengths that are not negative, the variance
    for their sum is the sum of the variances for each, in the same
    material and at the same momentum. *)
Theorem noiseCoulomb_sigma2_GEANE_additive (s : MaterialEffects Oracle)
  (momSquare betaSquare : Scalar) (pdg : Z) (x1 x2 : Scalar) :
  mscModelCode_ s = 0%Z -> 0 <= x1 -> 0 <= x2 ->
  noiseCoulomb_sigma2 (set_stepSize_ (x1 + x2) s) momSquare betaSquare pdg
  = noiseCoulomb_sigma2 (set_stepSize_ x1 s) momSquare betaSquare pdg
    + noiseCoulomb_sigma2 (set_stepSize_ x2 s) momSquare betaSquare pdg.
Proof.
  intros Hcode H1 H2.
  destruct (noiseCoulomb_sigma2_GEANE_form s momSquare betaSquare pdg Hcode)
    as [c Hc].
  rewrite !Hc. rewrite !Rabs_right by lra.
  unfold Scalar in *.
  replace (c * (x1 + x2)) with (c * x1 + c * x2) by ring.
  destruct (Rle_lt_dec c 0) as [Hneg | Hpos].
  - assert (c * x1 <= 0) by nra. assert (c * x2 <= 0) by nra.
    destruct (Rlt_dec 0 (c * x1 + c * x2)), (Rlt_dec 0 (c * x1)),
             (Rlt_dec 0 (c * x2)); lra.
  - assert (0 <= c * x1) by nra. assert (0 <= c * x2) by nra.
    destruct (Rlt_dec 0 (c * x1 + c * x2)), (Rlt_dec 0 (c * x1)),
             (Rlt_dec 0 (c * x2)); lra.
Qed.

(** X15. The three noise computations read the step length through its
    absolute value only: with [stepSize_] replaced by its opposite each
    gives the same matrix. *)
Theorem noise_ignores_step_sign (s : MaterialEffects Oracle) (x : Scalar)
  (noise : M7x7) :
  (forall (mom betaSquare gamma gammaSquare : Scalar) (pdg : Z),
     noiseBetheBloch (set_stepSize_ (- x) s) noise mom betaSquare gamma
       gammaSquare pdg
     = noiseBetheBloch (set_stepSize_ x s) noise mom betaSquare gamma
         gammaSquare pdg) /\
  (forall (direction : M1x3) (momSquare betaSquare : Scalar) (pdg : Z),
     noiseCoulomb (set_stepSize_ (- x) s) noise direction momSquare
       betaSquare pdg
     = noiseCoulomb (set_stepSize_ x s) noise direction momSquare
         betaSquare pdg) /\
  (forall (momSquare betaSquare : Scalar) (pdg : Z),
     noiseBrems (set_stepSize_ (- x) s) noise momSquare betaSquare pdg
     = noiseBrems (set_stepSize_ x s) noise momSquare betaSquare pdg).
Proof.
  split; [| split].
  - intros. unfold noiseBetheBloch, noiseBetheBloch_increment,
      straggling_sigma2E, straggling_Nc, straggling_zeta,
      straggling_Urban_locals.
    cbn [stepSize_ dEdx_ matZ_ matA_ matDensity_ set_stepSize_].
    rewrite !Rabs_Ropp. reflexivity.
  - intros. unfold noiseCoulomb, noiseCoulomb_sigma2.
    cbn [stepSize_ mscModelCode_ radiationLength_ matZ_ set_stepSize_].
    rewrite !Rabs_Ropp. reflexivity.
  - intros. unfold noiseBrems, noiseBrems_increment.
    cbn [stepSize_ radiationLength_ set_stepSize_].
    rewrite !Rabs_Ropp. reflexivity.
Qed.

Lemma c_pow_antitone_base (x y e : R) :
  0 < x <= y -> e <= 0 -> c_pow y e <= c_pow x e.
Proof.
  intros [Hx Hxy] He. unfold c_pow.
  destruct (Rlt_dec 0 x) as [_ | Hn]; [| lra].
  destruct (Rlt_dec 0 y) as [_ | Hn]; [| lra].
  unfold Rpower.
  assert (Hl : ln x <= ln y).
  { destruct Hxy as [Hlt | ->]; [left; apply ln_increasing; assumption | lra]. }
  destruct (Req_dec (e * ln y) (e * ln x)) as [-> | Hne]; [lra |].
  left. apply exp_increasing. nra.
Qed.

(** X16. Radiative noise never lowers the variance of charge over
    momentum.  For a positive [betaSquare] and a non-zero [momSquare] the
    value added to cell (6,6) is not negative; and when the step length
    over the radiation length is not negative the floor at zero is not
    even needed, [3^y - 4^y] being non-negative for [y <= 0].  For a
    particle other than an electron or positron the matrix is returned as
    it is. *)
Theorem noiseBrems_never_lowers_variance (s : MaterialEffects Oracle)
  (noise : M7x7) (momSquare betaSquare : Scalar) (pdg : Z) :
  (0 < betaSquare -> momSquare <> 0 ->
   0 <= noiseBrems_increment s momSquare betaSquare pdg /\
   at_ noise (6 * 7 + 6)
   <= at_ (noiseBrems s noise momSquare betaSquare pdg) (6 * 7 + 6)) /\
  (0 < radiationLength_ s ->
   0 <= c_pow 3 (- 1.442695 * Rabs (stepSize_ s) / radiationLength_ s)
        - c_pow 4 (- 1.442695 * Rabs (stepSize_ s) / radiationLength_ s)) /\
  (Z.abs pdg <> 11%Z -> noiseBrems s noise momSquare betaSquare pdg = noise).
Proof.
  split; [| split].
  - intros Hb Hp.
    assert (Hinc : 0 <= noiseBrems_increment s momSquare betaSquare pdg).
    { unfold noiseBrems_increment. cbv zeta.
      apply Rmult_le_pos;
        [| match goal with
           | |- 0 <= Rmax ?u ?w => pose proof (Rmax_r u w); lra
           end].
      rewrite mult_IZR.
      assert (0 <= IZR (getParticleCharge pdg) * IZR (getParticleCharge pdg))
        by nra.
      assert (0 < momSquare ^ 2) by (assert (0 < momSquare * momSquare) by nra; nra).
      apply le_div; [assumption |]. rewrite Rmult_0_l.
      apply le_div; [assumption |]. lra. }
    split; [exact Hinc |].
    unfold noiseBrems. destruct (negb _); [lra |].
    destruct (Nat.lt_ge_cases (6 * 7 + 6) (List.length noise)) as [Hlen | Hlen].
    + rewrite at_upd_same by assumption. lra.
    + rewrite upd_beyond by assumption. lra.
  - intros Hrad.
    assert (Hy : - 1.442695 * Rabs (stepSize_ s) / radiationLength_ s <= 0).
    { pose proof (Rabs_pos (stepSize_ s)).
      apply div_le; [assumption |]. nra. }
    pose proof (c_pow_antitone_base 3 4
                  (- 1.442695 * Rabs (stepSize_ s) / radiationLength_ s)
                  ltac:(lra) Hy).
    lra.
  - intros Hpdg. unfold noiseBrems.
    destruct (Z.eqb_spec (Z.abs pdg) 11); [contradiction | reflexivity].
Qed.

End NoiseSigns.

(** ** The step limiter: oracle traffic, exceptions and what it keeps *)

Lemma boundary_queries_app (l1 l2 : list OracleCall) :
  boundary_queries (l1 ++ l2) = (boundary_queries l1 + boundary_queries l2)%nat.
Proof.
  unfold boundary_queries. rewrite filter_app, length_app. reflexivity.
Qed.

Section StepperTraffic.

Context {Oracle : Type} `{AbsMaterialInterface Oracle} `{ParticleData}.
Context {StepLimits : Type} `{StepLimitsOps StepLimits}.

(** The boundary search extends the record of calls, by at least one and
    at most [turns] boundary queries, and by exactly one when boundaries
    between equal materials are not ignored. *)
Lemma boundary_search_calls (turns : nat) (rep : RKTrackRep) (varField : bool)
  (ignoreBoundaries : bool) (sign minStep sMax : Scalar)
  (currentMaterial : MaterialProperties) :
  forall b : BoundarySearch,
  exists suffix : list OracleCall,
    bs_calls (boundary_search turns rep varField ignoreBoundaries sign minStep
                sMax currentMaterial b)
    = (bs_calls b ++ suffix)%list /\
    (boundary_queries suffix <= turns)%nat /\
    ((0 < turns)%nat -> (1 <= boundary_queries suffix)%nat) /\
    (ignoreBoundaries = false -> (boundary_queries suffix <= 1)%nat).
Proof.
  induction turns as [| turns IH]; intros b.
  - exists []. cbn. rewrite app_nil_r. repeat split; lia.
  - cbn [boundary_search].
    destruct (findNextBoundary rep (bs_state7 b) (bs_boundaryStep b) varField
                (bs_oracle b)) as [step o].
    set (q := call_findNextBoundary (bs_state7 b) (bs_boundaryStep b) varField).
    destruct ignoreBoundaries; cbn [negb].
    + destruct (Rge_dec _ _).
      * exists [q]. cbn. repeat split; intros; try discriminate; lia.
      * unfold probe.
        destruct (MaterialProperties_eq_dec _ currentMaterial).
        -- match goal with
           | |- context [boundary_search turns _ _ _ _ _ _ _ ?b'] =>
               destruct (IH b') as (suffix & Hcalls & Hle & _ & _)
           end.
           cbn [bs_calls] in Hcalls.
           eexists. split.
           ++ rewrite Hcalls. rewrite <- !app_assoc. reflexivity.
           ++ rewrite !boundary_queries_app. cbn.
              repeat split; intros; try discriminate; lia.
        -- eexists. split.
           ++ cbn [bs_calls]. rewrite <- !app_assoc. reflexivity.
           ++ cbn. repeat split; intros; try discriminate; lia.
    + exists [q]. cbn. repeat split; lia.
Qed.

(** The branches of [stepper], in the order of its guards; the last
    one is the call that goes on to question the oracle. *)
Ltac stepper_branches mom f s :=
  unfold stepper;
  destruct (Rlt_dec mom 4e-3);
  [ | destruct (noEffects_ s) eqn:Hno;
      [ | destruct (materialInterface_ s) as [o |] eqn:Hifc;
          [ destruct (Rlt_dec 0.01 (relMomLoss f));
            [ | destruct (Rlt_dec (Rabs (getLowestLimitSignedVal (limits f)))
                            1e-4);
                [ | unfold probe; cbv beta iota zeta ] ]
          | ] ] ].

(** In that last branch: the linear loss estimate, by cases on its
    outcome. *)
Ltac stepper_loss :=
  match goal with
  | |- context [Rlt_dec 1e-3 ?z] => destruct (Rlt_dec 1e-3 z)
  end;
  [ match goal with
    | |- context [momentumLoss ?sg ?m true ?p ?st] =>
        destruct (momentumLoss_state st sg m true p)
          as [[eloss Hthrow] | (loss & d & en & Hreturn)];
        [ rewrite Hthrow | rewrite Hreturn ]
    end
  | ].

(** X17. The traffic with the oracle in one call of [stepper].  The
    record of calls is only ever extended; the extension holds at most 100
    boundary queries, at most one when boundaries between equal materials
    are not ignored, and is empty when material effects are disabled, the
    momentum is below 4 MeV/c, the loss budget is spent or the lowest
    limit is below [minStep]. *)
Theorem stepper_oracle_traffic (rep : RKTrackRep) (mom : Scalar) (pdg : Z)
  (varField : bool) (f : StepperFrame) (s : MaterialEffects Oracle) :
  exists suffix : list OracleCall,
    oracleCalls (snd (fst (stepper rep mom pdg varField f s)))
    = (oracleCalls f ++ suffix)%list /\
    (boundary_queries suffix <= 100)%nat /\
    (ignoreBoundariesBetweenEqualMaterials_ s = false ->
     (boundary_queries suffix <= 1)%nat) /\
    (mom < 4e-3 \/ noEffects_ s = true \/ 0.01 < relMomLoss f \/
     Rabs (getLowestLimitSignedVal (limits f)) < 1e-4 ->
     suffix = []).
Proof.
  stepper_branches mom f s;
    try (exists []; cbn [fst snd oracleCalls boundary_queries filter List.length];
         rewrite app_nil_r; repeat split; intros; lia || reflexivity).
  stepper_loss.
  - eexists. cbn [fst snd oracleCalls]. split; [reflexivity |].
    cbn. repeat split; intros; try lia.
    repeat match goal with Hor : _ \/ _ |- _ => destruct Hor end;
      try discriminate; lra.
  - match goal with
    | |- context [boundary_search 100 ?r ?v ?ig ?sg ?ms ?sm ?cur ?b] =>
        destruct (boundary_search_calls 100 r v ig sg ms sm cur b)
          as (suffix & Hcalls & Hle & _ & Hone)
    end.
    cbn [fst snd oracleCalls]. rewrite Hcalls. cbn [bs_calls].
    eexists. split; [rewrite <- app_assoc; reflexivity |].
    rewrite boundary_queries_app. cbn.
    repeat split; intros; try lia.
    + apply Hone. assumption.
    + repeat match goal with Hor : _ \/ _ |- _ => destruct Hor end;
        try discriminate; lra.
  - match goal with
    | |- context [boundary_search 100 ?r ?v ?ig ?sg ?ms ?sm ?cur ?b] =>
        destruct (boundary_search_calls 100 r v ig sg ms sm cur b)
          as (suffix & Hcalls & Hle & _ & Hone)
    end.
    cbn [fst snd oracleCalls]. rewrite Hcalls. cbn [bs_calls].
    eexists. split; [rewrite <- app_assoc; reflexivity |].
    rewrite boundary_queries_app. cbn.
    repeat split; intros; try lia.
    + apply Hone. assumption.
    + repeat match goal with Hor : _ \/ _ |- _ => destruct Hor end;
        try discriminate; lra.
Qed.

(** X18. A call of [stepper] that throws has installed no limit and
    has not touched the accumulated loss.  What it throws is either the
    [std::runtime_error] of a missing oracle, with every argument and the
    object untouched, or a [genfit::Exception] marked fatal; in
    particular never a recoverable [Exception]. *)
Theorem stepper_failure_keeps_limits (rep : RKTrackRep) (mom : Scalar)
  (pdg : Z) (varField : bool) (f f' : StepperFrame)
  (s s' : MaterialEffects Oracle) (e : exn) :
  stepper rep mom pdg varField f s = (Throw e, f', s') ->
  limits f' = limits f /\ relMomLoss f' = relMomLoss f /\
  ((exists msg : string,
      e = runtime_error msg /\ materialInterface_ s = None /\
      f' = f /\ s' = s) \/
   fatal_Exception e).
Proof.
  stepper_branches mom f s; try discriminate.
  - intros E; injection E as <- <- <-.
    repeat split. right. eexists; reflexivity.
  - stepper_loss.
    + intros E; injection E as <- <- <-. cbn [limits relMomLoss].
      repeat split. right. exact (momentumLoss_throw_fatal _ _ _ _ _ _ _ Hthrow).
    + discriminate.
    + discriminate.
  - intros E; injection E as <- <- <-.
    repeat split. left. eexists. repeat split.
Qed.

Lemma stepper_mscModelCode (rep : RKTrackRep) (mom : Scalar) (pdg : Z)
  (varField : bool) (f : StepperFrame) (s : MaterialEffects Oracle) :
  mscModelCode_ (snd (stepper rep mom pdg varField f s)) = mscModelCode_ s.
Proof.
  stepper_branches mom f s; try reflexivity.
  stepper_loss; reflexivity.
Qed.

(** X19. The scattering model code is always 0 or 1.  It is 0 in a new
    object; [setMscModel] leaves it at 0 or 1 whatever the name, also when
    it throws; [init], [setDebugLvl], [effects] and [stepper] do not change
    it.  So an object that went through these calls only never fails the
    assertion of [noiseCoulomb], neither directly nor inside [effects]. *)
Theorem mscModelCode_stays_valid :
  msc_ok (@MaterialEffects_new Oracle) /\
  (forall (s : MaterialEffects Oracle) (modelName : string),
     msc_ok s -> msc_ok (snd (setMscModel modelName s))) /\
  (forall (s : MaterialEffects Oracle) (matIfc : option Oracle),
     msc_ok s -> msc_ok (snd (init matIfc s))) /\
  (forall (s : MaterialEffects Oracle) (lvl : nat),
     msc_ok s -> msc_ok (snd (setDebugLvl lvl s))) /\
  (forall (s : MaterialEffects Oracle) (steps : list RKStep)
          (materialsFXStart materialsFXStop : Z) (mom : Scalar) (pdg : Z)
          (noise : option M7x7),
     msc_ok s ->
     msc_ok (snd (effects steps materialsFXStart materialsFXStop mom pdg
                    noise s)) /\
     fst (effects steps materialsFXStart materialsFXStop mom pdg noise s)
     <> Throw assertion_failure) /\
  (forall (s : MaterialEffects Oracle) (rep : RKTrackRep) (mom : Scalar)
          (pdg : Z) (varField : bool) (f : StepperFrame),
     msc_ok s -> msc_ok (snd (stepper rep mom pdg varField f s))) /\
  (forall (s : MaterialEffects Oracle) (noise : M7x7) (direction : M1x3)
          (momSquare betaSquare : Scalar) (pdg : Z),
     msc_ok s ->
     noiseCoulomb s noise direction momSquare betaSquare pdg
     <> Throw assertion_failure).
Proof.
  split; [left; reflexivity |].
  split.
  { intros s modelName Hs. unfold setMscModel.
    destruct (String.eqb modelName "GEANE"); [left; reflexivity |].
    destruct (String.eqb modelName "Highland"); [right; reflexivity |].
    exact Hs. }
  split.
  { intros s matIfc Hs. unfold init, bind, get, modify, ret.
    destruct (materialInterface_ s); exact Hs. }
  split.
  { intros s lvl Hs. unfold setDebugLvl, bind, get, modify, ret.
    cbn [materialInterface_ debugLvl_ set_debugLvl_].
    destruct (materialInterface_ s); [| exact Hs].
    destruct (Nat.ltb 1 lvl); exact Hs. }
  split.
  { intros s steps a b mom pdg noise Hs. split.
    - apply (same_configuration_msc_ok s); [apply effects_configuration | exact Hs].
    - intros Hthrow.
      pose proof (effects_outcome steps a b mom pdg noise s) as Hcase.
      destruct (effects steps a b mom pdg noise s) as [[r | e] s1];
        [discriminate |].
      cbn [fst] in Hthrow. injection Hthrow as ->. tauto. }
  split.
  { intros s rep mom pdg varField f Hs. unfold msc_ok.
    rewrite stepper_mscModelCode. exact Hs. }
  intros s noise direction momSquare betaSquare pdg Hs Hthrow.
  apply noiseCoulomb_throw in Hthrow. tauto.
Qed.

(** X24. The momentum-loss limit.  In a material, with the budget not
    yet spent and a positive loss [dp] per centimetre from the linear
    estimate, the limit [stepper] installs under [stp_momLoss] is the step
    length at which the accumulated relative loss, growing by [dp / mom]
    per centimetre, reaches the cap of 0.01 exactly; the boundary limit is
    installed on top of it, the current material is the one the oracle
    reports one [minStep] ahead, and the accumulated loss grows by
    [dp / mom] times the lowest limit. *)
Theorem stepper_momLoss_limit_meets_cap (rep : RKTrackRep) (mom : Scalar)
  (pdg : Z) (varField : bool) (f : StepperFrame)
  (s s3 : MaterialEffects Oracle) (o : Oracle) (dp : Scalar) :
  4e-3 <= mom -> noEffects_ s = false -> materialInterface_ s = Some o ->
  0 <= relMomLoss f <= 0.01 ->
  1e-4 <= Rabs (getLowestLimitSignedVal (limits f)) ->
  let sign := getStepSign (limits f) in
  let st7 := make_minStep sign 1e-4 (state7 f) in
  let o1 := initTrack (at_ st7 0) (at_ st7 1) (at_ st7 2)
              (sign * at_ st7 3) (sign * at_ st7 4) (sign * at_ st7 5) o in
  let s1 := set_stepSize_ 1
              (set_material (getMaterialParameters o1)
                 (set_materialInterface_ (Some o1) s)) in
  1e-3 < Z_ (getMaterialParameters o1) ->
  momentumLoss sign mom true pdg s1 = (Ret dp, s3) -> 0 < dp ->
  exists (L B : Scalar) (f' : StepperFrame) (s' : MaterialEffects Oracle),
    stepper rep mom pdg varField f s = (Ret tt, f', s') /\
    limits f' = setLimit stp_boundary B (setLimit stp_momLoss L (limits f)) /\
    0 <= L /\ relMomLoss f + dp / mom * L = 0.01 /\
    relMomLoss f'
    = relMomLoss f + dp / mom * getLowestLimitVal (limits f') /\
    currentMaterial f' = getMaterialParameters o1.
Proof.
  intros Hmom Hno Hifc Hrel Hlow sign st7 o1 s1 HZ Hloss Hdp.
  unfold stepper.
  destruct (Rlt_dec mom 4e-3); [lra |]. rewrite Hno, Hifc.
  destruct (Rlt_dec 0.01 (relMomLoss f)); [lra |].
  destruct (Rlt_dec (Rabs (getLowestLimitSignedVal (limits f))) 1e-4); [lra |].
  unfold probe. cbv beta iota zeta.
  fold sign. fold st7. fold o1. fold s1.
  change (matZ_ s1) with (Z_ (getMaterialParameters o1)).
  destruct (Rlt_dec 1e-3 (Z_ (getMaterialParameters o1))); [| contradiction].
  rewrite Hloss.
  do 4 eexists. split; [reflexivity |].
  cbn [limits relMomLoss currentMaterial].
  split; [reflexivity |].
  assert (Hq : 0 < dp / mom) by (apply Rdiv_lt_0_compat; lra).
  assert (Hn : 0 <= (0.01 - Rabs (relMomLoss f)) / (dp / mom)).
  { rewrite Rabs_right by lra. apply le_div; lra. }
  split; [apply Rabs_pos |].
  split.
  - rewrite (Rabs_right _ (Rle_ge _ _ Hn)). rewrite (Rabs_right (relMomLoss f)) by lra.
    unfold Scalar in *. field. split; lra.
  - split; [reflexivity | apply material_eta].
Qed.

(** The call that gets past the guards and whose loss estimate throws. *)
Lemma stepper_probe_throw (rep : RKTrackRep) (mom : Scalar)
  (pdg : Z) (varField : bool) (f : StepperFrame)
  (s s3 : MaterialEffects Oracle) (o : Oracle) (e : exn) :
  4e-3 <= mom -> noEffects_ s = false -> materialInterface_ s = Some o ->
  relMomLoss f <= 0.01 ->
  1e-4 <= Rabs (getLowestLimitSignedVal (limits f)) ->
  let sign := getStepSign (limits f) in
  let st7 := make_minStep sign 1e-4 (state7 f) in
  let o1 := initTrack (at_ st7 0) (at_ st7 1) (at_ st7 2)
              (sign * at_ st7 3) (sign * at_ st7 4) (sign * at_ st7 5) o in
  let s1 := set_stepSize_ 1
              (set_material (getMaterialParameters o1)
                 (set_materialInterface_ (Some o1) s)) in
  1e-3 < Z_ (getMaterialParameters o1) ->
  momentumLoss sign mom true pdg s1 = (Throw e, s3) ->
  stepper rep mom pdg varField f s
  = (Throw e,
     mkStepperFrame st7 (relMomLoss f) (getMaterialParameters o1) (limits f)
       (oracleCalls f
        ++ [call_initTrack (at_ st7 0) (at_ st7 1) (at_ st7 2)
              (sign * at_ st7 3) (sign * at_ st7 4) (sign * at_ st7 5);
            call_getMaterialParameters])%list,
     s1) /\
  s3 = s1 /\ fatal_Exception e.
Proof.
  intros Hmom Hno Hifc Hrel Hlow sign st7 o1 s1 HZ Hloss.
  assert (Hs3 : s3 = s1).
  { destruct (momentumLoss_state s1 sign mom true pdg)
      as [[e' He'] | (loss & d & en & Hr)]; congruence. }
  split; [| split; [exact Hs3 | exact (momentumLoss_throw_fatal _ _ _ _ _ _ _ Hloss)]].
  subst s3. unfold stepper.
  destruct (Rlt_dec mom 4e-3); [lra |]. rewrite Hno, Hifc.
  destruct (Rlt_dec 0.01 (relMomLoss f)); [lra |].
  destruct (Rlt_dec (Rabs (getLowestLimitSignedVal (limits f))) 1e-4); [lra |].
  unfold probe. cbv beta iota zeta.
  fold sign. fold st7. fold o1. fold s1.
  change (matZ_ s1) with (Z_ (getMaterialParameters o1)).
  destruct (Rlt_dec 1e-3 (Z_ (getMaterialParameters o1))); [| contradiction].
  rewrite Hloss. cbv beta iota.
  apply f_equal2; [| reflexivity]. apply f_equal2; [reflexivity |].
  apply f_equal3; [apply material_eta | reflexivity | reflexivity].
Qed.

(** X25. A loss estimate that throws inside [stepper].  Past the
    guards, when the linear loss estimate throws (an energy at or below
    the mass, or [beta * gamma] below 0.05), the exception, which is
    fatal, leaves [stepper] with the work done so far in place: the state
    vector has been moved by one [minStep], the oracle has been asked for
    the material there and the current material overwritten with it, and
    [stepSize_] is 1; the limits and the accumulated loss are
    untouched. *)
Theorem stepper_loss_estimate_throws (rep : RKTrackRep) (mom : Scalar)
  (pdg : Z) (varField : bool) (f : StepperFrame)
  (s s3 : MaterialEffects Oracle) (o : Oracle) (e : exn) :
  4e-3 <= mom -> noEffects_ s = false -> materialInterface_ s = Some o ->
  relMomLoss f <= 0.01 ->
  1e-4 <= Rabs (getLowestLimitSignedVal (limits f)) ->
  let sign := getStepSign (limits f) in
  let st7 := make_minStep sign 1e-4 (state7 f) in
  let o1 := initTrack (at_ st7 0) (at_ st7 1) (at_ st7 2)
              (sign * at_ st7 3) (sign * at_ st7 4) (sign * at_ st7 5) o in
  let s1 := set_stepSize_ 1
              (set_material (getMaterialParameters o1)
                 (set_materialInterface_ (Some o1) s)) in
  1e-3 < Z_ (getMaterialParameters o1) ->
  momentumLoss sign mom true pdg s1 = (Throw e, s3) ->
  stepper rep mom pdg varField f s
  = (Throw e,
     mkStepperFrame st7 (relMomLoss f) (getMaterialParameters o1) (limits f)
       (oracleCalls f
        ++ [call_initTrack (at_ st7 0) (at_ st7 1) (at_ st7 2)
              (sign * at_ st7 3) (sign * at_ st7 4) (sign * at_ st7 5);
            call_getMaterialParameters])%list,
     s1) /\
  s3 = s1 /\ fatal_Exception e.
Proof. apply stepper_probe_throw. Qed.

End StepperTraffic.

(** ** The singleton, its destruction and the diagnostic plot *)

Section Lifecycle.

Context {Oracle : Type} `{AbsMaterialInterface Oracle} `{ParticleData}.

(** X22. The life of the singleton.  [getInstance] always leaves an
    object behind and asking again gives the same one; after [destruct]
    the pointer is null, a second [destruct] deletes nothing, and the next
    [getInstance] gives a new object with the constructor's values, on
    which [effects] throws the [std::runtime_error] of a missing oracle.
    The destructor deletes the oracle that is installed and no other:
    after two calls of [init] it is the second handle, the first one is
    never deleted. *)
Theorem singleton_lifecycle (instance_ : option (MaterialEffects Oracle)) :
  getInstance instance_ <> None /\
  getInstance (getInstance instance_) = getInstance instance_ /\
  snd (destruct_ instance_) = None /\
  fst (destruct_ (snd (destruct_ instance_))) = [] /\
  getInstance (snd (destruct_ instance_)) = Some MaterialEffects_new /\
  (forall (steps : list RKStep) (materialsFXStart materialsFXStop : Z)
          (mom : Scalar) (pdg : Z) (noise : option M7x7),
     exists msg : string,
       effects steps materialsFXStart materialsFXStop mom pdg noise
         (@MaterialEffects_new Oracle)
       = (Throw (runtime_error msg), MaterialEffects_new)) /\
  (forall (m : MaterialEffects Oracle) (h1 h2 : Oracle),
     fst (destruct_ (Some (snd ((init (Some h1) ;;; init (Some h2)) m))))
     = [h2]).
Proof.
  repeat split.
  - destruct instance_; discriminate.
  - destruct instance_; reflexivity.
  - destruct instance_; reflexivity.
  - destruct instance_; reflexivity.
  - destruct instance_; reflexivity.
  - intros. apply effects_uninitialized; reflexivity.
  - intros m h1 h2. unfold init, bind, get, modify, ret. cbn.
    destruct (materialInterface_ m); reflexivity.
Qed.






End Lifecycle.

(** ** What earlier calls leave behind does not leak *)

Section Scratch.

Context {Oracle : Type} `{AbsMaterialInterface Oracle} `{ParticleData}.
Context {StepLimits : Type} `{StepLimitsOps StepLimits}.

(** The loss rate does not read [dEdx_] or [E_]. *)
Lemma dEdx_scratch (s : MaterialEffects Oracle)
  (d e energy mass : Scalar) (charge pdg : Z) :
  dEdx (set_E_ e (set_dEdx_ d s)) energy mass charge pdg
  = dEdx s energy mass charge pdg.
Proof. reflexivity. Qed.

Lemma set_rate_twice (s : MaterialEffects Oracle) (d e d' e' : Scalar) :
  set_E_ e' (set_dEdx_ d' (set_E_ e (set_dEdx_ d s)))
  = set_E_ e' (set_dEdx_ d' s).
Proof. reflexivity. Qed.

(** [momentumLoss] overwrites [dEdx_] and [E_] before it reads them. *)
Lemma momentumLoss_scratch (s : MaterialEffects Oracle) (d e stepSign mom : Scalar)
  (linear : bool) (pdg : Z) :
  momentumLoss stepSign mom linear pdg (set_E_ e (set_dEdx_ d s))
  = match momentumLoss stepSign mom linear pdg s with
    | (Ret loss, s') => (Ret loss, s')
    | (Throw ex, _) => (Throw ex, set_E_ e (set_dEdx_ d s))
    end.
Proof.
  unfold momentumLoss, bind, lift, get, modify, ret. cbv beta iota.
  change (stepSize_ (set_E_ e (set_dEdx_ d s))) with (stepSize_ s).
  rewrite dEdx_scratch.
  destruct (dEdx s _ _ _ pdg) as [d1 | e1]; [| reflexivity].
  destruct linear.
  - cbn [dEdx_ set_dEdx_ set_E_ stepSize_].
    match goal with |- context [Rle_dec ?a ?b] => destruct (Rle_dec a b) end;
      reflexivity.
  - rewrite dEdx_scratch.
    destruct (dEdx s _ _ _ pdg) as [d2 | e2]; [| reflexivity].
    rewrite dEdx_scratch.
    destruct (dEdx s _ _ _ pdg) as [d3 | e3]; [| reflexivity].
    rewrite dEdx_scratch.
    destruct (dEdx s _ _ _ pdg) as [d4 | e4]; [| reflexivity].
    cbn [dEdx_ set_dEdx_ set_E_ stepSize_].
    match goal with |- context [Rle_dec ?a ?b] => destruct (Rle_dec a b) end;
      reflexivity.
Qed.

(** Two objects with the same configuration, after the step length and
    the material of a sub-step are written, differ in [dEdx_] and [E_]
    at most. *)
Lemma same_configuration_substep (s s2 : MaterialEffects Oracle) (x : Scalar)
  (m : MaterialProperties) :
  same_configuration s s2 ->
  set_material m (set_stepSize_ x s2)
  = set_E_ (E_ s2) (set_dEdx_ (dEdx_ s2) (set_material m (set_stepSize_ x s))).
Proof.
  unfold same_configuration.
  destruct s, s2; cbn.
  intros (a1 & a2 & a3 & a4 & a5 & a6 & a7 & a8 & a9 & a10).
  subst. reflexivity.
Qed.

Lemma same_configuration_sym (s s2 : MaterialEffects Oracle) :
  same_configuration s s2 -> same_configuration s2 s.
Proof.
  unfold same_configuration.
  intros (a1 & a2 & a3 & a4 & a5 & a6 & a7 & a8 & a9 & a10).
  repeat split; congruence.
Qed.

Lemma effects_step_scratch (mom : Scalar) (pdg : Z) (mass : Scalar)
  (it : RKStep) (acc : Scalar * option M7x7) (s s2 : MaterialEffects Oracle) :
  same_configuration s s2 ->
  fst (effects_step mom pdg mass it acc s2)
  = fst (effects_step mom pdg mass it acc s).
Proof.
  intros Hcfg. destruct acc as [momLoss noise]. unfold effects_step.
  destruct (Rlt_dec (Rabs (MatStep.stepSize_ (matStep_ it))) 1e-8);
    [reflexivity |].
  cbv zeta. unfold bind, modify, get, lift, ret, throw. cbv beta.
  rewrite (same_configuration_substep s s2 _ _ Hcfg).
  set (s1 := set_material _ (set_stepSize_ _ s)).
  change (matZ_ (set_E_ (E_ s2) (set_dEdx_ (dEdx_ s2) s1))) with (matZ_ s1).
  destruct (Rlt_dec 1e-3 (matZ_ s1)); [| reflexivity].
  rewrite momentumLoss_scratch.
  match goal with
  | |- context [momentumLoss ?sg ?m false pdg s1] =>
      destruct (momentumLoss sg m false pdg s1) as [[loss | ex] s']
  end; reflexivity.
Qed.

Lemma effects_loop_scratch (mom : Scalar) (pdg : Z) (mass : Scalar)
  (its : list RKStep) :
  forall (acc : Scalar * option M7x7) (s s2 : MaterialEffects Oracle),
    same_configuration s s2 ->
    fst (effects_loop mom pdg mass its acc s2)
    = fst (effects_loop mom pdg mass its acc s).
Proof.
  induction its as [| it its IH]; intros acc s s2 Hcfg; [reflexivity |].
  cbn [effects_loop]. unfold bind.
  pose proof (effects_step_scratch mom pdg mass it acc s s2 Hcfg) as Hfst.
  pose proof (effects_step_configuration mom pdg mass it acc s) as Ha.
  pose proof (effects_step_configuration mom pdg mass it acc s2) as Hb.
  destruct (effects_step mom pdg mass it acc s) as [[acc1 | e1] sa];
    destruct (effects_step mom pdg mass it acc s2) as [[acc2 | e2] sb];
    cbn [fst snd] in *; try discriminate.
  - injection Hfst as ->. apply IH.
    apply (same_configuration_trans sa s sb).
    + apply same_configuration_sym. exact Ha.
    + apply (same_configuration_trans s s2 sb); assumption.
  - exact Hfst.
Qed.

Lemma effects_scratch (steps : list RKStep)
  (materialsFXStart materialsFXStop : Z) (mom : Scalar) (pdg : Z)
  (noise : option M7x7) (s s2 : MaterialEffects Oracle) :
  same_configuration s s2 ->
  fst (effects steps materialsFXStart materialsFXStop mom pdg noise s2)
  = fst (effects steps materialsFXStart materialsFXStop mom pdg noise s).
Proof.
  intros Hcfg.
  pose proof (effects_loop_scratch mom pdg (getParticleMass pdg)
                (steps_range steps materialsFXStart materialsFXStop)
                (0, noise) s s2 Hcfg) as Hloop.
  destruct Hcfg as (a1 & _ & _ & _ & _ & _ & _ & _ & a9 & _).
  unfold effects, bind, get. rewrite a1, a9.
  destruct (noEffects_ s); [reflexivity |].
  destruct (materialInterface_ s) as [o |]; [| reflexivity].
  destruct (effects_loop _ _ _ _ _ s) as [[[l1 n1] | e1] sa];
    destruct (effects_loop _ _ _ _ _ s2) as [[[l2 n2] | e2] sb];
    cbn [fst] in Hloop; try discriminate.
  - injection Hloop as -> ->.
    destruct (Rge_dec l1 mom); reflexivity.
  - exact Hloop.
Qed.

(** The object [stepper] hands to the loss estimate, from an object with
    other scratch fields. *)
Lemma stepper_probe_scratch (s : MaterialEffects Oracle) (x d e : Scalar)
  (m m1 : MaterialProperties) (o1 : Oracle) :
  set_stepSize_ 1
    (set_material m1
       (set_materialInterface_ (Some o1)
          (set_stepSize_ x (set_dEdx_ d (set_E_ e (set_material m s))))))
  = set_E_ e (set_dEdx_ d
      (set_stepSize_ 1 (set_material m1 (set_materialInterface_ (Some o1) s)))).
Proof. reflexivity. Qed.

Lemma stepper_scratch (s : MaterialEffects Oracle) (x d e : Scalar)
  (m : MaterialProperties)
  (rep : RKTrackRep) (mom : Scalar) (pdg : Z) (varField : bool)
  (f : StepperFrame) :
  fst (stepper rep mom pdg varField f
         (set_stepSize_ x (set_dEdx_ d (set_E_ e (set_material m s)))))
  = fst (stepper rep mom pdg varField f s).
Proof.
  unfold stepper.
  destruct (Rlt_dec mom 4e-3); [reflexivity |].
  replace (noEffects_ (set_stepSize_ x (set_dEdx_ d (set_E_ e (set_material m s)))))
    with (noEffects_ s) by reflexivity.
  destruct (noEffects_ s); [reflexivity |].
  replace (materialInterface_
             (set_stepSize_ x (set_dEdx_ d (set_E_ e (set_material m s)))))
    with (materialInterface_ s) by reflexivity.
  destruct (materialInterface_ s) as [o |]; [| reflexivity].
  destruct (Rlt_dec 0.01 (relMomLoss f)); [reflexivity |].
  destruct (Rlt_dec (Rabs (getLowestLimitSignedVal (limits f))) 1e-4);
    [reflexivity |].
  destruct (probe _ _ o (oracleCalls f)) as [[m1 o1] calls].
  cbv zeta.
  replace (matDensity_ (set_material m1 (set_materialInterface_ (Some o1)
             (set_stepSize_ x (set_dEdx_ d (set_E_ e (set_material m s)))))))
    with (density_ m1) by reflexivity.
  replace (matZ_ (set_material m1 (set_materialInterface_ (Some o1)
             (set_stepSize_ x (set_dEdx_ d (set_E_ e (set_material m s)))))))
    with (Z_ m1) by reflexivity.
  replace (matA_ (set_material m1 (set_materialInterface_ (Some o1)
             (set_stepSize_ x (set_dEdx_ d (set_E_ e (set_material m s)))))))
    with (A_ m1) by reflexivity.
  replace (radiationLength_ (set_material m1 (set_materialInterface_ (Some o1)
             (set_stepSize_ x (set_dEdx_ d (set_E_ e (set_material m s)))))))
    with (radiationLength_mp m1) by reflexivity.
  replace (mEE_ (set_material m1 (set_materialInterface_ (Some o1)
             (set_stepSize_ x (set_dEdx_ d (set_E_ e (set_material m s)))))))
    with (mEE_mp m1) by reflexivity.
  replace (matDensity_ (set_material m1 (set_materialInterface_ (Some o1) s)))
    with (density_ m1) by reflexivity.
  replace (matZ_ (set_material m1 (set_materialInterface_ (Some o1) s)))
    with (Z_ m1) by reflexivity.
  replace (matA_ (set_material m1 (set_materialInterface_ (Some o1) s)))
    with (A_ m1) by reflexivity.
  replace (radiationLength_ (set_material m1 (set_materialInterface_ (Some o1) s)))
    with (radiationLength_mp m1) by reflexivity.
  replace (mEE_ (set_material m1 (set_materialInterface_ (Some o1) s)))
    with (mEE_mp m1) by reflexivity.
  rewrite stepper_probe_scratch.
  set (sa := set_stepSize_ 1
               (set_material m1 (set_materialInterface_ (Some o1) s))).
  replace (matZ_ (set_E_ e (set_dEdx_ d sa))) with (matZ_ sa) by reflexivity.
  generalize (boundary_search 100 rep varField). intros search.
  destruct (Rlt_dec 1e-3 (matZ_ sa)).
  - rewrite momentumLoss_scratch.
    destruct (momentumLoss _ mom true pdg sa) as [[dp | ex] s']; reflexivity.
  - replace (ignoreBoundariesBetweenEqualMaterials_ (set_E_ e (set_dEdx_ d sa)))
      with (ignoreBoundariesBetweenEqualMaterials_ sa) by reflexivity.
    reflexivity.
Qed.

(** X26. The scratch fields do not leak from one call into the next:
    whatever earlier calls left in [stepSize_], [dEdx_], [E_] and the five
    material fields, [effects] gives the same outcome (the loss and the
    matrix, or the exception) and [stepper] gives the same outcome, the
    same limits, state vector, accumulated loss and current material, and
    asks the oracle the same questions. *)
Theorem scratch_fields_do_not_leak (s : MaterialEffects Oracle) (x d e : Scalar)
  (m : MaterialProperties) :
  let s2 := set_stepSize_ x (set_dEdx_ d (set_E_ e (set_material m s))) in
  (forall (steps : list RKStep) (materialsFXStart materialsFXStop : Z)
          (mom : Scalar) (pdg : Z) (noise : option M7x7),
     fst (effects steps materialsFXStart materialsFXStop mom pdg noise s2)
     = fst (effects steps materialsFXStart materialsFXStop mom pdg noise s)) /\
  (forall (rep : RKTrackRep) (mom : Scalar) (pdg : Z) (varField : bool)
          (f : StepperFrame),
     fst (stepper rep mom pdg varField f s2)
     = fst (stepper rep mom pdg varField f s)).
Proof.
  intros s2. split.
  - intros. apply effects_scratch. repeat split.
  - intros. apply stepper_scratch.
Qed.

End Scratch.

(** ** A proton through a centimetre of silicon *)

#[local] Existing Instance example_particles.

Lemma exp_cert_nine : 8100 <= exp 9.
Proof.
  apply Rle_trans
    with (IZR 8100000000000000000000 / IZR 1000000000000000000); [lra |].
  replace 9 with (IZR 9 / IZR 1) by lra.
  apply (exp_lower_bound 1000000000000000000 20). vm_compute. reflexivity.
Qed.

(** The four-stage estimate when the particle is not stopped. *)
Lemma momentumLoss_RK4_returns (s : MaterialEffects MaterialProperties)
  (stepSign mom : Scalar) (pdg : Z) (d1 d2 d3 d4 : Scalar) :
  let mass := getParticleMass pdg in
  let charge := getParticleCharge pdg in
  let E0 := hypot mom mass in
  let step := stepSize_ s * stepSign in
  dEdx s E0 mass charge pdg = Ret d1 ->
  dEdx s (E0 - d1 * step / 2) mass charge pdg = Ret d2 ->
  dEdx s (E0 - d2 * step / 2) mass charge pdg = Ret d3 ->
  dEdx s (E0 - d3 * step) mass charge pdg = Ret d4 ->
  mass < E0 - step * ((d1 + 2 * d2 + 2 * d3 + d4) / 6) ->
  momentumLoss stepSign mom false pdg s
  = (Ret (mom - sqrt ((E0 - step * ((d1 + 2 * d2 + 2 * d3 + d4) / 6)) ^ 2
                      - mass * mass)),
     set_E_ (E0 - (d1 + 2 * d2 + 2 * d3 + d4) / 6 * step * 0.5)
            (set_dEdx_ ((d1 + 2 * d2 + 2 * d3 + d4) / 6) s)).
Proof.
  intros mass charge E0 step H1 H2 H3 H4 Hgo.
  unfold momentumLoss, bind, lift, get, modify, ret.
  fold mass. fold charge. fold E0. fold step.
  rewrite H1, H2, H3, H4.
  cbn [dEdx_ set_dEdx_].
  destruct (Rle_dec _ mass) as [Hn | _]; [lra | reflexivity].
Qed.

(** The loss rate of a proton in silicon for [gamma] between 1.2 and
    1.26: positive, and below 11.6 MeV/cm. *)
Lemma proton_layer_rate (s : MaterialEffects MaterialProperties)
  (energy : Scalar) :
  energyLossBetheBloch_ s = true -> current_material s = silicon ->
  1.2 * 0.938272 <= energy <= 1.26 * 0.938272 ->
  exists d : Scalar,
    dEdx s energy (getParticleMass 2212) (getParticleCharge 2212) 2212 = Ret d /\
    0 < d <= 0.0116.
Proof.
  intros Hbb Hmat HE. unfold current_material, silicon in Hmat.
  injection Hmat as Hrho HZ HA _ HmEE.
  destruct (proton_silicon_dEdx s Hbb HZ HA Hrho HmEE energy 1.2 1.26 1 9)
    as (d & Hd & Hlo & Hhi).
  - lra.
  - exact HE.
  - lra.
  - eapply Rle_trans; [apply ln_3_ge_1 | apply ln_monotone; lra].
  - apply (ln_le_from_exp _ _ 8100); [lra | lra | apply exp_cert_nine].
  - lra.
  - exists d. split; [exact Hd | lra].
Qed.

(** The four-stage estimate over at most 1 cm of silicon, for a proton
    whose [gamma] is between 1.23 and 1.26: it returns a loss that is
    positive and below the momentum, and the momentum left has the
    energy [E0 - step * dEdx_]. *)
Lemma proton_layer_momentumLoss (s : MaterialEffects MaterialProperties)
  (mom x : Scalar) :
  energyLossBetheBloch_ s = true -> current_material s = silicon ->
  stepSize_ s = x -> 0 < x <= 1 -> 0 < mom ->
  1.23 * 0.938272 <= hypot mom (getParticleMass 2212) <= 1.26 * 0.938272 ->
  exists loss d : Scalar,
    momentumLoss 1 mom false 2212 s
    = (Ret loss,
       set_E_ (hypot mom (getParticleMass 2212) - d * (x * 1) * 0.5)
              (set_dEdx_ d s)) /\
    0 < d <= 0.0116 /\ 0 < loss < mom /\
    hypot (mom - loss) (getParticleMass 2212)
    = hypot mom (getParticleMass 2212) - x * d.
Proof.
  intros Hbb Hmat Hstep Hx Hmom HE.
  set (E0 := hypot mom (getParticleMass 2212)) in *.
  destruct (proton_layer_rate s E0 Hbb Hmat) as (d1 & H1 & B1); [lra |].
  destruct (proton_layer_rate s (E0 - d1 * (x * 1) / 2) Hbb Hmat)
    as (d2 & H2 & B2); [nra |].
  destruct (proton_layer_rate s (E0 - d2 * (x * 1) / 2) Hbb Hmat)
    as (d3 & H3 & B3); [nra |].
  destruct (proton_layer_rate s (E0 - d3 * (x * 1)) Hbb Hmat)
    as (d4 & H4 & B4); [nra |].
  set (d := (d1 + 2 * d2 + 2 * d3 + d4) / 6).
  assert (Hd : 0 < d <= 0.0116) by (unfold d; lra).
  assert (Hgo : getParticleMass 2212 < E0 - x * 1 * d)
    by (rewrite proton_mass; nra).
  pose proof (momentumLoss_RK4_returns s 1 mom 2212 d1 d2 d3 d4) as Hret.
  cbv zeta in Hret. fold E0 in Hret. rewrite Hstep in Hret.
  specialize (Hret H1 H2 H3 H4 Hgo). fold d in Hret.
  assert (Hm0 : 0 <= getParticleMass 2212) by (rewrite proton_mass; lra).
  destruct (hypot_of_root (E0 - x * 1 * d) (getParticleMass 2212) Hm0 Hgo)
    as [Hpos Hroot].
  pose proof (sqrt_lt_R0 _ Hpos) as Hsq.
  assert (Hloss : 0 < mom - sqrt ((E0 - x * 1 * d) ^ 2
                                  - getParticleMass 2212 * getParticleMass 2212)).
  { eapply (momentumLoss_forward_positive s) with (linear := false)
                                                   (pdg := 2212%Z).
    - exact Hmom.
    - rewrite Hstep. lra.
    - exact Hm0.
    - exact Hret.
    - cbn [dEdx_ set_E_ set_dEdx_]. lra. }
  exists (mom - sqrt ((E0 - x * 1 * d) ^ 2
                      - getParticleMass 2212 * getParticleMass 2212)), d.
  split; [| split; [exact Hd | split; [lra |]]].
  - rewrite Hret. reflexivity.
  - replace (mom - (mom - sqrt ((E0 - x * 1 * d) ^ 2
                                - getParticleMass 2212 * getParticleMass 2212)))
      with (sqrt ((E0 - x * 1 * d) ^ 2
                  - getParticleMass 2212 * getParticleMass 2212)) by lra.
    rewrite Hroot. lra.
Qed.

(** One turn of the loop of [effects] over the layer: the loss grows by
    the loss of the layer, a matrix is handed back if one was given, and
    the scratch fields hold the layer. *)
Lemma effects_step_layer (s : MaterialEffects MaterialProperties)
  (mom l : Scalar) (noise : option M7x7) :
  energyLossBetheBloch_ s = true -> msc_ok s -> 0 < mom - l ->
  1.23 * 0.938272 <= hypot (mom - l) (getParticleMass 2212)
                  <= 1.26 * 0.938272 ->
  exists (dp d : Scalar) (noise' : option M7x7)
         (s' : MaterialEffects MaterialProperties),
    effects_step mom 2212 (getParticleMass 2212) silicon_layer (l, noise) s
    = (Ret (l + dp, noise'), s') /\
    0 < dp < mom - l /\ 0 < d <= 0.0116 /\
    hypot (mom - l - dp) (getParticleMass 2212)
    = hypot (mom - l) (getParticleMass 2212) - d /\
    (noise = None <-> noise' = None) /\
    holds_substep silicon_layer s'.
Proof.
  intros Hbb Hmsc Hmom HE. unfold effects_step.
  change (MatStep.stepSize_ (matStep_ silicon_layer)) with 1.
  change (MatStep.materialProperties_ (matStep_ silicon_layer)) with silicon.
  rewrite Rabs_R1.
  destruct (Rlt_dec 1 1e-8) as [Hlt | _]; [lra |].
  destruct (Rlt_dec 1 0) as [Hlt | _]; [lra |].
  unfold bind, modify, get, lift, ret, throw. cbv beta iota.
  set (s2 := set_material silicon (set_stepSize_ 1 s)).
  change (matZ_ s2) with 14.
  destruct (Rlt_dec 1e-3 14) as [_ | Hn]; [| lra].
  destruct (proton_layer_momentumLoss s2 (mom - l) 1 Hbb eq_refl eq_refl
              ltac:(lra) Hmom HE) as (dp & d & Hret & Hd & Hdp & Hleft).
  rewrite Hret.
  set (s3 := set_E_ _ (set_dEdx_ d s2)) in *.
  assert (Hholds : holds_substep silicon_layer s3).
  { split; [cbn; symmetry; apply Rabs_R1 | reflexivity]. }
  exists dp, d.
  destruct noise as [noise |].
  - assert (HE3 : getParticleMass 2212 < E_ s3).
    { rewrite proton_mass. unfold s3. cbn [E_ set_E_]. nra. }
    destruct (Rle_dec (E_ s3) (getParticleMass 2212)) as [Habs | _]; [lra |].
    assert (Hmsc3 : mscModelCode_ s3 = 0%Z \/ mscModelCode_ s3 = 1%Z)
      by exact Hmsc.
    destruct (noiseCoulomb_ s3).
    + rewrite (noiseCoulomb_returns s3 _ _ _ _ _ Hmsc3).
      eexists; eexists. split; [reflexivity |].
      repeat split; try lra; try discriminate; try apply Hholds.
    + eexists; eexists. split; [reflexivity |].
      repeat split; try lra; try discriminate; try apply Hholds.
  - exists None, s3. split; [reflexivity |].
    repeat split; try lra; try apply Hholds.
Qed.

(** A segment that is the layer alone. *)
Lemma effects_single_layer (steps : list RKStep) (a b : Z)
  (mom : Scalar) (noise : option M7x7)
  (s : MaterialEffects MaterialProperties) :
  steps_range steps a b = [silicon_layer] ->
  noEffects_ s = false -> materialInterface_ s <> None ->
  energyLossBetheBloch_ s = true -> msc_ok s -> 0 < mom ->
  1.23 * 0.938272 <= hypot mom (getParticleMass 2212) <= 1.26 * 0.938272 ->
  exists (l d : Scalar) (noise' : option M7x7)
         (s' : MaterialEffects MaterialProperties),
    effects steps a b mom 2212 noise s = (Ret (l, noise'), s') /\
    0 < l < mom /\ 0 < d <= 0.0116 /\
    hypot (mom - l) (getParticleMass 2212)
    = hypot mom (getParticleMass 2212) - d /\
    (noise = None <-> noise' = None) /\
    holds_substep silicon_layer s'.
Proof.
  intros Hrange Hno Hifc Hbb Hmsc Hmom HE.
  rewrite effects_active by assumption. rewrite Hrange.
  cbn [effects_loop]. unfold bind at 1.
  destruct (effects_step_layer s mom 0 noise Hbb Hmsc)
    as (dp & d & noise' & s' & Hstep & Hdp & Hd & Hleft & Hn & Hholds).
  - lra.
  - replace (mom - 0) with mom by lra. exact HE.
  - match goal with
    | |- context [effects_step ?m ?p ?ms ?it ?acc s] =>
        replace (effects_step m p ms it acc s)
          with (@Ret (Scalar * option M7x7) (0 + dp, noise'), s')
          by (symmetry; exact Hstep)
    end.
    unfold ret.
    replace (mom - 0) with mom in * by lra.
    destruct (Rge_dec (0 + dp) mom) as [Hge | _]; [lra |].
    exists (0 + dp), d, noise', s'. split; [reflexivity |].
    replace (mom - (0 + dp)) with (mom - 0 - dp) by lra.
    replace (mom - 0 - dp) with (mom - dp) in * by lra.
    repeat split; try lra; try apply Hn; try apply Hholds.
Qed.

Lemma substantial_silicon_layer : substantial silicon_layer = true.
Proof.
  unfold substantial.
  change (MatStep.stepSize_ (matStep_ silicon_layer)) with 1.
  rewrite Rabs_R1. destruct (Rlt_dec 1 1e-8); [lra | reflexivity].
Qed.

Lemma substantial_vacuum_gap : substantial vacuum_gap = true.
Proof.
  unfold substantial.
  change (MatStep.stepSize_ (matStep_ vacuum_gap)) with 5.
  rewrite Rabs_right by lra. destruct (Rlt_dec 5 1e-8); [lra | reflexivity].
Qed.

Lemma substantial_short_step : substantial short_step = false.
Proof.
  unfold substantial.
  change (MatStep.stepSize_ (matStep_ short_step)) with 1e-9.
  rewrite Rabs_right by lra. destruct (Rlt_dec 1e-9 1e-8); [reflexivity | lra].
Qed.

Lemma effects_step_skipped (mom : Scalar) (pdg : Z) (mass : Scalar)
  (it : RKStep) (acc : Scalar * option M7x7)
  (s : MaterialEffects MaterialProperties) :
  substantial it = false ->
  effects_step mom pdg mass it acc s = (Ret acc, s).
Proof.
  intros Hskip.
  destruct (effects_step_state mom pdg mass it acc s)
    as [[_ Heq] | [Habs _]]; [exact Heq | congruence].
Qed.

(** The layer, then a vacuum gap, then a sub-step that is skipped. *)
Lemma effects_layer_gap_short (mom : Scalar) (noise : option M7x7)
  (s : MaterialEffects MaterialProperties) :
  noEffects_ s = false -> materialInterface_ s <> None ->
  energyLossBetheBloch_ s = true -> msc_ok s -> 0 < mom ->
  1.23 * 0.938272 <= hypot mom (getParticleMass 2212) <= 1.26 * 0.938272 ->
  exists (l : Scalar) (noise' : option M7x7)
         (s' : MaterialEffects MaterialProperties),
    effects [silicon_layer; vacuum_gap; short_step] 0 3 mom 2212 noise s
    = (Ret (l, noise'), s') /\
    0 < l < mom.
Proof.
  intros Hno Hifc Hbb Hmsc Hmom HE.
  rewrite effects_active by assumption.
  change (steps_range [silicon_layer; vacuum_gap; short_step] 0 3)
    with [silicon_layer; vacuum_gap; short_step].
  cbn [effects_loop]. unfold bind at 1.
  destruct (effects_step_layer s mom 0 noise Hbb Hmsc)
    as (dp & d & noise' & s' & Hstep & Hdp & _).
  - lra.
  - replace (mom - 0) with mom by lra. exact HE.
  - match goal with
    | |- context [effects_step ?m ?p ?ms silicon_layer ?acc s] =>
        replace (effects_step m p ms silicon_layer acc s)
          with (@Ret (Scalar * option M7x7) (0 + dp, noise'), s')
          by (symmetry; exact Hstep)
    end.
    unfold bind at 1.
    rewrite effects_step_vacuum by (cbn; lra).
    unfold bind at 1.
    rewrite effects_step_skipped by apply substantial_short_step.
    unfold ret.
    destruct (Rge_dec (0 + dp) mom) as [Hge | _]; [lra |].
    eexists; eexists; eexists. split; [reflexivity | lra].
Qed.

Lemma effects_short_step_alone (mom : Scalar) (noise : option M7x7)
  (s : MaterialEffects MaterialProperties) :
  noEffects_ s = false -> materialInterface_ s <> None -> 0 < mom ->
  effects [short_step] 0 1 mom 2212 noise s = (Ret (0, noise), s).
Proof.
  intros Hno Hifc Hmom. rewrite effects_active by assumption.
  change (steps_range [short_step] 0 1) with [short_step].
  cbn [effects_loop]. unfold bind at 1.
  rewrite effects_step_skipped by apply substantial_short_step.
  unfold ret.
  destruct (Rge_dec 0 mom); [lra | reflexivity].
Qed.

(** ** Worked examples for the further properties *)

#[local] Existing Instance example_particles.
#[local] Existing Instance uniform_medium.
#[local] Existing Instance example_limits_ops.

Lemma proton_not_electron : Z.abs 2212 <> 11%Z.
Proof. discriminate. Qed.

Lemma proton_mass_nonneg : 0 <= getParticleMass 2212.
Proof. rewrite proton_mass. lra. Qed.

(** The rate at the energy of the proton of 0.703704 GeV/c, in any
    object whose material is silicon and whose ionisation switch is on. *)
Lemma proton_rate_in_silicon (s : MaterialEffects MaterialProperties) :
  energyLossBetheBloch_ s = true -> current_material s = silicon ->
  exists d : Scalar,
    dEdx s (hypot 0.703704 (getParticleMass 2212)) (getParticleMass 2212)
         (getParticleCharge 2212) 2212 = Ret d /\
    0.0076758 <= d <= 0.0076767.
Proof.
  intros Hbb Hmat. unfold current_material, silicon in Hmat.
  injection Hmat as Hrho HZ HA _ HmEE.
  apply (proton_silicon_stage_0 s Hbb HZ HA Hrho HmEE). apply proton_energy.
Qed.

(** The proton through 1 cm of silicon, four-stage estimate: it loses
    momentum, the rate stored is not negative and the mid-step energy is
    below the incoming one. *)
Lemma momentumLoss_rate_never_negative_witness :
  exists (loss : Scalar) (s' : MaterialEffects MaterialProperties),
    momentumLoss 1 0.703704 false 2212 (in_material silicon 1)
    = (Ret loss, s') /\
    0 < loss /\
    0 <= dEdx_ s' /\ loss <= 0.703704 /\
    E_ s' <= hypot 0.703704 (getParticleMass 2212).
Proof.
  assert (HE : 1.23 * 0.938272 <= hypot 0.703704 (getParticleMass 2212)
               <= 1.26 * 0.938272) by (rewrite proton_energy; lra).
  destruct (proton_layer_momentumLoss (in_material silicon 1) 0.703704 1
              eq_refl eq_refl eq_refl ltac:(lra) ltac:(lra) HE)
    as (loss & d & Hret & _ & Hloss & _).
  assert (Hmass : 0 < getParticleMass 2212) by (rewrite proton_mass; lra).
  assert (Hstep : 0 <= stepSize_ (in_material silicon 1))
    by (change (stepSize_ (in_material silicon 1)) with 1; lra).
  destruct (momentumLoss_rate_never_negative (in_material silicon 1) _
              1 0.703704 false 2212 loss Hmass Hstep Hret)
    as (Hrate & Hle & Hfwd & _).
  eexists; eexists. split; [exact Hret |].
  split; [lra | split; [exact Hrate | split; [exact Hle |]]].
  apply Hfwd. reflexivity.
Defined.

(** The same proton over a step of length zero, four-stage estimate. *)
Lemma momentumLoss_zero_step_witness :
  exists (d loss : Scalar) (s' : MaterialEffects MaterialProperties),
    dEdx (in_material silicon 0) (hypot 0.703704 (getParticleMass 2212))
         (getParticleMass 2212) (getParticleCharge 2212) 2212 = Ret d /\
    momentumLoss 1 0.703704 false 2212 (in_material silicon 0)
    = (Ret loss, s') /\
    E_ s' = hypot 0.703704 (getParticleMass 2212) /\
    dEdx_ s' = (d + 2 * d + 2 * d + d) / 6.
Proof.
  destruct (proton_rate_in_silicon (in_material silicon 0) eq_refl eq_refl)
    as (d & Hd & _).
  destruct (momentumLoss_zero_step (in_material silicon 0) 1 0.703704 false
              2212 d eq_refl Hd) as (loss & s' & Hret & HE & Hrate).
  exists d, loss, s'.
  split; [exact Hd | split; [exact Hret | split; [exact HE | exact Hrate]]].
Defined.

(** The same proton over 1000 cm of silicon, four-stage estimate. *)
Lemma momentumLoss_RK4_long_step_throws_witness :
  momentumLoss 1 0.703704 false 2212 (in_material silicon 1000)
  = (Throw (Exception "MaterialEffects::dEdx - Energy <= mass" true),
     in_material silicon 1000).
Proof.
  destruct (proton_rate_in_silicon (in_material silicon 1000) eq_refl eq_refl)
    as (d & Hd & Hb).
  apply (momentumLoss_RK4_long_step_throws (in_material silicon 1000) 1
           0.703704 2212 d Hd).
  rewrite proton_energy, proton_mass. cbn [stepSize_ in_material set_stepSize_].
  lra.
Defined.

(** A proton of 1 GeV/c in silicon with the ionisation switch off. *)
Lemma momentumLoss_heavy_without_ionisation_witness :
  exists (loss : Scalar) (s' : MaterialEffects MaterialProperties),
    momentumLoss 1 1 false 2212
      (set_energyLossBetheBloch_ false (in_material silicon 1))
    = (Ret loss, s') /\
    dEdx_ s' = 0 /\ E_ s' = hypot 1 (getParticleMass 2212).
Proof.
  apply (momentumLoss_heavy_without_ionisation
           (set_energyLossBetheBloch_ false (in_material silicon 1))
           1 1 false 2212 eq_refl proton_not_electron).
  apply hypot_gt; [lra | apply proton_mass_nonneg].
Defined.

(** Two layers of 1 cm of silicon with a noise matrix, taken one after
    the other and in one call: each layer costs momentum, the second
    call starts from the momentum the first one left, and the one call
    returns the sum of the two losses with the matrix and the object of
    the second. *)
Lemma effects_over_split_segment_witness :
  exists (l1 l2 : Scalar) (n1 n2 : M7x7)
         (s1 s2 : MaterialEffects MaterialProperties),
    0 < l1 /\ 0 < l2 /\
    effects [silicon_layer; silicon_layer] 0 1 0.703704 2212
      (Some (zeros 49)) (in_material silicon 0)
    = (Ret (l1, Some n1), s1) /\
    effects [silicon_layer; silicon_layer] 1 2 (0.703704 - l1) 2212
      (Some n1) s1
    = (Ret (l2, Some n2), s2) /\
    effects [silicon_layer; silicon_layer] 0 2 0.703704 2212
      (Some (zeros 49)) (in_material silicon 0)
    = (Ret (l1 + l2, Some n2), s2).
Proof.
  assert (HE : 1.23 * 0.938272 <= hypot 0.703704 (getParticleMass 2212)
               <= 1.26 * 0.938272) by (rewrite proton_energy; lra).
  destruct (effects_single_layer [silicon_layer; silicon_layer] 0 1 0.703704
              (Some (zeros 49)) (in_material silicon 0) eq_refl eq_refl
              ltac:(discriminate) eq_refl (or_introl eq_refl) ltac:(lra) HE)
    as (l1 & d1 & n1' & s1 & H1 & Hl1 & Hd1 & Hleft1 & Hn1 & _).
  destruct n1' as [n1 |];
    [| destruct Hn1 as [_ Hn1]; discriminate (Hn1 eq_refl)].
  pose proof (effects_configuration [silicon_layer; silicon_layer] 0 1
                0.703704 2212 (Some (zeros 49)) (in_material silicon 0))
    as Hcfg.
  rewrite H1 in Hcfg. cbn [snd] in Hcfg.
  destruct Hcfg as (c1 & c2 & _ & _ & _ & _ & _ & c8 & c9 & _).
  assert (HE1 : 1.23 * 0.938272
                <= hypot (0.703704 - l1) (getParticleMass 2212)
                <= 1.26 * 0.938272)
    by (rewrite Hleft1, proton_energy; lra).
  destruct (effects_single_layer [silicon_layer; silicon_layer] 1 2
              (0.703704 - l1) (Some n1) s1 eq_refl c1
              ltac:(rewrite c9; discriminate) c2
              ltac:(left; exact c8) ltac:(lra) HE1)
    as (l2 & d2 & n2' & s2 & H2 & Hl2 & _ & _ & Hn2 & _).
  destruct n2' as [n2 |];
    [| destruct Hn2 as [_ Hn2]; discriminate (Hn2 eq_refl)].
  exists l1, l2, n1, n2, s1, s2.
  split; [lra | split; [lra | split; [exact H1 | split; [exact H2 |]]]].
  apply (effects_over_split_segment [silicon_layer; silicon_layer] 0 1 2
           0.703704 2212 (Some (zeros 49)) (Some n1) (Some n2) l1 l2
           (in_material silicon 0) s1 s2).
  - lia.
  - cbn. lia.
  - exact H1.
  - exact H2.
Defined.

Lemma last_substantial_layer_gap_short :
  last_substantial (steps_range [silicon_layer; vacuum_gap; short_step] 0 3)
  = Some vacuum_gap.
Proof.
  change (steps_range [silicon_layer; vacuum_gap; short_step] 0 3)
    with [silicon_layer; vacuum_gap; short_step].
  unfold last_substantial. cbn [fold_left].
  rewrite substantial_silicon_layer, substantial_vacuum_gap,
    substantial_short_step.
  reflexivity.
Qed.

Lemma last_substantial_short_step :
  last_substantial (steps_range [short_step] 0 1) = None.
Proof.
  change (steps_range [short_step] 0 1) with [short_step].
  unfold last_substantial. cbn [fold_left].
  rewrite substantial_short_step. reflexivity.
Qed.

(** A layer of silicon, a vacuum gap and a sub-step that is skipped:
    the call returns a positive loss and the scratch fields hold the gap,
    the last sub-step that was not skipped.  A range with nothing but the
    skipped sub-step leaves the object as it was. *)
Lemma effects_leaves_last_substep_witness :
  (exists (r : Scalar * option M7x7)
          (s' : MaterialEffects MaterialProperties),
     effects [silicon_layer; vacuum_gap; short_step] 0 3 0.703704 2212 None
       (in_material silicon 0)
     = (Ret r, s') /\
     0 < fst r /\ holds_substep vacuum_gap s') /\
  (exists (r : Scalar * option M7x7)
          (s' : MaterialEffects MaterialProperties),
     effects [short_step] 0 1 0.703704 2212 None (in_material silicon 0)
     = (Ret r, s') /\
     s' = in_material silicon 0).
Proof.
  assert (HE : 1.23 * 0.938272 <= hypot 0.703704 (getParticleMass 2212)
               <= 1.26 * 0.938272) by (rewrite proton_energy; lra).
  split.
  - destruct (effects_layer_gap_short 0.703704 None (in_material silicon 0)
                eq_refl ltac:(discriminate) eq_refl (or_introl eq_refl)
                ltac:(lra) HE) as (l & noise' & s' & Hret & Hl).
    pose proof (effects_leaves_last_substep
                  [silicon_layer; vacuum_gap; short_step] 0 3 0.703704 2212
                  None (l, noise') (in_material silicon 0) s' eq_refl Hret)
      as Hlast.
    rewrite last_substantial_layer_gap_short in Hlast.
    exists (l, noise'), s'.
    split; [exact Hret | split; [cbn [fst]; lra | exact Hlast]].
  - pose proof (effects_short_step_alone 0.703704 None (in_material silicon 0)
                  eq_refl ltac:(discriminate) ltac:(lra)) as Hret.
    pose proof (effects_leaves_last_substep [short_step] 0 1 0.703704 2212
                  None (0, None) (in_material silicon 0)
                  (in_material silicon 0) eq_refl Hret) as Hlast.
    rewrite last_substantial_short_step in Hlast.
    exists (0, None), (in_material silicon 0).
    split; [exact Hret | exact Hlast].
Defined.

(** Scattering in 1 cm of silicon along (0.6, 0, 0.8), on a zero matrix. *)
Lemma noiseCoulomb_variances_never_decrease_witness :
  exists noise' : M7x7,
    noiseCoulomb (in_material silicon 1) (zeros 49) [0.6; 0; 0.8] 1 0.5 2212
    = Ret noise' /\
    at_ (zeros 49) (3 * 7 + 3) <= at_ noise' (3 * 7 + 3).
Proof.
  eexists. split.
  - apply (noiseCoulomb_returns (in_material silicon 1)). left; reflexivity.
  - apply (noiseCoulomb_variances_never_decrease (in_material silicon 1)
             (zeros 49) _ [0.6; 0; 0.8] 1 0.5 2212).
    + intros i Hi. destruct i as [| [| [| i]]]; try lia; cbn; lra.
    + apply (noiseCoulomb_returns (in_material silicon 1)). left; reflexivity.
    + lia.
Defined.

(** 1 cm and 2 cm of silicon against 3 cm, GEANE model. *)
Lemma noiseCoulomb_sigma2_GEANE_additive_witness :
  noiseCoulomb_sigma2 (set_stepSize_ (1 + 2) (in_material silicon 1)) 1 0.5 2212
  = noiseCoulomb_sigma2 (set_stepSize_ 1 (in_material silicon 1)) 1 0.5 2212
    + noiseCoulomb_sigma2 (set_stepSize_ 2 (in_material silicon 1)) 1 0.5 2212.
Proof.
  apply (noiseCoulomb_sigma2_GEANE_additive (in_material silicon 1) 1 0.5 2212
           1 2 eq_refl); lra.
Defined.

(** An empty range in silicon, with momentum 1 and with momentum 0. *)
Lemma effects_empty_range_witness :
  effects [vacuum_gap] 1 1 1 2212 None (in_material silicon 1)
  = (Ret (0, None), in_material silicon 1) /\
  exists msg : string,
    effects [vacuum_gap] 1 1 0 2212 None (in_material silicon 1)
    = (Throw (Exception msg true), in_material silicon 1).
Proof.
  split.
  - apply (proj1 (effects_empty_range [vacuum_gap] 1 1 2212 None
                    (in_material silicon 1) eq_refl ltac:(discriminate))).
    lra.
  - apply (proj2 (effects_empty_range [vacuum_gap] 1 0 2212 None
                    (in_material silicon 1) eq_refl ltac:(discriminate))).
    lra.
Defined.

Lemma fresh_frame_lowest_limit :
  1e-4 <= Rabs (getLowestLimitSignedVal (limits fresh_frame)).
Proof.
  change (getLowestLimitSignedVal (limits fresh_frame)) with (1 * 99e99).
  rewrite Rabs_right; lra.
Qed.

(** A proton of 10 MeV/c is below the Bethe-Bloch floor: the loss
    estimate of [stepper] throws. *)
Lemma slow_proton_estimate_throws :
  exists msg : string,
    momentumLoss 1 0.01 true 2212 proton_probe
    = (Throw (Exception msg true), proton_probe).
Proof.
  destruct (dEdx_below_floor proton_probe (hypot 0.01 (getParticleMass 2212))
              (getParticleMass 2212) (getParticleCharge 2212) 2212)
    as [msg Hmsg].
  - rewrite proton_mass. lra.
  - apply hypot_gt; [lra | apply proton_mass_nonneg].
  - reflexivity.
  - apply betaGamma_hypot_lt; rewrite proton_mass; lra.
  - exists msg. apply momentumLoss_first_rate_throws. exact Hmsg.
Qed.

Lemma slow_proton_stepper_throws :
  exists msg : string,
    stepper still_rep 0.01 2212 false fresh_frame (in_material silicon 1)
    = (Throw (Exception msg true),
       mkStepperFrame (make_minStep 1 1e-4 along_z) 0 silicon
         (mk_example_limits [] 1)
         [call_initTrack (at_ (make_minStep 1 1e-4 along_z) 0)
            (at_ (make_minStep 1 1e-4 along_z) 1)
            (at_ (make_minStep 1 1e-4 along_z) 2)
            (1 * at_ (make_minStep 1 1e-4 along_z) 3)
            (1 * at_ (make_minStep 1 1e-4 along_z) 4)
            (1 * at_ (make_minStep 1 1e-4 along_z) 5);
          call_getMaterialParameters],
       proton_probe).
Proof.
  destruct slow_proton_estimate_throws as [msg Hthrow].
  exists msg.
  apply (stepper_probe_throw still_rep 0.01 2212 false fresh_frame
           (in_material silicon 1) proton_probe silicon (Exception msg true)
           ltac:(lra) eq_refl eq_refl
           ltac:(change (relMomLoss fresh_frame) with 0; lra)
           fresh_frame_lowest_limit
           ltac:(change (1e-3 < 14); lra) Hthrow).
Qed.

(** The call of [stepper] for that proton: the limits and the
    accumulated loss are those of the call, the exception is fatal. *)
Lemma stepper_failure_keeps_limits_witness :
  exists (e : exn) (f' : @StepperFrame example_limits)
         (s' : MaterialEffects MaterialProperties),
    stepper still_rep 0.01 2212 false fresh_frame (in_material silicon 1)
    = (Throw e, f', s') /\
    limits f' = limits fresh_frame /\
    relMomLoss f' = relMomLoss fresh_frame /\
    state7 f' = make_minStep 1 1e-4 along_z.
Proof.
  destruct slow_proton_stepper_throws as [msg Hthrow].
  do 3 eexists. split; [exact Hthrow |].
  destruct (stepper_failure_keeps_limits still_rep 0.01 2212 false fresh_frame
              _ (in_material silicon 1) _ _ Hthrow) as (Hlim & Hrel & _).
  split; [exact Hlim | split; [exact Hrel | reflexivity]].
Defined.

Lemma stepper_loss_estimate_throws_witness :
  exists msg : string,
    stepper still_rep 0.01 2212 false fresh_frame (in_material silicon 1)
    = (Throw (Exception msg true),
       mkStepperFrame (make_minStep 1 1e-4 along_z) 0 silicon
         (mk_example_limits [] 1)
         [call_initTrack (at_ (make_minStep 1 1e-4 along_z) 0)
            (at_ (make_minStep 1 1e-4 along_z) 1)
            (at_ (make_minStep 1 1e-4 along_z) 2)
            (1 * at_ (make_minStep 1 1e-4 along_z) 3)
            (1 * at_ (make_minStep 1 1e-4 along_z) 4)
            (1 * at_ (make_minStep 1 1e-4 along_z) 5);
          call_getMaterialParameters],
       proton_probe).
Proof.
  destruct slow_proton_estimate_throws as [msg Hthrow].
  exists msg.
  apply (stepper_loss_estimate_throws still_rep 0.01 2212 false fresh_frame
           (in_material silicon 1) proton_probe silicon (Exception msg true)
           ltac:(lra) eq_refl eq_refl
           ltac:(change (relMomLoss fresh_frame) with 0; lra)
           fresh_frame_lowest_limit
           ltac:(change (1e-3 < 14); lra) Hthrow).
Defined.

(** The proton of 0.703704 GeV/c on its first call in silicon: the
    limit installed under [stp_momLoss] uses up the budget of 0.01. *)
Lemma stepper_momLoss_limit_meets_cap_witness :
  exists (dp L B : Scalar) (f' : @StepperFrame example_limits)
         (s' : MaterialEffects MaterialProperties),
    0 < dp /\
    stepper still_rep 0.703704 2212 false fresh_frame (in_material silicon 1)
    = (Ret tt, f', s') /\
    limits f'
    = setLimit stp_boundary B (setLimit stp_momLoss L (limits fresh_frame)) /\
    0 <= L /\ relMomLoss fresh_frame + dp / 0.703704 * L = 0.01.
Proof.
  destruct (proton_rate_in_silicon proton_probe eq_refl eq_refl)
    as (d & Hd & Hb).
  destruct (momentumLoss_linear_returns proton_probe 1 0.703704 2212)
    as (loss & d' & Hd' & Hret).
  { rewrite proton_mass. lra. }
  { rewrite proton_energy, proton_mass. lra. }
  { intros _. apply betaGamma_hypot_ge; rewrite proton_mass; lra. }
  assert (Hdd : d' = d) by congruence. subst d'.
  assert (Hpos : 0 < loss).
  { apply (momentumLoss_forward_positive proton_probe _ 0.703704 true 2212
             loss ltac:(lra)
             ltac:(change (stepSize_ proton_probe) with 1; lra)
             proton_mass_nonneg Hret).
    cbn [dEdx_ set_E_ set_dEdx_]. lra. }
  destruct (stepper_momLoss_limit_meets_cap still_rep 0.703704 2212 false
              fresh_frame (in_material silicon 1) _ silicon loss
              ltac:(lra) eq_refl eq_refl
              ltac:(change (relMomLoss fresh_frame) with 0; lra)
              fresh_frame_lowest_limit
              ltac:(change (1e-3 < 14); lra) Hret Hpos)
    as (L & B & f' & s' & Hstep & Hlim & HL & Hcap & _).
  exists loss, L, B, f', s'.
  split; [exact Hpos | split; [exact Hstep | split; [exact Hlim |]]].
  split; [exact HL | exact Hcap].
Defined.


(** ** Integer polynomials: evaluation, shift, derivative, positivity *)















(** ** The truncated-Landau width along the step length *)






(** ** The product of the Landau width and [zeta] *)












Section LandauProduct.

Variables betaSquare Emax : R.
Hypothesis Emax_pos : 0 < Emax.
Hypothesis betaSquare_range : 0 < betaSquare <= 1.

(** [RLAMED] at a given [zeta]. *)
Let RLAMED (z : R) : R := - 0.422784 - betaSquare - ln (z / Emax).






End LandauProduct.

(** ** A floor of the truncated-Landau variance below the switch *)









Lemma exp_cert_node_7 : 923 <= exp 6.828448.
Proof.
  apply Rle_trans
    with (IZR 923000000000000000000 / IZR 1000000000000000000); [lra |].
  replace 6.828448 with (IZR 6828448 / IZR 1000000) by lra.
  apply (exp_lower_bound 1000000000000000000 20). vm_compute. reflexivity.
Qed.

Lemma exp_cert_minus (zn zd c : Z) (b q : R) :
  exp_lb_check 1000000000000000000 20 zn zd c = true ->
  - b = IZR zn / IZR zd -> q <= IZR c / IZR 1000000000000000000 ->
  q <= exp (- b).
Proof.
  intros Hcheck -> Hq.
  eapply Rle_trans; [exact Hq |].
  apply (exp_lower_bound 1000000000000000000 20). exact Hcheck.
Qed.

(** [RLAMAX] reaches 1010 before [RLAMED = 7.9]. *)
Lemma Landau_switch_below (L : R) :
  0 <= L -> Landau_RLAMAX L <= 1010 -> L < 7.9.
Proof.
  intros HL HR.
  destruct (Rlt_le_dec L 7.9) as [Hlt | Hge]; [assumption |].
  exfalso.
  assert (H0 : 0 <= 7.9) by lra.
  assert (He : 0 <= 923) by lra.
  pose proof (Landau_RLAMAX_lower L 7.9 923 H0 Hge He) as Hlow.
  replace (0.94753 + 0.74442 * 7.9) with 6.828448 in Hlow by lra.
  specialize (Hlow exp_cert_node_7). lra.
Qed.




Section LandauFloor.

Variables betaSquare Emax : R.
Hypothesis Emax_pos : 0 < Emax.
Hypothesis betaSquare_range : 0 < betaSquare <= 1.


(** Above the switch [sigmaalpha] is at least 31.81. *)
Lemma Landau_line_floor (z : R) :
  1010 < Landau_RLAMAX (- 0.422784 - betaSquare - ln (z / Emax)) ->
  31.81 <= Landau_sigmaalpha betaSquare z Emax.
Proof.
  intros HR. unfold Landau_sigmaalpha.
  set (L := - 0.422784 - betaSquare - ln (z / Emax)) in *.
  destruct (Rle_dec (Landau_RLAMAX L) 1010) as [Hle | _]; [exfalso; lra |].
  destruct (Rlt_dec 54.6 _); lra.
Qed.

End LandauFloor.

(** ** The straggling increment at two step lengths *)

Section StragglingSteps.

Context {Oracle : Type} `{ParticleData}.


Lemma straggling_formula_Landau (s : MaterialEffects Oracle)
  (betaSquare gamma gammaSquare : Scalar) (pdg : Z) :
  straggling_formula s betaSquare gamma gammaSquare pdg = Landau_polynomial \/
  straggling_formula s betaSquare gamma gammaSquare pdg = Landau_line ->
  let zeta := straggling_zeta s betaSquare pdg in
  let Emax := straggling_Emax betaSquare gamma gammaSquare pdg in
  zeta / Emax <= 0.01 /\
  50 < straggling_Nc s
         (straggling_Urban_locals s betaSquare gammaSquare Emax pdg) /\
  straggling_sigma2E s betaSquare gamma gammaSquare pdg
  = Landau_sigmaalpha betaSquare zeta Emax * zeta
    * (Landau_sigmaalpha betaSquare zeta Emax * zeta).
Proof.
  unfold straggling_formula, straggling_sigma2E. cbv zeta.
  destruct (Rlt_dec 0.01 _) as [Hk | Hk];
    [intros [E | E]; discriminate E |].
  destruct (Rlt_dec 50 _) as [HN | HN];
    [| intros [E | E]; discriminate E].
  intros _. split; [lra | split; [exact HN |]].
  unfold Scalar in *. ring.
Qed.


Lemma straggling_formula_Urban (s : MaterialEffects Oracle)
  (betaSquare gamma gammaSquare : Scalar) (pdg : Z) :
  straggling_formula s betaSquare gamma gammaSquare pdg = Urban_model ->
  straggling_sigma2E s betaSquare gamma gammaSquare pdg
  = Rabs (stepSize_ s)
    * straggling_Urban_factor s betaSquare gamma gammaSquare pdg.
Proof.
  unfold straggling_formula, straggling_sigma2E, straggling_Urban_factor.
  cbv zeta.
  destruct (Rlt_dec 0.01 _); [discriminate |].
  destruct (Rlt_dec 50 _); [destruct (Rle_dec _ 1010); discriminate |].
  intros _. unfold Scalar in *. ring.
Qed.


(** The larger variance gives the larger increment. *)
Lemma increment_order (s1 s2 : MaterialEffects Oracle)
  (mom betaSquare gamma gammaSquare : Scalar) (pdg : Z) :
  getParticleCharge pdg <> 0%Z -> 0 < betaSquare -> 0 < mom ->
  straggling_sigma2E s1 betaSquare gamma gammaSquare pdg
  < straggling_sigma2E s2 betaSquare gamma gammaSquare pdg ->
  noiseBetheBloch_increment s1 mom betaSquare gamma gammaSquare pdg
  < noiseBetheBloch_increment s2 mom betaSquare gamma gammaSquare pdg.
Proof.
  intros Hq Hb Hmom Hlt. unfold noiseBetheBloch_increment.
  pose proof (charge_factor_pos mom betaSquare pdg Hq Hb Hmom) as HQ.
  apply Rmult_lt_compat_l; [exact HQ | lra].
Qed.

Section TwoSteps.

Variable s : MaterialEffects Oracle.
Variables x1 x2 mom betaSquare gamma gammaSquare : Scalar.
Variable pdg : Z.
Hypothesis charged : getParticleCharge pdg <> 0%Z.
Hypothesis Z_pos : 0 < matZ_ s.
Hypothesis A_pos : 0 < matA_ s.
Hypothesis density_pos : 0 < matDensity_ s.
Hypothesis betaSquare_range : 0 < betaSquare <= 1.
Hypothesis mom_pos : 0 < mom.
Hypothesis Emax_pos : 0 < straggling_Emax betaSquare gamma gammaSquare pdg.
Hypothesis steps : 0 <= x1 < x2.

Let Emax := straggling_Emax betaSquare gamma gammaSquare pdg.
Let c := straggling_zeta (set_stepSize_ 1 s) betaSquare pdg.











End TwoSteps.


End StragglingSteps.

(** ** The straggling of a proton at two step lengths: worked examples *)

Section UrbanLocalsInHydrogen.

Context {Oracle : Type} `{ParticleData}.

(** The Urban locals for [Z = 1]. *)
Lemma Urban_locals_Z1 (s : MaterialEffects Oracle)
  (betaSquare gammaSquare Emax : Scalar) (pdg : Z) :
  matZ_ s = 1 -> betaSquare < 1 ->
  48 <= 2e9 * getParticleMass pdg * betaSquare * gammaSquare ->
  let u := straggling_Urban_locals s betaSquare gammaSquare Emax pdg in
  ul_I u = 16 /\ ul_e1 u = 16 /\ ul_e2 u = 10 /\
  ul_Sigma1 u = dEdx_ s * 1.0e9 * 0.6 / 16 /\
  ul_Sigma2 u = 0 /\
  ul_Sigma3 u = dEdx_ s * 1.0e9 * Emax
                / (16 * (Emax + 16) * ln ((Emax + 16) / 16)) * 0.4.
Proof.
  intros HZ Hb Hm u. unfold u, straggling_Urban_locals.
  cbn [ul_I ul_e1 ul_e2 ul_Sigma1 ul_Sigma2 ul_Sigma3]. rewrite HZ.
  destruct (Rlt_dec 2 1) as [Habs | _]; [lra |].
  rewrite c_pow_base_one.
  rewrite (c_pow_exponent_zero (10 * 1 * 1)) by lra.
  replace (16 * 1 / 1) with 16 by lra.
  replace (1 / (1 - 0)) with 1 by lra.
  rewrite (c_pow_exponent_one 16) by lra.
  replace (16 * 1) with 16 by lra.
  set (mbbgg2 := 2e9 * getParticleMass pdg * betaSquare * gammaSquare) in *.
  assert (HD : 0 < ln (mbbgg2 / 16) - betaSquare).
  { assert (ln 3 <= ln (mbbgg2 / 16)).
    { apply ln_monotone; [lra |].
      assert (3 <= mbbgg2 / 16) by (apply le_div; lra). lra. }
    pose proof ln_3_ge_1. lra. }
  set (D := ln (mbbgg2 / 16) - betaSquare) in *.
  unfold Scalar in *.
  repeat split; try lra; try (field; lra); unfold Rdiv; ring.
Qed.

(** For [Z = 1] and [Emax >= 32 eV] the number of collisions is at most
    [dEdx_ * 1e9 / 16] per centimetre, and the factor of the Urban model
    is positive. *)
Lemma straggling_Urban_Z1 (s : MaterialEffects Oracle)
  (betaSquare gamma gammaSquare : Scalar) (pdg : Z) :
  matZ_ s = 1 -> 0 < dEdx_ s -> betaSquare < 1 ->
  32 <= straggling_Emax betaSquare gamma gammaSquare pdg ->
  48 <= 2e9 * getParticleMass pdg * betaSquare * gammaSquare ->
  straggling_Nc s
    (straggling_Urban_locals s betaSquare gammaSquare
       (straggling_Emax betaSquare gamma gammaSquare pdg) pdg)
  <= dEdx_ s * 1.0e9 / 16 * Rabs (stepSize_ s) /\
  0 < straggling_Urban_factor s betaSquare gamma gammaSquare pdg.
Proof.
  intros HZ Hd Hb HE Hm.
  destruct (Urban_locals_Z1 s betaSquare gammaSquare
              (straggling_Emax betaSquare gamma gammaSquare pdg) pdg
              HZ Hb Hm) as (HI & He1 & He2 & HS1 & HS2 & HS3).
  unfold straggling_Nc, straggling_Urban_factor. cbv zeta.
  rewrite HI, He1, He2, HS1, HS2, HS3.
  set (Emax := straggling_Emax betaSquare gamma gammaSquare pdg) in *.
  assert (HL : 1 <= ln ((Emax + 16) / 16)).
  { eapply Rle_trans; [apply ln_3_ge_1 |].
    apply ln_monotone; [lra |].
    apply le_div; lra. }
  set (l := ln ((Emax + 16) / 16)) in *.
  assert (Hden : 0 < 16 * (Emax + 16) * l) by nra.
  assert (HS3pos : 0 < dEdx_ s * 1.0e9 * Emax / (16 * (Emax + 16) * l) * 0.4).
  { apply Rmult_lt_0_compat; [| lra].
    apply Rdiv_lt_0_compat; [| assumption].
    apply Rmult_lt_0_compat; nra. }
  assert (HS3le : dEdx_ s * 1.0e9 * Emax / (16 * (Emax + 16) * l) * 0.4
                  <= dEdx_ s * 1.0e9 * 0.4 / 16).
  { apply Rmult_le_reg_r with (16 * (Emax + 16) * l); [assumption |].
    replace (dEdx_ s * 1.0e9 * Emax / (16 * (Emax + 16) * l) * 0.4
             * (16 * (Emax + 16) * l))
      with (dEdx_ s * 1.0e9 * Emax * 0.4) by (field; lra).
    replace (dEdx_ s * 1.0e9 * 0.4 / 16 * (16 * (Emax + 16) * l))
      with (dEdx_ s * 1.0e9 * 0.4 * ((Emax + 16) * l)) by (field; lra).
    assert (Emax <= (Emax + 16) * l) by nra.
    assert (0 < dEdx_ s * 1.0e9 * 0.4) by lra.
    nra. }
  split.
  - pose proof (Rabs_pos (stepSize_ s)) as Hstep.
    apply Rmult_le_compat_r; [assumption |]. lra.
  - assert (Hfrac : 0 < 0.996 * Emax / (Emax + 16) < 1).
    { split; [apply Rdiv_lt_0_compat; lra |].
      apply div_lt; lra. }
    set (q := 0.996 * Emax / (Emax + 16)) in *.
    assert (HEalpha : 16 < 16 / (1 - q)).
    { apply lt_div; [lra |]. nra. }
    assert (Hmean : 0 < 16 * (Emax + 16) / Emax * (16 / (1 - q) - 16)).
    { apply Rmult_lt_0_compat; [| lra].
      apply Rdiv_lt_0_compat; lra. }
    set (meanE32 := 16 * (Emax + 16) / Emax * (16 / (1 - q) - 16)) in *.
    assert (0 < dEdx_ s * 1.0e9 * Emax / (16 * (Emax + 16) * l) * 0.4
                * meanE32) by (apply Rmult_lt_0_compat; assumption).
    lra.
Qed.


(** For [Z = 1] the factor of the Urban model is at least the share of
    the first level, [9.6 eV^2] per eV of loss. *)
Lemma straggling_Urban_factor_Z1_lower (s : MaterialEffects Oracle)
  (betaSquare gamma gammaSquare : Scalar) (pdg : Z) :
  matZ_ s = 1 -> 0 <= dEdx_ s -> betaSquare < 1 ->
  32 <= straggling_Emax betaSquare gamma gammaSquare pdg ->
  48 <= 2e9 * getParticleMass pdg * betaSquare * gammaSquare ->
  dEdx_ s * 1.0e9 * 9.6
  <= straggling_Urban_factor s betaSquare gamma gammaSquare pdg.
Proof.
  intros HZ Hd Hb HE Hm.
  destruct (Urban_locals_Z1 s betaSquare gammaSquare
              (straggling_Emax betaSquare gamma gammaSquare pdg) pdg
              HZ Hb Hm) as (HI & He1 & He2 & HS1 & HS2 & HS3).
  unfold straggling_Urban_factor. cbv zeta.
  rewrite HI, He1, He2, HS1, HS2, HS3.
  set (Emax := straggling_Emax betaSquare gamma gammaSquare pdg) in *.
  assert (HL : 1 <= ln ((Emax + 16) / 16)).
  { eapply Rle_trans; [apply ln_3_ge_1 |].
    apply ln_monotone; [lra |].
    apply le_div; lra. }
  set (l := ln ((Emax + 16) / 16)) in *.
  set (d := dEdx_ s * 1.0e9) in *.
  assert (Hd9 : 0 <= d) by (unfold d; lra).
  unfold Scalar in *.
  assert (Hfrac : 0 < 0.996 * Emax / (Emax + 16) < 1).
  { split; [apply Rdiv_lt_0_compat; lra |].
    apply div_lt; lra. }
  set (q := 0.996 * Emax / (Emax + 16)) in *.
  assert (HEalpha : 16 < 16 / (1 - q)).
  { apply lt_div; [lra |]. nra. }
  assert (Hmean : 0 <= 16 * (Emax + 16) / Emax * (16 / (1 - q) - 16)).
  { apply Rmult_le_pos; [| lra].
    left. apply Rdiv_lt_0_compat; lra. }
  set (meanE32 := 16 * (Emax + 16) / Emax * (16 / (1 - q) - 16)) in *.
  assert (HS3pos : 0 <= d * Emax / (16 * (Emax + 16) * l) * 0.4).
  { apply Rmult_le_pos; [| lra].
    apply Rmult_le_pos; [apply Rmult_le_pos; lra |].
    left. apply Rinv_0_lt_compat. nra. }
  assert (0 <= d * Emax / (16 * (Emax + 16) * l) * 0.4 * meanE32)
    by (apply Rmult_le_pos; assumption).
  lra.
Qed.

(** With no stored rate the Urban model adds nothing, whatever the
    step. *)
Lemma straggling_Urban_without_rate (s : MaterialEffects Oracle)
  (betaSquare gamma gammaSquare : Scalar) (pdg : Z) :
  dEdx_ s = 0 ->
  straggling_Urban_factor s betaSquare gamma gammaSquare pdg = 0.
Proof.
  intros Hd. unfold straggling_Urban_factor, straggling_Urban_locals.
  cbv zeta. cbn [ul_I ul_e1 ul_e2 ul_Sigma1 ul_Sigma2 ul_Sigma3].
  rewrite Hd. unfold Scalar, Rdiv in *. ring.
Qed.

End UrbanLocalsInHydrogen.

#[local] Existing Instance example_particles.













(** Why the Urban model needs a moderate stored rate.  The stored rate
    [dEdx_] is the whole rate of [dEdx], radiation included, while
    [zeta] stands for ionisation alone.  For an electron with
    [gamma = 1e5] in liquid hydrogen and a stored rate of 56 MeV/cm the
    test [Nc > 50] hands over from the Urban model to the truncated
    Landau distribution between 0.14 and 0.24 micrometres, where [zeta]
    is still a fraction of an eV, and the increment drops. *)
Lemma straggling_drops_at_Urban_end :
  let s := set_dEdx_ 0.056 (in_material liquid_hydrogen 0) in
  straggling_formula (set_stepSize_ 0.000014 s) 0.9999999999 1e5 1e10 11
  = Urban_model /\
  straggling_formula (set_stepSize_ 0.000024 s) 0.9999999999 1e5 1e10 11
  = Landau_line /\
  noiseBetheBloch_increment (set_stepSize_ 0.000024 s) 51.099891
    0.9999999999 1e5 1e10 11
  < noiseBetheBloch_increment (set_stepSize_ 0.000014 s) 51.099891
      0.9999999999 1e5 1e10 11.
Proof.
  intros s.
  set (Emax := straggling_Emax 0.9999999999 1e5 1e10 11).
  assert (HE : 5e10 <= Emax <= 6e10).
  { unfold Emax, straggling_Emax.
    replace (getParticleMass (ParticleData := example_particles) 11)
      with 0.510998910e-3 by reflexivity.
    replace (me_ (ParticleData := example_particles))
      with 0.510998910e-3 by reflexivity.
    replace (0.510998910e-3 / 0.510998910e-3) with 1 by (field; lra).
    replace (2 * 1e5 * 0.510998910e-3 / 0.510998910e-3) with (2 * 1e5)
      by (field; lra).
    split; [apply le_div; lra | apply div_le; lra]. }
  assert (Hmass : 48 <= 2e9 * getParticleMass 11 * 0.9999999999 * 1e10).
  { replace (getParticleMass (ParticleData := example_particles) 11)
      with 0.510998910e-3 by reflexivity. lra. }
  assert (Hzeta : forall x : Scalar, 0 <= x ->
            straggling_zeta (set_stepSize_ x s) 0.9999999999 11
            = 153.4e3 * (- 1) * (- 1) / 0.9999999999 * 1 / 1.008 * 0.0708 * x).
  { intros x Hx. unfold straggling_zeta, s, in_material.
    cbn [matZ_ matA_ matDensity_ stepSize_ set_stepSize_ set_material
         set_dEdx_ liquid_hydrogen density_ Z_ A_].
    replace (getParticleCharge (ParticleData := example_particles) 11)
      with (- 1)%Z by reflexivity.
    rewrite Rabs_right by lra. reflexivity. }
  assert (Hkappa : forall x : Scalar, 0 <= x <= 0.0001 ->
            0 <= straggling_zeta (set_stepSize_ x s) 0.9999999999 11 / Emax
              <= 0.00001).
  { intros x Hx. rewrite Hzeta by lra.
    split; [apply le_div; lra | apply div_le; lra]. }
  assert (HNup : forall x : Scalar, 0 <= x ->
            straggling_Nc (set_stepSize_ x s)
              (straggling_Urban_locals (set_stepSize_ x s) 0.9999999999 1e10
                 Emax 11)
            <= 0.056 * 1.0e9 / 16 * x).
  { intros x Hx.
    destruct (straggling_Urban_Z1 (H := example_particles)
                (set_stepSize_ x s) 0.9999999999 1e5 1e10 11) as [HN _];
      try reflexivity; try (cbn; lra); try assumption.
    - fold Emax. lra.
    - fold Emax in HN.
      change (stepSize_ (set_stepSize_ x s)) with x in HN.
      rewrite Rabs_right in HN by lra. exact HN. }
  assert (HNlow : forall x : Scalar, 0 <= x ->
            0.056 * 1.0e9 * 0.6 / 16 * x
            <= straggling_Nc (set_stepSize_ x s)
                 (straggling_Urban_locals (set_stepSize_ x s) 0.9999999999
                    1e10 Emax 11)).
  { intros x Hx.
    pose proof (straggling_Nc_lower_Z1 (H := example_particles)
                  (set_stepSize_ x s) 0.9999999999 1e10 Emax 11) as HN.
    change (stepSize_ (set_stepSize_ x s)) with x in HN.
    rewrite Rabs_right in HN by lra.
    apply HN; try reflexivity; try (cbn; lra); try assumption; lra. }
  assert (F1 : straggling_formula (set_stepSize_ 0.000014 s) 0.9999999999
                 1e5 1e10 11 = Urban_model).
  { unfold straggling_formula. fold Emax. cbv zeta.
    pose proof (Hkappa 0.000014 ltac:(lra)) as Hk.
    destruct (Rlt_dec 0.01 _) as [Hk' | _]; [lra |].
    pose proof (HNup 0.000014 ltac:(lra)) as HN.
    destruct (Rlt_dec 50 _) as [Hn | _]; [exfalso; lra | reflexivity]. }
  assert (Hside : 1010 < Landau_RLAMAX
                    (- 0.422784 - 0.9999999999
                     - ln (straggling_zeta (set_stepSize_ 0.000024 s)
                             0.9999999999 11 / Emax))).
  { pose proof (Hkappa 0.000024 ltac:(lra)) as Hk.
    set (k := straggling_zeta (set_stepSize_ 0.000024 s) 0.9999999999 11
              / Emax) in *.
    assert (Hk0 : 0 < k).
    { unfold k. rewrite Hzeta by lra. apply Rdiv_lt_0_compat; lra. }
    assert (Hln : ln k <= - (10)).
    { apply (ln_le_from_exp _ _ 0.00001); [assumption | lra |].
      apply (exp_cert_minus (- 10) 1 10000000000000);
        [vm_compute; reflexivity | lra | lra]. }
    destruct (Rlt_le_dec 1010 (Landau_RLAMAX (- 0.422784 - 0.9999999999 - ln k)))
      as [Hgt | Hle]; [assumption |].
    exfalso.
    assert (H0 : 0 <= - 0.422784 - 0.9999999999 - ln k) by lra.
    pose proof (Landau_switch_below _ H0 Hle). lra. }
  assert (F2 : straggling_formula (set_stepSize_ 0.000024 s) 0.9999999999
                 1e5 1e10 11 = Landau_line).
  { unfold straggling_formula. fold Emax. cbv zeta.
    pose proof (Hkappa 0.000024 ltac:(lra)) as Hk.
    destruct (Rlt_dec 0.01 _) as [Hk' | _]; [lra |].
    pose proof (HNlow 0.000024 ltac:(lra)) as HN.
    destruct (Rlt_dec 50 _) as [_ | Hn]; [| exfalso; lra].
    destruct (Rle_dec _ 1010) as [Hle | _]; [exfalso; lra | reflexivity]. }
  split; [exact F1 | split; [exact F2 |]].
  apply increment_order; [discriminate | lra | lra |].
  rewrite (straggling_formula_Urban _ _ _ _ _ F1).
  destruct (straggling_formula_Landau _ _ _ _ _ (or_intror F2))
    as (_ & _ & Hs2).
  rewrite Hs2. fold Emax.
  change (stepSize_ (set_stepSize_ 0.000014 s)) with 0.000014.
  rewrite Rabs_right by lra.
  (* the Urban model at 0.14 micrometres *)
  assert (HU : 0.056 * 1.0e9 * 9.6
               <= straggling_Urban_factor (set_stepSize_ 0.000014 s)
                    0.9999999999 1e5 1e10 11).
  { apply (straggling_Urban_factor_Z1_lower (H := example_particles)
             (set_stepSize_ 0.000014 s) 0.9999999999 1e5 1e10 11);
      try reflexivity; try (cbn; lra); try assumption.
    fold Emax. lra. }
  (* the truncated Landau distribution at 0.24 micrometres *)
  pose proof (Landau_line_floor 0.9999999999 Emax _ Hside) as Hsa.
  assert (Hcut : Landau_sigmaalpha 0.9999999999
                   (straggling_zeta (set_stepSize_ 0.000024 s) 0.9999999999
                      11) Emax <= 54.6).
  { unfold Landau_sigmaalpha. destruct (Rlt_dec 54.6 _); lra. }
  rewrite Hzeta in Hsa, Hcut |- * by lra.
  set (z := 153.4e3 * (- 1) * (- 1) / 0.9999999999 * 1 / 1.008 * 0.0708
            * 0.000024) in *.
  assert (Hz : 0 < z <= 0.26) by (unfold z; lra).
  set (sa := Landau_sigmaalpha 0.9999999999 z Emax) in *.
  assert (Hp : 0 <= sa * z <= 54.6 * 0.26).
  { split; [apply Rmult_le_pos; lra |].
    apply Rmult_le_compat; lra. }
  assert (Hpp : sa * z * (sa * z) <= 54.6 * 0.26 * (54.6 * 0.26))
    by (apply Rmult_le_compat; lra).
  lra.
Qed.

